(** * rawd: a single-process TCP relay (src/rawd.c)

    A shallow embedding of [rawd.c] and the properties of its
    accept-and-broadcast loop.  The C program talks to the operating system
    through system calls; the embedding threads an abstract kernel state
    through every call and records each call, with its arguments and its
    result, in an event log.  The log is what the theorems speak about. *)

From Stdlib Require Import ZArith String Strings.Byte DecimalString.
From Stdlib Require DecimalPos DecimalZ.
From stdpp Require Import base tactics option list sorting gmap strings.

Local Open Scope Z_scope.
#[local] Set Warnings "-clear-no-such-hyp".

(** ** Constants of the program *)

(* #define MAX_CONNS 10 *)
Definition MAX_CONNS : Z := 10.

(* #define MAX_BUF 255 *)
Definition MAX_BUF : Z := 255.

(** Modelled from the spec: the value of the <stdlib.h> macro EXIT_FAILURE is
    not part of the source; the spec describes it as a non-zero failure
    status.  POSIX systems use 1. *)
Definition EXIT_FAILURE : Z := 1.

(** ** Descriptor sets

    An [fd_set] is a bit set indexed by descriptor.  It is modelled by a
    finite set of integers; [FD_SET] outside [0, FD_SETSIZE) writes outside
    the bit array, which the embedding reports as undefined behaviour. *)

Abbreviation fd_set := (gset Z).

Definition FD_ZERO : fd_set := ∅.
Definition FD_ISSET (fd : Z) (s : fd_set) : bool := bool_decide (fd ∈ s).
Definition FD_CLR (fd : Z) (s : fd_set) : fd_set := s ∖ {[fd]}.

(** ** Symbolic constants of the socket API *)

Inductive ai_family := AF_UNSPEC | AF_INET | AF_INET6.
Inductive ai_socktype := SOCK_STREAM | SOCK_DGRAM.
Inductive sock_level := SOL_SOCKET.
Inductive sock_option := SO_REUSEADDR.

(* struct addrinfo, one element of the list getaddrinfo() returns *)
Record addrinfo := {
  ai_fam : ai_family;
  ai_type : ai_socktype;
  ai_protocol : Z;
  ai_addr : string
}.

(* the hints that init_srv passes to getaddrinfo() *)
Record addrinfo_hints := {
  hint_family : ai_family;
  hint_socktype : ai_socktype;
  hint_passive : bool
}.

(** ** The event log *)

Inductive event :=
| EvStderr (text : string)
| EvGetaddrinfo (node : option string) (service : string)
    (hints : addrinfo_hints) (err : Z)
| EvSocket (ai : addrinfo) (ret : Z)
| EvSetsockopt (fd : Z) (level : sock_level) (opt : sock_option)
    (value : Z) (ret : Z)
| EvBind (fd : Z) (ai : addrinfo) (ret : Z)
| EvFreeaddrinfo
| EvListen (fd : Z) (backlog : Z) (ret : Z)
| EvSigaction (ret : Z)
| EvSelect (nfds : Z) (readfds : fd_set) (ret : Z) (ready : fd_set)
| EvAccept (fd : Z) (ret : Z)
| EvRead (fd : Z) (count : Z) (ret : Z) (data : list byte)
| EvWrite (fd : Z) (data : list byte) (ret : Z)
| EvClose (fd : Z) (ret : Z).

(** ** The kernel interface

    Everything the program cannot decide itself comes from here: the result
    of each system call, [errno], and the platform constant FD_SETSIZE of
    <sys/select.h>.  [sys_read] answers [None] for a failed read and
    [Some data] for a successful one.

    Signals.  A write() that fails with EPIPE also sends SIGPIPE to the
    process.  rawd.c installs a handler for SIGCHLD and touches no other
    signal, so SIGPIPE has the disposition the process was started with:
    [sigpipe_ignored] tells whether the process inherited it ignored (or
    blocked); otherwise the default action applies and the process is
    terminated by the signal.  [EPIPE] and [SIGPIPE] are the values of the
    <errno.h> and <signal.h> macros. *)

Class Kernel (W : Type) := {
  FD_SETSIZE : Z;
  errno : W → Z;
  strerror : Z → string;
  gai_strerror : Z → string;
  EPIPE : Z;
  SIGPIPE : Z;
  sigpipe_ignored : bool;
  sys_getaddrinfo :
    option string → string → addrinfo_hints → W → (Z * list addrinfo) * W;
  sys_socket : addrinfo → W → Z * W;
  sys_setsockopt : Z → sock_level → sock_option → Z → W → Z * W;
  sys_bind : Z → addrinfo → W → Z * W;
  sys_listen : Z → Z → W → Z * W;
  sys_sigaction : W → Z * W;
  sys_select : Z → fd_set → W → (Z * fd_set) * W;
  sys_accept : Z → W → Z * W;
  sys_read : Z → Z → W → option (list byte) * W;
  sys_write : Z → list byte → W → Z * W;
  sys_close : Z → W → Z * W
}.

(** ** The monad of the embedding: kernel state, event log, early exit

    A computation returns, or ends the process: by exit(), by undefined
    behaviour, or by a signal whose action is to terminate the process (no
    exit status then, and nothing of the program runs after it). *)

Inductive outcome (A : Type) :=
| Ok (a : A)
| Exit (status : Z)
| Undefined
| Killed (sig : Z).
Arguments Ok {A} a.
Arguments Exit {A} status.
Arguments Undefined {A}.
Arguments Killed {A} sig.

Definition M (W A : Type) : Type := W → outcome A * W * list event.

Definition retM {W A} (a : A) : M W A := λ w, (Ok a, w, []).

Definition bindM {W A B} (m : M W A) (f : A → M W B) : M W B :=
  λ w,
    match m w with
    | (Ok a, w1, out1) =>
        let '(r, w2, out2) := f a w1 in (r, w2, out1 ++ out2)
    | (Exit st, w1, out1) => (Exit st, w1, out1)
    | (Undefined, w1, out1) => (Undefined, w1, out1)
    | (Killed sig, w1, out1) => (Killed sig, w1, out1)
    end.

#[global] Instance M_ret {W} : MRet (M W) := λ A, retM.
#[global] Instance M_bind {W} : MBind (M W) := λ A B f m, bindM m f.

Definition emit {W} (e : event) : M W unit := λ w, (Ok tt, w, [e]).
Definition exit {W A} (status : Z) : M W A := λ w, (Exit status, w, []).
Definition undefined {W A} : M W A := λ w, (Undefined, w, []).
Definition killed {W A} (sig : Z) : M W A := λ w, (Killed sig, w, []).

(* a system call: ask the kernel, then log the call with its result *)
Definition syscall {W A} (k : W → A * W) (log : A → event) : M W A :=
  λ w, let '(a, w1) := k w in (Ok a, w1, [log a]).


Section Program.
Context {W : Type} `{!Kernel W}.

(* FD_SET(fd, &set): defined only for descriptors inside the bit array *)
Definition FD_SET (fd : Z) (s : fd_set) : M W fd_set :=
  if bool_decide (0 ≤ fd < FD_SETSIZE) then mret ({[fd]} ∪ s) else undefined.

(** *** libc and system calls used by the program *)

Definition newline : string := String (Ascii.ascii_of_nat 10) EmptyString.

Definition fprintf_stderr (text : string) : M W unit := emit (EvStderr text).

(* perror(msg): "msg: strerror(errno)\n" on stderr *)
Definition perror (msg : string) : M W unit :=
  λ w, (Ok tt, w, [EvStderr (msg +:+ ": " +:+ strerror (errno w) +:+ newline)]).

(* sprintf(dst, "%d", n) into a char array of [size] bytes: the decimal
   digits, a sign for a negative number, and the terminating NUL must fit *)
Definition decimal (n : Z) : string := NilZero.string_of_int (Z.to_int n).

Definition sprintf_d (size : Z) (n : Z) : M W string :=
  let str := decimal n in
  if bool_decide (Z.of_nat (String.length str) + 1 ≤ size) then mret str
  else undefined.

Definition getaddrinfo (node : option string) (service : string)
    (hints : addrinfo_hints) : M W (Z * list addrinfo) :=
  syscall (sys_getaddrinfo node service hints)
          (λ r, EvGetaddrinfo node service hints r.1).

Definition socket (ai : addrinfo) : M W Z :=
  syscall (sys_socket ai) (EvSocket ai).

Definition setsockopt (fd : Z) (level : sock_level) (opt : sock_option)
    (value : Z) : M W Z :=
  syscall (sys_setsockopt fd level opt value) (EvSetsockopt fd level opt value).

Definition bind (fd : Z) (ai : addrinfo) : M W Z :=
  syscall (sys_bind fd ai) (EvBind fd ai).

Definition freeaddrinfo : M W unit := emit EvFreeaddrinfo.

Definition listen (fd backlog : Z) : M W Z :=
  syscall (sys_listen fd backlog) (EvListen fd backlog).

Definition sigaction_sigchld : M W Z := syscall sys_sigaction EvSigaction.

Definition select (nfds : Z) (readfds : fd_set) : M W (Z * fd_set) :=
  syscall (sys_select nfds readfds) (λ r, EvSelect nfds readfds r.1 r.2).

Definition accept (fd : Z) : M W Z :=
  syscall (sys_accept fd) (EvAccept fd).

(* read(fd, buf, count): at most [count] bytes are stored at the start of
   [buf], the rest of [buf] keeps its old content; the result is the number
   of bytes stored, or -1 *)
Definition read_reply (count : Z) (r : option (list byte)) : Z * list byte :=
  match r with
  | None => (-1, [])
  | Some data =>
      let d := take (Z.to_nat count) data in (Z.of_nat (length d), d)
  end.

Definition read (fd : Z) (buf : list byte) (count : Z) : M W (Z * list byte) :=
  r ← syscall (λ w, let '(r, w1) := sys_read fd count w in
                     (read_reply count r, w1))
              (λ r, EvRead fd count r.1 r.2);
  mret (r.1, r.2 ++ drop (length r.2) buf).

(* whether a call that returned [ret] in the kernel state [w] has raised a
   SIGPIPE that terminates the process: the call failed with EPIPE, and
   SIGPIPE is not ignored *)
Definition raises_sigpipe (ret : Z) (w : W) : bool :=
  (ret =? -1) && (errno w =? EPIPE) && negb sigpipe_ignored.

(* the end of a call that may raise SIGPIPE: the process is terminated by
   the signal, or the call returns [ret] to the program *)
Definition deliver_sigpipe (ret : Z) : M W Z :=
  λ w, if raises_sigpipe ret w then killed SIGPIPE w else retM ret w.

(* write(fd, buf, count): hands the first [count] bytes of [buf] over *)
Definition write (fd : Z) (buf : list byte) (count : Z) : M W Z :=
  let data := take (Z.to_nat count) buf in
  ret ← syscall (sys_write fd data) (EvWrite fd data);
  deliver_sigpipe ret.

Definition close (fd : Z) : M W Z :=
  syscall (sys_close fd) (EvClose fd).

(** *** rawd.c *)

(* void error(char *msg) *)
Definition error {A} (msg : string) : M W A :=
  perror msg;; exit EXIT_FAILURE.

(* the for loop of init_srv over the candidates; [None] stands for leaving
   the loop with res == NULL *)
Fixpoint init_srv_candidates (res : list addrinfo) : M W (option Z) :=
  match res with
  | [] => mret None
  | ai :: rest =>
      srv_sockfd ← socket ai;
      if srv_sockfd =? -1 then init_srv_candidates rest
      else
        err ← setsockopt srv_sockfd SOL_SOCKET SO_REUSEADDR 1;
        if err =? -1 then error "ERROR on setsockopt"
        else
          err ← bind srv_sockfd ai;
          if err =? -1 then init_srv_candidates rest
          else mret (Some srv_sockfd)
  end.

(* init_srv from the getaddrinfo() call on (lines 93 to 129), once
   port_str holds the decimal text of the port *)
Definition init_srv_hints : addrinfo_hints :=
  {| hint_family := AF_UNSPEC; hint_socktype := SOCK_STREAM;
     hint_passive := true |}.

Definition init_srv_listen (port_str : string) : M W Z :=
  r ← getaddrinfo None port_str init_srv_hints;
  if negb (r.1 =? 0) then
    fprintf_stderr ("ERROR on getaddrinfo: " +:+ gai_strerror r.1 +:+ newline);;
    exit EXIT_FAILURE
  else
    res ← init_srv_candidates r.2;
    match res with
    | None =>
        fprintf_stderr ("ERROR binding" +:+ newline);;
        exit EXIT_FAILURE
    | Some srv_sockfd =>
        freeaddrinfo;;
        err ← listen srv_sockfd MAX_CONNS;
        if err =? -1 then error "ERROR on listen"
        else
          err ← sigaction_sigchld;
          if err =? -1 then error "ERROR on sigaction"
          else mret srv_sockfd
    end.

(* int init_srv(int port); port_str is char[6] *)
Definition init_srv (port : Z) : M W Z :=
  (if (port <? 1) || (port >? 65535)
   then fprintf_stderr ("Invalid port" +:+ newline) else mret tt);;
  port_str ← sprintf_d 6 port;
  init_srv_listen port_str.

(* int init_cli(int srv_sockfd) *)
Definition init_cli (srv_sockfd : Z) : M W Z :=
  cli_sockfd ← accept srv_sockfd;
  if cli_sockfd =? -1 then error "ERROR on accept"
  else mret cli_sockfd.

(* the variables of raw() that live across loop iterations *)
Record loop_state := {
  srv_sockfd : Z;
  master : fd_set;
  fdmax : Z;
  buf : list byte
}.

(* the inner for loop over j, for the values of j still to visit *)
Fixpoint fanout (js : list Z) (s : loop_state) (i nbytes : Z) : M W unit :=
  match js with
  | [] => mret tt
  | j :: rest =>
      (if FD_ISSET j (master s) then
         if negb (j =? srv_sockfd s) && negb (j =? i) then
           err ← write j (buf s) nbytes;
           if err =? -1 then error "ERROR on write" else mret tt
         else mret tt
       else mret tt);;
      fanout rest s i nbytes
  end.

(* the body of the outer for loop, for one value of i *)
Definition dispatch (read_fds : fd_set) (i : Z) (s : loop_state)
    : M W loop_state :=
  if FD_ISSET i read_fds then
    if i =? srv_sockfd s then
      cli_sockfd ← init_cli (srv_sockfd s);
      master' ← FD_SET cli_sockfd (master s);
      mret {| srv_sockfd := srv_sockfd s; master := master';
              fdmax := if cli_sockfd >? fdmax s then cli_sockfd else fdmax s;
              buf := buf s |}
    else
      r ← read i (buf s) MAX_BUF;            (* sizeof(buf) is MAX_BUF *)
      let nbytes := r.1 in
      let s1 := {| srv_sockfd := srv_sockfd s; master := master s;
                   fdmax := fdmax s; buf := r.2 |} in
      if nbytes =? -1 then error "ERROR on read"
      else if nbytes =? 0 then
        close i;;
        mret {| srv_sockfd := srv_sockfd s; master := FD_CLR i (master s);
                fdmax := fdmax s; buf := r.2 |}
      else
        fanout (seqZ 0 (fdmax s + 1)) s1 i nbytes;;
        mret s1
  else mret s.

(* where the control is inside while(1): about to call select(), or inside
   the for loop with the current read_fds and i *)
Inductive phase :=
| Waiting
| Dispatching (read_fds : fd_set) (i : Z).

Definition config : Type := phase * loop_state.

(* one step of the loop: the select() call, one turn of the for loop, or
   leaving the for loop.  i and fdmax are C ints; they stay below FD_SETSIZE
   (run_fdmax_bound), so i + 1 and fdmax + 1 are computed without
   wrap-around *)
Definition step (c : config) : M W config :=
  let s := c.2 in
  match c.1 with
  | Waiting =>
      r ← select (fdmax s + 1) (master s);
      if r.1 =? -1 then error "ERROR on select"
      else mret (Dispatching r.2 0, s)
  | Dispatching read_fds i =>
      if i <=? fdmax s then
        s' ← dispatch read_fds i s;
        mret (Dispatching read_fds (i + 1), s')
      else mret (Waiting, s)
  end.

Fixpoint steps (n : nat) (c : config) : M W config :=
  match n with
  | O => mret c
  | S n' => c' ← step c; steps n' c'
  end.

(* raw() up to the loop: buf is an uninitialised local array, its content
   at entry is [buf0] *)
Definition raw_init (port : Z) (buf0 : list byte) : M W config :=
  srv ← init_srv port;
  master0 ← FD_SET srv FD_ZERO;
  mret (Waiting, {| srv_sockfd := srv; master := master0; fdmax := srv;
                    buf := buf0 |}).

(* int raw(int port), cut after [n] steps of the loop *)
Definition raw (port : Z) (buf0 : list byte) (n : nat) : M W config :=
  c ← raw_init port buf0; steps n c.

(* int main(): raw(6601) *)
Definition main (buf0 : list byte) (n : nat) : M W config := raw 6601 buf0 n.

End Program.

(** ** A scripted kernel

    A concrete kernel for running the embedding: the kernel state is the
    current [errno] and the list of replies still to be given, one per system
    call, in call order.  A reply that does not fit the call, or an exhausted
    script, makes the call fail. *)

Module Script.

Inductive reply :=
| RInt (ret : Z)                          (* an int result *)
| RFail (errno : Z)                       (* failure, setting errno *)
| RAddrs (res : list addrinfo)            (* getaddrinfo success *)
| RReady (n : Z) (ready : fd_set)         (* select success *)
| RData (data : list byte).               (* read success *)

Definition world : Type := Z * list reply.

Definition ENOSYS : Z := 38.

Definition pop_int (w : world) : Z * world :=
  match w.2 with
  | RInt z :: rest => (z, (w.1, rest))
  | RFail e :: rest => (-1, (e, rest))
  | _ :: rest => (-1, (ENOSYS, rest))
  | [] => (-1, (ENOSYS, []))
  end.

Definition pop_addrs (w : world) : (Z * list addrinfo) * world :=
  match w.2 with
  | RAddrs res :: rest => ((0, res), (w.1, rest))
  | RFail e :: rest => ((e, []), (w.1, rest))
  | _ :: rest => ((-1, []), (w.1, rest))
  | [] => ((-1, []), (w.1, []))
  end.

Definition pop_ready (w : world) : (Z * fd_set) * world :=
  match w.2 with
  | RReady n ready :: rest => ((n, ready), (w.1, rest))
  | RFail e :: rest => ((-1, ∅), (e, rest))
  | _ :: rest => ((-1, ∅), (ENOSYS, rest))
  | [] => ((-1, ∅), (ENOSYS, []))
  end.

Definition pop_data (w : world) : option (list byte) * world :=
  match w.2 with
  | RData d :: rest => (Some d, (w.1, rest))
  | RFail e :: rest => (None, (e, rest))
  | _ :: rest => (None, (ENOSYS, rest))
  | [] => (None, (ENOSYS, []))
  end.

#[global] Instance kernel : Kernel world := {|
  FD_SETSIZE := 1024;
  errno w := w.1;
  strerror e := "errno " +:+ decimal e;
  gai_strerror e := "eai " +:+ decimal e;
  EPIPE := 32;
  SIGPIPE := 13;
  sigpipe_ignored := false;
  sys_getaddrinfo _ _ _ := pop_addrs;
  sys_socket _ := pop_int;
  sys_setsockopt _ _ _ _ := pop_int;
  sys_bind _ _ := pop_int;
  sys_listen _ _ := pop_int;
  sys_sigaction := pop_int;
  sys_select _ _ := pop_ready;
  sys_accept _ := pop_int;
  sys_read _ _ := pop_data;
  sys_write _ _ := pop_int;
  sys_close _ := pop_int
|}.

Definition boot (script : list reply) : world := (0, script).

Definition any4 : addrinfo :=
  {| ai_fam := AF_INET; ai_type := SOCK_STREAM; ai_protocol := 6;
     ai_addr := "0.0.0.0" |}.
Definition any6 : addrinfo :=
  {| ai_fam := AF_INET6; ai_type := SOCK_STREAM; ai_protocol := 6;
     ai_addr := "::" |}.

(* replies for a start-up that binds the first candidate on descriptor 3 *)
Definition startup : list reply :=
  [RAddrs [any4; any6]; RInt 3; RInt 0; RInt 0; RInt 0; RInt 0].

(* the bytes of "hello", "hi" and "ping" *)
Definition hello : list byte := [x68; x65; x6c; x6c; x6f].
Definition hi : list byte := [x68; x69].
Definition ping : list byte := [x70; x69; x6e; x67].

(* buf filled with NUL bytes *)
Definition zeros : list byte := replicate 255 x00.

(* three clients connect on 4, 5 and 6; 4 sends "hello", 5 sends "hi",
   6 closes, 4 sends "ping" *)
Definition relay_script : list reply :=
  startup ++
  [RReady 1 {[3]}; RInt 4; RReady 1 {[3]}; RInt 5; RReady 1 {[3]}; RInt 6;
   RReady 1 {[4]}; RData hello; RInt 5; RInt 5;
   RReady 1 {[5]}; RData hi; RInt 2; RInt 2;
   RReady 1 {[6]}; RData []; RInt 0;
   RReady 1 {[4]}; RData ping; RInt 4].

(* the loop variables with the listener on 3 and clients on 4, 5 and 6 *)
Definition three_clients : loop_state :=
  {| srv_sockfd := 3; master := {[3; 4; 5; 6]}; fdmax := 6; buf := zeros |}.

(* the same, with other bytes left in buf *)
Definition three_clients_dirty : loop_state :=
  {| srv_sockfd := 3; master := {[3; 4; 5; 6]}; fdmax := 6;
     buf := replicate 255 xff |}.

(* a payload of 300 bytes arrives as a read of 255 and a read of 45 *)
Definition long_script : list reply :=
  [RReady 1 {[4]}; RData (replicate 255 x41); RInt 255; RInt 255;
   RReady 1 {[4]}; RData (replicate 45 x41); RInt 45; RInt 45].

(* the second write of a fan-out fails with EPIPE: its peer has gone *)
Definition broken_pipe_script : list reply :=
  [RReady 1 {[4]}; RData hello; RInt 5; RFail EPIPE].

(* start-up where the first candidate does not bind (EADDRINUSE) and the
   second does, on descriptor 4 *)
Definition EADDRINUSE : Z := 98.
Definition second_candidate_script : list reply :=
  [RAddrs [any4; any6]; RInt 3; RInt 0; RFail EADDRINUSE;
   RInt 4; RInt 0; RInt 0; RInt 0; RInt 0].

End Script.


(** ** Reading the event log *)



Section Observations.
Context {W : Type} `{!Kernel W}.

(* what perror() prints for a failed call *)
Definition diag (w : W) (call : string) : event :=
  EvStderr ("ERROR on " +:+ call +:+ ": " +:+ strerror (errno w) +:+ newline).

(* a destination of the fan-out for the source descriptor i *)
Definition is_dest (s : loop_state) (i j : Z) : Prop :=
  j ∈ master s ∧ j ≠ srv_sockfd s ∧ j ≠ i.

#[global] Instance is_dest_dec s i j : Decision (is_dest s i j).
Proof. unfold is_dest. apply _. Defined.

(* the invariant of the loop variables *)
Definition loop_inv (s : loop_state) : Prop :=
  srv_sockfd s ∈ master s ∧ ∀ x, x ∈ master s → 0 ≤ x ≤ fdmax s.

(* two configurations that differ at most in the content of buf *)
Definition same_but_buf (c1 c2 : config) : Prop :=
  c1.1 = c2.1 ∧ srv_sockfd c1.2 = srv_sockfd c2.2 ∧
  master c1.2 = master c2.2 ∧ fdmax c1.2 = fdmax c2.2.

Definition same_outcome_but_buf (r1 r2 : outcome config) : Prop :=
  match r1, r2 with
  | Ok c1, Ok c2 => same_but_buf c1 c2
  | Exit st1, Exit st2 => st1 = st2
  | Undefined, Undefined => True
  | Killed sig1, Killed sig2 => sig1 = sig2
  | _, _ => False
  end.

(* the destinations of one fan-out, in the order the inner loop visits them *)
Definition dests (s : loop_state) (i : Z) : list Z :=
  filter (is_dest s i) (seqZ 0 (fdmax s + 1)).

(* the log of a fan-out of [data] to the destinations [js]: a write per
   destination, until one fails: the failed write is followed by the
   diagnostic and the exit, or, when it raised SIGPIPE, it is the last event
   and the process is terminated by the signal; [w'] is the kernel state at
   the end *)
Inductive fanout_run (w' : W) (data : list byte)
    : list Z → outcome unit → list event → Prop :=
| fanout_done : fanout_run w' data [] (Ok tt) []
| fanout_next j js r out ret :
    ret ≠ -1 →
    fanout_run w' data js r out →
    fanout_run w' data (j :: js) r (EvWrite j data ret :: out)
| fanout_fail j js :
    raises_sigpipe (-1) w' = false →
    fanout_run w' data (j :: js) (Exit EXIT_FAILURE)
      [EvWrite j data (-1); diag w' "write"]
| fanout_killed j js :
    raises_sigpipe (-1) w' = true →
    fanout_run w' data (j :: js) (Killed SIGPIPE) [EvWrite j data (-1)].

(* the cases of one step of the loop, with the log of each *)
Inductive step_run : config → outcome config → W → list event → Prop :=
| run_select s ret ready w' :
    ret ≠ -1 →
    step_run (Waiting, s) (Ok (Dispatching ready 0, s)) w'
      [EvSelect (fdmax s + 1) (master s) ret ready]
| run_select_fail s ready w' :
    step_run (Waiting, s) (Exit EXIT_FAILURE) w'
      [EvSelect (fdmax s + 1) (master s) (-1) ready; diag w' "select"]
| run_pass_end s rd i w' :
    fdmax s < i →
    step_run (Dispatching rd i, s) (Ok (Waiting, s)) w' []
| run_idle s rd i w' :
    i ≤ fdmax s → i ∉ rd →
    step_run (Dispatching rd i, s) (Ok (Dispatching rd (i + 1), s)) w' []
| run_accept s rd i cli w' :
    i ≤ fdmax s → i ∈ rd → i = srv_sockfd s →
    cli ≠ -1 → 0 ≤ cli < FD_SETSIZE →
    step_run (Dispatching rd i, s)
      (Ok (Dispatching rd (i + 1),
           {| srv_sockfd := srv_sockfd s; master := {[cli]} ∪ master s;
              fdmax := if cli >? fdmax s then cli else fdmax s;
              buf := buf s |})) w'
      [EvAccept (srv_sockfd s) cli]
| run_accept_fail s rd i w' :
    i ≤ fdmax s → i ∈ rd → i = srv_sockfd s →
    step_run (Dispatching rd i, s) (Exit EXIT_FAILURE) w'
      [EvAccept (srv_sockfd s) (-1); diag w' "accept"]
| run_accept_undefined s rd i cli w' :
    i ≤ fdmax s → i ∈ rd → i = srv_sockfd s →
    cli ≠ -1 → ¬ (0 ≤ cli < FD_SETSIZE) →
    step_run (Dispatching rd i, s) Undefined w' [EvAccept (srv_sockfd s) cli]
| run_read_fail s rd i w' :
    i ≤ fdmax s → i ∈ rd → i ≠ srv_sockfd s →
    step_run (Dispatching rd i, s) (Exit EXIT_FAILURE) w'
      [EvRead i MAX_BUF (-1) []; diag w' "read"]
| run_close s rd i ret w' :
    i ≤ fdmax s → i ∈ rd → i ≠ srv_sockfd s →
    step_run (Dispatching rd i, s)
      (Ok (Dispatching rd (i + 1),
           {| srv_sockfd := srv_sockfd s; master := master s ∖ {[i]};
              fdmax := fdmax s; buf := buf s |})) w'
      [EvRead i MAX_BUF 0 []; EvClose i ret]
| run_forward s rd i data out w' :
    i ≤ fdmax s → i ∈ rd → i ≠ srv_sockfd s →
    data ≠ [] → Z.of_nat (length data) ≤ MAX_BUF →
    fanout_run w' data (dests s i) (Ok tt) out →
    step_run (Dispatching rd i, s)
      (Ok (Dispatching rd (i + 1),
           {| srv_sockfd := srv_sockfd s; master := master s;
              fdmax := fdmax s;
              buf := data ++ drop (length data) (buf s) |})) w'
      (EvRead i MAX_BUF (Z.of_nat (length data)) data :: out)
| run_forward_fail s rd i data out w' :
    i ≤ fdmax s → i ∈ rd → i ≠ srv_sockfd s →
    data ≠ [] → Z.of_nat (length data) ≤ MAX_BUF →
    fanout_run w' data (dests s i) (Exit EXIT_FAILURE) out →
    step_run (Dispatching rd i, s) (Exit EXIT_FAILURE) w'
      (EvRead i MAX_BUF (Z.of_nat (length data)) data :: out)
| run_forward_killed s rd i data out w' :
    i ≤ fdmax s → i ∈ rd → i ≠ srv_sockfd s →
    data ≠ [] → Z.of_nat (length data) ≤ MAX_BUF →
    fanout_run w' data (dests s i) (Killed SIGPIPE) out →
    step_run (Dispatching rd i, s) (Killed SIGPIPE) w'
      (EvRead i MAX_BUF (Z.of_nat (length data)) data :: out).

(* a run of the loop: steps that succeed, possibly ended by one that ends
   the process *)
Inductive run : config → outcome config → W → list event → Prop :=
| run_stop c w' : run c (Ok c) w' []
| run_more c c1 w1 out1 r w' out2 :
    step_run c (Ok c1) w1 out1 →
    run c1 r w' out2 →
    run c r w' (out1 ++ out2)
| run_exit c st w' out :
    step_run c (Exit st) w' out → run c (Exit st) w' out
| run_undefined c w' out :
    step_run c Undefined w' out → run c Undefined w' out
| run_killed c sig w' out :
    step_run c (Killed sig) w' out → run c (Killed sig) w' out.

(* the log of the candidate loop of init_srv *)
Inductive candidates_run (w' : W)
    : list addrinfo → outcome (option Z) → list event → Prop :=
| cand_none : candidates_run w' [] (Ok None) []
| cand_no_socket ai rest r out :
    candidates_run w' rest r out →
    candidates_run w' (ai :: rest) r (EvSocket ai (-1) :: out)
| cand_setsockopt_fail ai rest fd :
    fd ≠ -1 →
    candidates_run w' (ai :: rest) (Exit EXIT_FAILURE)
      [EvSocket ai fd; EvSetsockopt fd SOL_SOCKET SO_REUSEADDR 1 (-1);
       diag w' "setsockopt"]
| cand_bind_fail ai rest fd e r out :
    fd ≠ -1 → e ≠ -1 →
    candidates_run w' rest r out →
    candidates_run w' (ai :: rest) r
      (EvSocket ai fd :: EvSetsockopt fd SOL_SOCKET SO_REUSEADDR 1 e ::
       EvBind fd ai (-1) :: out)
| cand_bound ai rest fd e b :
    fd ≠ -1 → e ≠ -1 → b ≠ -1 →
    candidates_run w' (ai :: rest) (Ok (Some fd))
      [EvSocket ai fd; EvSetsockopt fd SOL_SOCKET SO_REUSEADDR 1 e;
       EvBind fd ai b].

(* the log of init_srv from getaddrinfo() on; [res0] is the candidate list
   that getaddrinfo() returned *)
Inductive listen_run (w' : W) (port_str : string) (res0 : list addrinfo)
    : outcome Z → list event → Prop :=
| listen_no_addr err :
    err ≠ 0 →
    listen_run w' port_str res0 (Exit EXIT_FAILURE)
      [EvGetaddrinfo None port_str init_srv_hints err;
       EvStderr ("ERROR on getaddrinfo: " +:+ gai_strerror err +:+ newline)]
| listen_candidates_fail out :
    candidates_run w' res0 (Exit EXIT_FAILURE) out →
    listen_run w' port_str res0 (Exit EXIT_FAILURE)
      (EvGetaddrinfo None port_str init_srv_hints 0 :: out)
| listen_not_bound out :
    candidates_run w' res0 (Ok None) out →
    listen_run w' port_str res0 (Exit EXIT_FAILURE)
      (EvGetaddrinfo None port_str init_srv_hints 0 :: out ++
       [EvStderr ("ERROR binding" +:+ newline)])
| listen_fail out fd :
    candidates_run w' res0 (Ok (Some fd)) out →
    listen_run w' port_str res0 (Exit EXIT_FAILURE)
      (EvGetaddrinfo None port_str init_srv_hints 0 :: out ++
       [EvFreeaddrinfo; EvListen fd MAX_CONNS (-1); diag w' "listen"])
| listen_sigaction_fail out fd l :
    candidates_run w' res0 (Ok (Some fd)) out → l ≠ -1 →
    listen_run w' port_str res0 (Exit EXIT_FAILURE)
      (EvGetaddrinfo None port_str init_srv_hints 0 :: out ++
       [EvFreeaddrinfo; EvListen fd MAX_CONNS l; EvSigaction (-1);
        diag w' "sigaction"])
| listen_ok out fd l sg :
    candidates_run w' res0 (Ok (Some fd)) out → l ≠ -1 → sg ≠ -1 →
    listen_run w' port_str res0 (Ok fd)
      (EvGetaddrinfo None port_str init_srv_hints 0 :: out ++
       [EvFreeaddrinfo; EvListen fd MAX_CONNS l; EvSigaction sg]).

(* the port is outside 1..65535 *)
Definition invalid_port (port : Z) : Prop := port < 1 ∨ 65535 < port.

(* the decimal text of the port and its NUL fit the six bytes of port_str *)
Definition fits_port_str (port : Z) : Prop :=
  Z.of_nat (String.length (decimal port)) + 1 ≤ 6.

Definition invalid_port_log (port : Z) : list event :=
  if (port <? 1) || (port >? 65535)
  then [EvStderr ("Invalid port" +:+ newline)] else [].

(* the loop variables when the loop is entered *)
Definition initial_state (srv : Z) (buf0 : list byte) : loop_state :=
  {| srv_sockfd := srv; master := {[srv]}; fdmax := srv; buf := buf0 |}.


(* [fits_port_str] checked on the [n] ports from [p] on *)
Fixpoint all_fit (n : nat) (p : Z) : bool :=
  match n with
  | O => true
  | S n' => bool_decide (fits_port_str p) && all_fit n' (p + 1)
  end.

End Observations.

(* the (descriptor, bytes) pairs handed to write(), in call order *)
Definition writes_of (tr : list event) : list (Z * list byte) :=
  omap (λ e, match e with EvWrite fd d _ => Some (fd, d) | _ => None end) tr.

(* the name of the call when the event is a failed select, accept, read or
   write *)
Definition failed_call (e : event) : option string :=
  match e with
  | EvSelect _ _ ret _ => if ret =? -1 then Some "select" else None
  | EvAccept _ ret => if ret =? -1 then Some "accept" else None
  | EvRead _ _ ret _ => if ret =? -1 then Some "read" else None
  | EvWrite _ _ ret => if ret =? -1 then Some "write" else None
  | _ => None
  end.

Definition is_stderr (e : event) : bool :=
  match e with EvStderr _ => true | _ => false end.

(* the events of start-up *)
Definition is_startup_event (e : event) : bool :=
  match e with
  | EvStderr _ | EvGetaddrinfo _ _ _ _ | EvSocket _ _
  | EvSetsockopt _ _ _ _ _ | EvBind _ _ _ | EvFreeaddrinfo
  | EvListen _ _ _ | EvSigaction _ => true
  | _ => false
  end.

(* the descriptors registered after the log [tr], starting from [m]: an
   accepted descriptor is added, a closed one is removed *)
Fixpoint live (m : fd_set) (tr : list event) : fd_set :=
  match tr with
  | [] => m
  | EvAccept _ cli :: tr' =>
      if cli =? -1 then live m tr' else live ({[cli]} ∪ m) tr'
  | EvClose fd _ :: tr' => live (m ∖ {[fd]}) tr'
  | _ :: tr' => live m tr'
  end.

(* every write of the log goes to a descriptor registered at that point *)
Fixpoint writes_registered (m : fd_set) (tr : list event) : Prop :=
  match tr with
  | [] => True
  | EvWrite fd _ _ :: tr' => fd ∈ m ∧ writes_registered m tr'
  | EvAccept _ cli :: tr' =>
      if cli =? -1 then writes_registered m tr'
      else writes_registered ({[cli]} ∪ m) tr'
  | EvClose fd _ :: tr' => writes_registered (m ∖ {[fd]}) tr'
  | _ :: tr' => writes_registered m tr'
  end.

(* an event that is neither a diagnostic nor a failed call *)
Definition quiet (e : event) : Prop :=
  is_stderr e = false ∧ failed_call e = None.

(* the descriptor of the most recent read after the log [tr] *)
Fixpoint last_read (cur : option Z) (tr : list event) : option Z :=
  match tr with
  | [] => cur
  | EvRead fd _ _ _ :: tr' => last_read (Some fd) tr'
  | _ :: tr' => last_read cur tr'
  end.

(* every write of the log hands over exactly the bytes stored by the most
   recent read; [cur] is the chunk of that read *)
Fixpoint writes_fresh (cur : list byte) (tr : list event) : Prop :=
  match tr with
  | [] => True
  | EvRead _ _ _ d :: tr' => writes_fresh d tr'
  | EvWrite _ d _ :: tr' => d = cur ∧ writes_fresh cur tr'
  | _ :: tr' => writes_fresh cur tr'
  end.

(* the chunk of the most recent read after the log [tr] *)
Fixpoint last_chunk (cur : list byte) (tr : list event) : list byte :=
  match tr with
  | [] => cur
  | EvRead _ _ _ d :: tr' => last_chunk d tr'
  | _ :: tr' => last_chunk cur tr'
  end.

(* the events of the candidate loop of init_srv *)
Definition is_candidate_event (e : event) : bool :=
  match e with
  | EvSocket _ _ | EvSetsockopt _ _ _ _ _ | EvBind _ _ _ | EvStderr _ => true
  | _ => false
  end.

(* the bytes written to [r] that were read from [s]: a write forwards the
   bytes of the most recent read, [cur] is the descriptor of that read *)
Fixpoint forwarded_from (cur : option Z) (s r : Z) (tr : list event)
    : list (list byte) :=
  match tr with
  | [] => []
  | EvRead fd _ _ _ :: tr' => forwarded_from (Some fd) s r tr'
  | EvWrite fd d _ :: tr' =>
      if decide (fd = r ∧ cur = Some s)
      then d :: forwarded_from cur s r tr'
      else forwarded_from cur s r tr'
  | _ :: tr' => forwarded_from cur s r tr'
  end.

Definition forwarded (s r : Z) (tr : list event) : list (list byte) :=
  forwarded_from None s r tr.

(* the non-empty chunks read from [s], in read order *)
Fixpoint chunks_read (s : Z) (tr : list event) : list (list byte) :=
  match tr with
  | [] => []
  | EvRead fd _ n d :: tr' =>
      if decide (fd = s ∧ 0 < n) then d :: chunks_read s tr'
      else chunks_read s tr'
  | _ :: tr' => chunks_read s tr'
  end.

(** Modelled from the spec: the errno values of a transient or retryable
    accept() failure.  The spec names the class without listing it and the
    source never looks at errno; these are the values accept(2) documents as
    worth retrying (EINTR, EAGAIN, ECONNABORTED), with their Linux numbers. *)
Definition EINTR : Z := 4.
Definition EAGAIN : Z := 11.
Definition ECONNABORTED : Z := 103.
Definition retryable_errno (e : Z) : bool :=
  (e =? EINTR) || (e =? EAGAIN) || (e =? ECONNABORTED).

(** ** Reading the event log, continued *)

(* the descriptor an event serves: the one read, or the one accepted on *)
Definition served (e : event) : option Z :=
  match e with
  | EvRead fd _ _ _ => Some fd
  | EvAccept fd _ => Some fd
  | _ => None
  end.

Definition is_select (e : event) : bool :=
  match e with EvSelect _ _ _ _ => true | _ => false end.

Definition is_write (e : event) : bool :=
  match e with EvWrite _ _ _ => true | _ => false end.

(* within a pass the descriptors are served in ascending order, from [lo]
   on, and only when they are in the [ready] set of the select() that opened
   the pass *)
Fixpoint pass_ordered (lo : Z) (ready : fd_set) (tr : list event) : Prop :=
  match tr with
  | [] => True
  | EvSelect _ _ _ rd :: tr' => pass_ordered 0 rd tr'
  | EvRead fd _ _ _ :: tr' =>
      lo ≤ fd ∧ fd ∈ ready ∧ pass_ordered (fd + 1) ready tr'
  | EvAccept fd _ :: tr' =>
      lo ≤ fd ∧ fd ∈ ready ∧ pass_ordered (fd + 1) ready tr'
  | _ :: tr' => pass_ordered lo ready tr'
  end.



(* the calls that set the listening socket up *)
Definition is_setup_call (e : event) : bool :=
  match e with
  | EvGetaddrinfo _ _ _ _ | EvSocket _ _ | EvSetsockopt _ _ _ _ _
  | EvBind _ _ _ | EvFreeaddrinfo | EvListen _ _ _ | EvSigaction _ => true
  | _ => false
  end.

(* the calls of the loop of raw() *)
Definition is_loop_call (e : event) : bool :=
  match e with
  | EvSelect _ _ _ _ | EvAccept _ _ | EvRead _ _ _ _ | EvWrite _ _ _
  | EvClose _ _ => true
  | _ => false
  end.

(** * Properties *)

(* membership in an explicit list of events, by cases *)
Ltac elem_cases H :=
  repeat (apply elem_of_cons in H as [H|H]; [try discriminate H|]);
  try (by apply elem_of_nil in H).

(** ** Running the monad *)

Section Run.
Context {W : Type} `{!Kernel W}.

Lemma bind_run {A B} (m : M W A) (f : A → M W B) w :
  (m ≫= f) w =
    match m w with
    | (Ok a, w1, out1) =>
        let '(r, w2, out2) := f a w1 in (r, w2, out1 ++ out2)
    | (Exit st, w1, out1) => (Exit st, w1, out1)
    | (Undefined, w1, out1) => (Undefined, w1, out1)
    | (Killed sig, w1, out1) => (Killed sig, w1, out1)
    end.
Proof. reflexivity. Qed.

Lemma bind_ok {A B} (m : M W A) (f : A → M W B) w a w1 out1 :
  m w = (Ok a, w1, out1) →
  (m ≫= f) w = ((f a w1).1.1, (f a w1).1.2, out1 ++ (f a w1).2).
Proof.
  intros Hm. rewrite bind_run, Hm. by destruct (f a w1) as [[? ?] ?].
Qed.

Lemma bind_inv {A B} (m : M W A) (f : A → M W B) w b w2 out :
  (m ≫= f) w = (Ok b, w2, out) →
  ∃ a w1 out1 out2,
    m w = (Ok a, w1, out1) ∧ f a w1 = (Ok b, w2, out2) ∧ out = out1 ++ out2.
Proof.
  rewrite bind_run. destruct (m w) as [[[a| | |] w1] out1]; try done.
  destruct (f a w1) as [[r w3] out2] eqn:Hf. intros [= -> -> <-].
  by exists a, w1, out1, out2.
Qed.

End Run.

(** ** The cases of a fan-out and of a step *)

Section Cases.
Context {W : Type} `{!Kernel W}.

Lemma perror_diag (call : string) (w : W) :
  perror ("ERROR on " +:+ call) w = (Ok tt, w, [diag w call]).
Proof.
  unfold perror, diag. reflexivity.
Qed.

Lemma error_run {A} (call : string) (w : W) :
  error (A:=A) ("ERROR on " +:+ call) w = (Exit EXIT_FAILURE, w, [diag w call]).
Proof. unfold error. rewrite bind_run, perror_diag. reflexivity. Qed.

Lemma fanout_cons_dest j js s i n w :
  is_dest s i j →
  fanout (j :: js) s i n w =
    let data := take (Z.to_nat n) (buf s) in
    let '(ret, w1) := sys_write j data w in
    if raises_sigpipe ret w1
    then (Killed SIGPIPE, w1, [EvWrite j data ret])
    else if ret =? -1
    then (Exit EXIT_FAILURE, w1, [EvWrite j data ret; diag w1 "write"])
    else let '(r, w2, out) := fanout js s i n w1 in
         (r, w2, EvWrite j data ret :: out).
Proof.
  intros (Hm & Hs & Hi). cbn [fanout]. unfold FD_ISSET.
  rewrite bool_decide_eq_true_2 by done.
  apply Z.eqb_neq in Hs, Hi. rewrite Hs, Hi. cbn [negb andb].
  rewrite !bind_run. unfold write, syscall, deliver_sigpipe. cbn zeta.
  rewrite bind_run.
  destruct (sys_write j _ w) as [ret w1]. cbn.
  destruct (raises_sigpipe ret w1); cbn; [done|].
  destruct (ret =? -1) eqn:Hret; cbn; [done|].
  by destruct (fanout js s i n w1) as [[? ?] ?].
Qed.

Lemma fanout_cons_skip j js s i n w :
  ¬ is_dest s i j → fanout (j :: js) s i n w = fanout js s i n w.
Proof.
  intros Hn. cbn [fanout]. rewrite bind_run.
  assert ((if FD_ISSET j (master s)
           then if negb (j =? srv_sockfd s) && negb (j =? i)
                then err ← write j (buf s) n;
                     (if err =? -1 then error "ERROR on write" else mret tt)
                else mret tt
           else mret tt) w = (Ok tt, w, [])) as ->.
  { unfold FD_ISSET. case_bool_decide as Hm; [|done].
    destruct (j =? srv_sockfd s) eqn:Hs; [done|].
    destruct (j =? i) eqn:Hi; [done|].
    apply Z.eqb_neq in Hs, Hi. by destruct Hn. }
  by destruct (fanout js s i n w) as [[? ?] ?].
Qed.

Lemma fanout_cases js s i n w r w' out :
  fanout js s i n w = (r, w', out) →
  fanout_run w' (take (Z.to_nat n) (buf s)) (filter (is_dest s i) js) r out.
Proof.
  revert w out. induction js as [|j js IH]; intros w out.
  - intros [= <- <- <-]. constructor.
  - destruct (decide (is_dest s i j)) as [Hd|Hd].
    + rewrite fanout_cons_dest, filter_cons_True by done. cbn zeta.
      destruct (sys_write j _ w) as [ret w1].
      destruct (raises_sigpipe ret w1) eqn:Hsig.
      { assert (ret = -1) as ->.
        { unfold raises_sigpipe in Hsig.
          apply andb_prop in Hsig as [[Hret _]%andb_prop _].
          by apply Z.eqb_eq in Hret. }
        intros [= <- <- <-]. by apply fanout_killed. }
      destruct (ret =? -1) eqn:Hret.
      * apply Z.eqb_eq in Hret as ->. intros [= <- <- <-].
        by apply fanout_fail.
      * apply Z.eqb_neq in Hret.
        destruct (fanout js s i n w1) as [[r1 w2] out1] eqn:Hf.
        intros [= <- <- <-]. constructor; [done|]. by eapply IH.
    + rewrite fanout_cons_skip, filter_cons_False by done. apply IH.
Qed.

Lemma fanout_run_outcome (w' : W) data js r out :
  fanout_run w' data js r out →
  r = Ok tt ∨ r = Exit EXIT_FAILURE ∨ r = Killed SIGPIPE.
Proof. induction 1; auto. Qed.

Lemma init_cli_run srv w :
  init_cli srv w =
    let '(cli, w1) := sys_accept srv w in
    if cli =? -1
    then (Exit EXIT_FAILURE, w1, [EvAccept srv cli; diag w1 "accept"])
    else (Ok cli, w1, [EvAccept srv cli]).
Proof.
  unfold init_cli. rewrite bind_run. unfold accept, syscall.
  destruct (sys_accept srv w) as [cli w1].
  destruct (cli =? -1); [|done].
  change (error "ERROR on accept") with (error (A:=Z) ("ERROR on " +:+ "accept")).
  by rewrite error_run.
Qed.

Lemma read_run i b w :
  read i b MAX_BUF w =
    let '(r, w1) := sys_read i MAX_BUF w in
    let rr := read_reply MAX_BUF r in
    (Ok (rr.1, rr.2 ++ drop (length rr.2) b), w1,
     [EvRead i MAX_BUF rr.1 rr.2]).
Proof.
  unfold read. rewrite bind_run. unfold syscall.
  by destruct (sys_read i MAX_BUF w) as [r w1].
Qed.

Lemma read_reply_cases r :
  read_reply MAX_BUF r = (-1, []) ∨
  read_reply MAX_BUF r = (0, []) ∨
  ∃ data, data ≠ [] ∧ Z.of_nat (length data) ≤ MAX_BUF ∧
          read_reply MAX_BUF r = (Z.of_nat (length data), data).
Proof.
  destruct r as [data|]; [|by left]. right. unfold read_reply.
  destruct (take (Z.to_nat MAX_BUF) data) as [|b d] eqn:Hd; [by left|].
  right. exists (b :: d). split_and!; [done| |done].
  rewrite <- Hd, length_take. unfold MAX_BUF. lia.
Qed.

Lemma step_cases c w r w' out :
  step c w = (r, w', out) → step_run c r w' out.
Proof.
  destruct c as [[|rd i] s]; unfold step; cbn [fst snd].
  - rewrite bind_run. unfold select, syscall.
    destruct (sys_select _ _ w) as [[ret ready] w1]. cbn [fst snd].
    destruct (ret =? -1) eqn:Hret.
    + apply Z.eqb_eq in Hret as ->.
      change (error "ERROR on select")
        with (error (A:=config) ("ERROR on " +:+ "select")).
      rewrite error_run. intros [= <- <- <-]. apply run_select_fail.
    + apply Z.eqb_neq in Hret. intros [= <- <- <-]. by apply run_select.
  - destruct (i <=? fdmax s) eqn:Hi.
    2:{ apply Z.leb_gt in Hi. intros [= <- <- <-]. by apply run_pass_end. }
    apply Z.leb_le in Hi. rewrite bind_run. unfold dispatch, FD_ISSET.
    case_bool_decide as Hrd.
    2:{ intros [= <- <- <-]. by apply run_idle. }
    destruct (i =? srv_sockfd s) eqn:Hsrv.
    + apply Z.eqb_eq in Hsrv. rewrite bind_run, init_cli_run.
      destruct (sys_accept _ w) as [cli w1].
      destruct (cli =? -1) eqn:Hcli.
      { apply Z.eqb_eq in Hcli as ->. intros [= <- <- <-].
        by apply run_accept_fail. }
      apply Z.eqb_neq in Hcli. rewrite bind_run. unfold FD_SET.
      case_bool_decide as Hrange.
      * intros [= <- <- <-]. by apply run_accept.
      * intros [= <- <- <-]. by apply run_accept_undefined.
    + apply Z.eqb_neq in Hsrv. rewrite bind_run, read_run.
      destruct (sys_read i MAX_BUF w) as [rr w1]. cbn zeta.
      destruct (read_reply_cases rr) as [->|[->|(data & Hne & Hlen & ->)]];
        cbn [fst snd].
      * change (-1 =? -1) with true. cbn iota.
        change (error "ERROR on read")
          with (error (A:=loop_state) ("ERROR on " +:+ "read")).
        rewrite error_run. intros [= <- <- <-]. by apply run_read_fail.
      * change (0 =? -1) with false. change (0 =? 0) with true. cbn iota.
        rewrite bind_run. unfold close, syscall.
        destruct (sys_close i w1) as [ret w2]. intros [= <- <- <-].
        by apply run_close.
      * assert ((Z.of_nat (length data) =? -1) = false) as ->
          by (apply Z.eqb_neq; lia).
        assert ((Z.of_nat (length data) =? 0) = false) as ->.
        { apply Z.eqb_neq. destruct data; [done|]. cbn [length]. lia. }
        rewrite bind_run.
        destruct (fanout _ _ _ _ w1) as [[r1 w2] out1] eqn:Hf.
        apply fanout_cases in Hf. cbn [buf] in Hf.
        rewrite Nat2Z.id, take_app_length in Hf.
        change (filter _ _) with (dests s i) in Hf.
        destruct (fanout_run_outcome _ _ _ _ _ Hf) as [-> | [-> | ->]].
        -- cbn. rewrite !app_nil_r. intros [= <- <- <-]. by apply run_forward.
        -- intros [= <- <- <-]. by apply run_forward_fail.
        -- intros [= <- <- <-]. by apply run_forward_killed.
Qed.

Lemma steps_run n c w r w' out :
  steps n c w = (r, w', out) → run c r w' out.
Proof.
  revert c w out. induction n as [|n IH]; intros c w out.
  - intros [= <- <- <-]. constructor.
  - cbn [steps]. rewrite bind_run.
    destruct (step c w) as [[r1 w1] out1] eqn:Hstep.
    apply step_cases in Hstep. destruct r1 as [c1|st| |sig].
    + destruct (steps n c1 w1) as [[r2 w2] out2] eqn:Hsteps.
      intros [= <- <- <-]. eapply run_more; [done|]. by eapply IH.
    + intros [= <- <- <-]. by apply run_exit.
    + intros [= <- <- <-]. by apply run_undefined.
    + intros [= <- <- <-]. by apply run_killed.
Qed.

Lemma candidates_cases res w r w' out :
  init_srv_candidates res w = (r, w', out) → candidates_run w' res r out.
Proof.
  revert w out. induction res as [|ai rest IH]; intros w out.
  - intros [= <- <- <-]. constructor.
  - cbn [init_srv_candidates]. rewrite bind_run. unfold socket at 1, syscall.
    destruct (sys_socket ai w) as [fd w1]. destruct (fd =? -1) eqn:Hfd.
    { apply Z.eqb_eq in Hfd as ->.
      destruct (init_srv_candidates rest w1) as [[r1 w2] out1] eqn:Hc.
      intros [= <- <- <-]. apply cand_no_socket. by eapply IH. }
    apply Z.eqb_neq in Hfd. rewrite bind_run. unfold setsockopt, syscall.
    destruct (sys_setsockopt _ _ _ _ w1) as [e w2].
    destruct (e =? -1) eqn:He.
    { apply Z.eqb_eq in He as ->.
      change (error "ERROR on setsockopt")
        with (error (A:=option Z) ("ERROR on " +:+ "setsockopt")).
      rewrite error_run. intros [= <- <- <-]. by apply cand_setsockopt_fail. }
    apply Z.eqb_neq in He. rewrite bind_run. unfold bind, syscall.
    destruct (sys_bind fd ai w2) as [b w3]. destruct (b =? -1) eqn:Hb.
    { apply Z.eqb_eq in Hb as ->.
      destruct (init_srv_candidates rest w3) as [[r1 w4] out1] eqn:Hc.
      intros [= <- <- <-]. apply cand_bind_fail; [done..|]. by eapply IH. }
    apply Z.eqb_neq in Hb. intros [= <- <- <-]. by apply cand_bound.
Qed.

Lemma candidates_run_outcome (w' : W) res r out :
  candidates_run w' res r out →
  r = Ok None ∨ (∃ fd, r = Ok (Some fd)) ∨ r = Exit EXIT_FAILURE.
Proof. induction 1; eauto. Qed.

Lemma candidates_run_world (w1 w2 : W) res x out :
  candidates_run w1 res (Ok x) out → candidates_run w2 res (Ok x) out.
Proof.
  intros Hc. remember (Ok x) as r eqn:Hr.
  induction Hc; try discriminate; subst; constructor; auto.
Qed.

Lemma listen_cases port_str w r w' out :
  init_srv_listen port_str w = (r, w', out) →
  listen_run w' port_str
    (sys_getaddrinfo None port_str init_srv_hints w).1.2 r out.
Proof.
  unfold init_srv_listen. rewrite bind_run. unfold getaddrinfo, syscall.
  destruct (sys_getaddrinfo _ _ _ w) as [[err res] w1]. cbn [fst snd].
  destruct (err =? 0) eqn:Herr; cbn [negb].
  2:{ apply Z.eqb_neq in Herr. intros [= <- <- <-]. by apply listen_no_addr. }
  apply Z.eqb_eq in Herr as ->. rewrite bind_run.
  destruct (init_srv_candidates res w1) as [[rc w2] outc] eqn:Hc.
  apply candidates_cases in Hc.
  destruct (candidates_run_outcome _ _ _ _ Hc) as [->|[[fd ->]| ->]].
  all: try (pose proof (λ w0, candidates_run_world _ w0 _ _ _ Hc) as Hc').
  - intros [= <- <- <-]. cbn [app]. by eapply listen_not_bound.
  - rewrite bind_run. unfold freeaddrinfo, emit. cbn beta iota zeta.
    rewrite bind_run. unfold listen, syscall.
    destruct (sys_listen fd MAX_CONNS w2) as [l w3].
    destruct (l =? -1) eqn:Hl.
    { apply Z.eqb_eq in Hl as ->.
      change (error "ERROR on listen")
        with (error (A:=Z) ("ERROR on " +:+ "listen")).
      rewrite error_run. intros [= <- <- <-]. cbn [app]. by eapply listen_fail. }
    apply Z.eqb_neq in Hl. rewrite bind_run. unfold sigaction_sigchld, syscall.
    destruct (sys_sigaction w3) as [sg w4]. destruct (sg =? -1) eqn:Hsg.
    { apply Z.eqb_eq in Hsg as ->.
      change (error "ERROR on sigaction")
        with (error (A:=Z) ("ERROR on " +:+ "sigaction")).
      rewrite error_run. intros [= <- <- <-]. cbn [app]. by eapply listen_sigaction_fail. }
    apply Z.eqb_neq in Hsg. intros [= <- <- <-]. cbn [app]. by eapply listen_ok.
  - intros [= <- <- <-]. cbn [app]. by eapply listen_candidates_fail.
Qed.

End Cases.

(** ** Start-up and the loop invariant *)

Section Invariant.
Context {W : Type} `{!Kernel W}.

Lemma init_srv_cases port w r w' out :
  init_srv port w = (r, w', out) →
  (fits_port_str port ∧ ∃ out',
     listen_run w' (decimal port)
       (sys_getaddrinfo None (decimal port) init_srv_hints w).1.2 r out' ∧
     out = invalid_port_log port ++ out') ∨
  (¬ fits_port_str port ∧ r = Undefined ∧ w' = w ∧
   out = invalid_port_log port).
Proof.
  unfold init_srv, invalid_port_log. rewrite bind_run.
  assert (∀ k : unit → M W Z,
    (let '(r0, w2, out2) := k tt w in
     (r0, w2, (if (port <? 1) || (port >? 65535)
               then [EvStderr ("Invalid port" +:+ newline)] else []) ++ out2))
    = (r, w', out) → ∃ out2, k tt w = (r, w', out2) ∧
        out = (if (port <? 1) || (port >? 65535)
               then [EvStderr ("Invalid port" +:+ newline)] else []) ++ out2)
    as Hk.
  { intros k. destruct (k tt w) as [[r0 w2] out2].
    intros [= <- <- <-]. eauto. }
  intros Hrun.
  assert (∃ out2, (port_str ← sprintf_d 6 port; init_srv_listen port_str) w
                  = (r, w', out2) ∧
            out = (if (port <? 1) || (port >? 65535)
                   then [EvStderr ("Invalid port" +:+ newline)] else [])
                  ++ out2) as (out2 & Hrest & ->).
  { apply (Hk (λ _, port_str ← sprintf_d 6 port; init_srv_listen port_str)).
    destruct ((port <? 1) || (port >? 65535)); exact Hrun. }
  clear Hrun Hk. rewrite bind_run in Hrest. unfold sprintf_d in Hrest.
  fold (fits_port_str port) in Hrest. case_bool_decide as Hfit.
  - left. split; [done|]. cbn in Hrest.
    destruct (init_srv_listen (decimal port) w) as [[r1 w1] o1] eqn:Hl.
    injection Hrest as <- <- <-. apply listen_cases in Hl. eauto.
  - right. injection Hrest as <- <- <-. by rewrite app_nil_r.
Qed.

Lemma candidates_run_startup (w' : W) res r out :
  candidates_run w' res r out → Forall (λ e, is_startup_event e = true) out.
Proof. induction 1; repeat constructor; auto. Qed.

Lemma listen_run_startup (w' : W) port_str res0 r out :
  listen_run w' port_str res0 r out →
  Forall (λ e, is_startup_event e = true) out.
Proof.
  destruct 1;
    repeat match goal with
    | Hc : candidates_run _ _ _ _ |- _ =>
        apply candidates_run_startup in Hc
    end;
    repeat first [ apply Forall_cons; split; [done|]
                 | apply Forall_app; split; [done|]
                 | apply Forall_nil_2 | done ].
Qed.

Lemma init_srv_startup port w r w' out :
  init_srv port w = (r, w', out) → Forall (λ e, is_startup_event e = true) out.
Proof.
  intros Hi. apply init_srv_cases in Hi as
    [(_ & out' & Hl & ->) | (_ & _ & _ & ->)].
  - apply Forall_app. split; [|by eapply listen_run_startup].
    unfold invalid_port_log. destruct (_ || _); by repeat constructor.
  - unfold invalid_port_log. destruct (_ || _); by repeat constructor.
Qed.

(* raw(): either start-up does not reach the loop, or the loop runs from the
   initial variables *)
Lemma raw_cases port buf0 n w r w' out :
  raw port buf0 n w = (r, w', out) →
  ∃ out1 out2,
    out = out1 ++ out2 ∧
    Forall (λ e, is_startup_event e = true) out1 ∧
    ((out2 = [] ∧ ∀ c, r ≠ Ok c) ∨
     ∃ srv w1, init_srv port w = (Ok srv, w1, out1) ∧
               0 ≤ srv < FD_SETSIZE ∧
               run (Waiting, initial_state srv buf0) r w' out2).
Proof.
  unfold raw, raw_init. rewrite !bind_run.
  destruct (init_srv port w) as [[r1 w1] out1] eqn:Hinit.
  pose proof (init_srv_startup _ _ _ _ _ Hinit) as Hstart.
  destruct r1 as [srv|st| |sig].
  2,3,4: intros [= <- <- <-]; exists out1, []; rewrite app_nil_r;
         split_and!; [done..|]; by left.
  unfold FD_SET. case_bool_decide as Hrange.
  - rewrite bind_run. unfold mret, M_ret, retM. cbn.
    destruct (steps n _ w1) as [[r2 w2] out2] eqn:Hsteps.
    rewrite app_nil_r.
    intros [= <- <- <-]. exists out1, out2. split_and!; [done..|].
    right. exists srv, w1. split; [done|]. split; [done|].
    apply steps_run in Hsteps.
    unfold initial_state. unfold FD_ZERO in Hsteps.
    by rewrite (right_id_L ∅ (∪)) in Hsteps.
  - cbn. intros [= <- <- <-]. exists out1, [].
    split_and!; [done..|]. by left.
Qed.

Lemma initial_state_inv srv buf0 :
  0 ≤ srv → loop_inv (initial_state srv buf0).
Proof.
  intros Hsrv. split; cbn.
  - set_solver.
  - intros x ->%elem_of_singleton. lia.
Qed.

Lemma step_run_inv c c' (w' : W) out :
  step_run c (Ok c') w' out → loop_inv c.2 →
  loop_inv c'.2 ∧ fdmax c.2 ≤ fdmax c'.2 ∧ srv_sockfd c'.2 = srv_sockfd c.2.
Proof.
  intros Hs [Hsrv Hb]. unfold loop_inv.
  inversion Hs; subst; cbn [fst snd srv_sockfd master fdmax] in *;
    (split_and!; [try done; try set_solver| |try lia|done]); try done.
  - intros x [->%elem_of_singleton|Hx]%elem_of_union.
    + destruct (Z.gtb_spec cli (fdmax s)); lia.
    + apply Hb in Hx. destruct (Z.gtb_spec cli (fdmax s)); lia.
  - destruct (Z.gtb_spec cli (fdmax s)); lia.
  - intros x Hx. apply Hb. set_solver.
Qed.

Lemma run_inv c c' (w' : W) out :
  run c (Ok c') w' out → loop_inv c.2 →
  loop_inv c'.2 ∧ fdmax c.2 ≤ fdmax c'.2 ∧ srv_sockfd c'.2 = srv_sockfd c.2.
Proof.
  intros Hrun. remember (Ok c') as r eqn:Hr. revert c' Hr.
  induction Hrun as [c w'|c c1 w1 out1 r w' out2 Hstep Hrun IH| | |];
    intros c' Hr Hinv; try discriminate.
  - injection Hr as ->. split_and!; [done|lia|done].
  - destruct (step_run_inv _ _ _ _ Hstep Hinv) as (Hinv1 & Hle1 & Hsrv1).
    destruct (IH _ Hr Hinv1) as (Hinv2 & Hle2 & Hsrv2).
    split_and!; [done|lia|congruence].
Qed.

Lemma fanout_run_no_select (w' : W) data js r out nfds rdset ret ready :
  fanout_run w' data js r out → EvSelect nfds rdset ret ready ∉ out.
Proof.
  induction 1; [set_solver|..].
  - intros [?|?]%elem_of_cons; [done|auto].
  - unfold diag. intros Hin. by elem_cases Hin.
  - intros Hin. by elem_cases Hin.
Qed.

Lemma step_run_select_bounded c r (w' : W) out :
  step_run c r w' out → loop_inv c.2 →
  ∀ nfds rdset ret ready, EvSelect nfds rdset ret ready ∈ out →
  ∀ x, x ∈ rdset → 0 ≤ x < nfds.
Proof.
  intros Hs [_ Hb] nfds rdset ret ready Hin x Hx.
  inversion Hs; subst; cbn [fst snd] in *; unfold diag in *;
    repeat match goal with
    | H : _ ∈ _ :: _ |- _ => apply elem_of_cons in H as [H|H]
    | H : _ ∈ [] |- _ => by apply elem_of_nil in H
    | H : EvSelect _ _ _ _ = EvSelect _ _ _ _ |- _ => injection H as -> -> -> ->
    | H : EvSelect _ _ _ _ ∈ ?o, Hf : fanout_run _ _ _ _ ?o |- _ =>
        by eapply fanout_run_no_select in H
    end; try discriminate; apply Hb in Hx; lia.
Qed.

Lemma run_select_bounded c r (w' : W) out :
  run c r w' out → loop_inv c.2 →
  ∀ nfds rdset ret ready, EvSelect nfds rdset ret ready ∈ out →
  ∀ x, x ∈ rdset → 0 ≤ x < nfds.
Proof.
  induction 1 as [c w'|c c1 w1 out1 r w' out2 Hstep Hrun IH|c st w' out Hstep
                 |c w' out Hstep|c sig w' out Hstep];
    intros Hinv nfds rdset ret ready Hin.
  - by apply elem_of_nil in Hin.
  - apply elem_of_app in Hin as [Hin|Hin].
    + by eapply step_run_select_bounded.
    + eapply IH; [|done]. by eapply step_run_inv.
  - by eapply step_run_select_bounded.
  - by eapply step_run_select_bounded.
  - by eapply step_run_select_bounded.
Qed.

Lemma startup_no_select out nfds rdset ret ready :
  Forall (λ e, is_startup_event e = true) out →
  EvSelect nfds rdset ret ready ∉ out.
Proof.
  intros Hall Hin. rewrite Forall_forall in Hall. by apply Hall in Hin.
Qed.

(* fdmax stays inside the bit array, so fdmax + 1 and i + 1 stay far from
   INT_MAX and the int arithmetic of the loop does not wrap *)
Lemma step_run_fdmax_bound c c' (w' : W) out :
  step_run c (Ok c') w' out →
  0 ≤ fdmax c.2 < FD_SETSIZE → 0 ≤ fdmax c'.2 < FD_SETSIZE.
Proof.
  intros Hs Hb. inversion Hs; subst; cbn [fst snd fdmax] in *; try done.
  destruct (Z.gtb_spec cli (fdmax s)); lia.
Qed.

Lemma run_fdmax_bound c c' (w' : W) out :
  run c (Ok c') w' out →
  0 ≤ fdmax c.2 < FD_SETSIZE → 0 ≤ fdmax c'.2 < FD_SETSIZE.
Proof.
  intros Hrun. remember (Ok c') as r eqn:Hr. revert c' Hr.
  induction Hrun as [c w'|c c1 w1 out1 r w' out2 Hstep Hrun IH| | |];
    intros c' Hr Hb; try discriminate.
  - by injection Hr as ->.
  - apply (IH _ Hr). by eapply step_run_fdmax_bound.
Qed.

(** C9.  At every point the loop reaches (so at the top of every iteration),
    the listening descriptor is in the master set and every descriptor of
    the master set lies between 0 and fdmax; fdmax never decreases, a step
    changes it only by accepting a descriptor above it; hence every select()
    call is made with a set below its nfds argument, and the scans over
    0..fdmax visit every registered descriptor. *)
Theorem C9_master_within_fdmax port buf0 n w r w' out :
  raw port buf0 n w = (r, w', out) →
  (∀ nfds readfds ret ready,
     EvSelect nfds readfds ret ready ∈ out →
     ∀ x, x ∈ readfds → 0 ≤ x < nfds) ∧
  ∀ c, r = Ok c →
    srv_sockfd c.2 ∈ master c.2 ∧
    (∀ x, x ∈ master c.2 → 0 ≤ x ≤ fdmax c.2) ∧
    (∀ x, x ∈ master c.2 → x ∈ seqZ 0 (fdmax c.2 + 1)) ∧
    (∀ m w1 c1 w2 out1,
       steps m c w1 = (Ok c1, w2, out1) → fdmax c.2 ≤ fdmax c1.2) ∧
    (∀ w1 c1 w2 out1,
       step c w1 = (Ok c1, w2, out1) →
       fdmax c1.2 = fdmax c.2 ∨
       ∃ cli, out1 = [EvAccept (srv_sockfd c.2) cli] ∧
              fdmax c.2 < cli ∧ fdmax c1.2 = cli).
Proof.
  intros Hraw.
  apply raw_cases in Hraw as (outs & outl & -> & Hstart & Hloop). split.
  - intros nfds readfds ret ready [Hin|Hin]%elem_of_app.
    { by eapply startup_no_select in Hin. }
    destruct Hloop as [[-> _]|(srv & w1 & _ & Hsrv & Hrun)].
    { by apply elem_of_nil in Hin. }
    eapply run_select_bounded; [done| |done].
    apply initial_state_inv. lia.
  - intros c ->. destruct Hloop as [[_ Hno]|(srv & w0 & _ & Hsrv & Hrun)].
    { by destruct (Hno c). }
    destruct (run_inv _ _ _ _ Hrun) as ([Hin Hb] & _ & _).
    { apply initial_state_inv. cbn. lia. }
    split_and!; [done|done| | |].
    + intros x Hx. apply Hb in Hx. apply elem_of_seqZ. lia.
    + intros m w1 c1 w2 out1 Hsteps. apply steps_run in Hsteps.
      by destruct (run_inv _ _ _ _ Hsteps) as (_ & ? & _).
    + intros w1 c1 w2 out1 Hstep. apply step_cases in Hstep.
      inversion Hstep; subst; cbn [fst snd fdmax srv_sockfd]; auto.
      destruct (Z.gtb_spec cli (fdmax s)); [right|by left].
      by exists cli.
Qed.

End Invariant.

(** ** One turn of the for loop on a client descriptor *)

Section Dispatch.
Context {W : Type} `{!Kernel W}.

(* the first event of a turn that reads *)
Lemma step_read_head rd i s w rr w1 r w' out :
  i ≤ fdmax s → FD_ISSET i rd = true → i ≠ srv_sockfd s →
  sys_read i MAX_BUF w = (rr, w1) →
  step (Dispatching rd i, s) w = (r, w', out) →
  ∃ tail, out = EvRead i MAX_BUF (read_reply MAX_BUF rr).1
                  (read_reply MAX_BUF rr).2 :: tail.
Proof.
  intros Hi Hrd Hsrv Hread. unfold step. cbn [fst snd].
  apply Z.leb_le in Hi. apply Z.eqb_neq in Hsrv. rewrite Hi, bind_run.
  unfold dispatch. rewrite Hrd, Hsrv, bind_run, read_run, Hread. cbn zeta.
  cbn [fst snd].
  match goal with
  | |- context [(if ?c then ?a else ?b) w1] =>
      destruct ((if c then a else b) w1) as [[r1 w2] out1]
  end.
  destruct r1; cbn; intros [= <- <- <-]; eauto.
Qed.

Lemma seqZ_sorted m n : StronglySorted Z.lt (seqZ m n).
Proof.
  remember (Z.to_nat n) as k eqn:Hk. revert m n Hk.
  induction k as [|k IH]; intros m n Hk.
  - rewrite seqZ_nil by lia. constructor.
  - rewrite seqZ_cons by lia. constructor; [apply IH; lia|].
    apply Forall_seqZ. lia.
Qed.

Lemma filter_sorted (P : Z → Prop) `{!∀ x, Decision (P x)} (l : list Z) :
  StronglySorted Z.lt l → StronglySorted Z.lt (filter P l).
Proof.
  induction 1 as [|x l Hl IH Hx]; [constructor|].
  rewrite filter_cons. case_decide; [|done]. constructor; [done|].
  rewrite Forall_forall in Hx. apply Forall_forall.
  intros y [_ Hy]%list_elem_of_filter. by apply Hx.
Qed.

Lemma dests_sorted s i : StronglySorted Z.lt (dests s i).
Proof. apply filter_sorted, seqZ_sorted. Qed.

Lemma elem_of_dests s i j :
  loop_inv s →
  (j ∈ dests s i ↔ j ∈ master s ∧ j ≠ srv_sockfd s ∧ j ≠ i).
Proof.
  intros [_ Hb]. unfold dests. rewrite list_elem_of_filter, elem_of_seqZ.
  unfold is_dest. split; [naive_solver|]. intros (Hm & ? & ?).
  apply Hb in Hm as ?. split; [done|lia].
Qed.

Lemma fanout_run_writes (w' : W) data js r out :
  fanout_run w' data js r out →
  writes_of out `prefix_of` ((λ j, (j, data)) <$> js) ∧
  (r = Ok tt → writes_of out = (λ j, (j, data)) <$> js).
Proof.
  induction 1 as [|j js r out ret Hret Hf [IHp IHe]|j js Hsig|j js Hsig].
  - split; [apply prefix_nil|done].
  - change (writes_of (EvWrite j data ret :: out))
      with ((j, data) :: writes_of out).
    rewrite fmap_cons. split; [by apply prefix_cons|].
    intros Hr. by rewrite IHe.
  - change (writes_of [EvWrite j data (-1); diag w' "write"])
      with [(j, data)].
    rewrite fmap_cons. split; [apply prefix_cons, prefix_nil|done].
  - change (writes_of [EvWrite j data (-1)]) with [(j, data)].
    rewrite fmap_cons. split; [apply prefix_cons, prefix_nil|done].
Qed.

Lemma fanout_run_no_failure (w' : W) data js r out :
  fanout_run w' data js r out →
  (∀ j d, EvWrite j d (-1) ∉ out) → r = Ok tt.
Proof.
  induction 1 as [|j js r out ret Hret Hf IH|j js Hsig|j js Hsig];
    intros Hno; [done| | |].
  - apply IH. intros j' d Hin. apply (Hno j' d). by right.
  - destruct (Hno j data). by left.
  - destruct (Hno j data). by left.
Qed.

(* a turn that reads a non-empty chunk: the read, then the fan-out *)
Lemma step_forward rd i s w data w1 r w' out :
  i ≤ fdmax s → FD_ISSET i rd = true → i ≠ srv_sockfd s →
  sys_read i MAX_BUF w = (Some data, w1) →
  take (Z.to_nat MAX_BUF) data ≠ [] →
  step (Dispatching rd i, s) w = (r, w', out) →
  let chunk := take (Z.to_nat MAX_BUF) data in
  ∃ r0 tail,
    out = EvRead i MAX_BUF (Z.of_nat (length chunk)) chunk :: tail ∧
    fanout_run w' chunk (dests s i) r0 tail ∧
    ((r0 = Ok tt ∧
      r = Ok (Dispatching rd (i + 1),
              {| srv_sockfd := srv_sockfd s; master := master s;
                 fdmax := fdmax s;
                 buf := chunk ++ drop (length chunk) (buf s) |})) ∨
     (r0 = Exit EXIT_FAILURE ∧ r = Exit EXIT_FAILURE) ∨
     (r0 = Killed SIGPIPE ∧ r = Killed SIGPIPE)).
Proof.
  intros Hi Hrd Hsrv Hread Hne Hstep chunk.
  destruct (step_read_head _ _ _ _ _ _ _ _ _ Hi Hrd Hsrv Hread Hstep)
    as [tail ->].
  cbn [read_reply fst snd] in Hstep |- *. fold chunk in Hstep |- *.
  apply step_cases in Hstep.
  inversion Hstep; subst;
    try match goal with H : FD_ISSET _ _ = true |- _ =>
      apply bool_decide_eq_true in H end; try done.
  - eexists _, _. split_and!; [done..|]. by left.
  - eexists _, _. split_and!; [done..|]. right. by left.
  - eexists _, _. split_and!; [done..|]. right. by right.
Qed.

(** C1.  When the read from a ready client descriptor i returns n > 0
    bytes, the loop writes exactly those n bytes to every descriptor of the
    master set other than the listening descriptor and i itself, in
    ascending descriptor order: the writes of the turn are a prefix of that
    list of (destination, bytes) pairs, the whole list when the turn
    completes, and the turn completes when no write fails.  The sender is
    never a destination, and when the master set holds only the listening
    descriptor and i, nothing is written and the turn completes. *)
Theorem C1_broadcast_to_others rd i s w data w1 r w' out :
  loop_inv s →
  i ≤ fdmax s → FD_ISSET i rd = true → i ≠ srv_sockfd s →
  sys_read i MAX_BUF w = (Some data, w1) →
  take (Z.to_nat MAX_BUF) data ≠ [] →
  step (Dispatching rd i, s) w = (r, w', out) →
  let chunk := take (Z.to_nat MAX_BUF) data in
  let n := Z.of_nat (length chunk) in
  ∃ recipients tail,
    StronglySorted Z.lt recipients ∧
    (∀ j, j ∈ recipients ↔ j ∈ master s ∧ j ≠ srv_sockfd s ∧ j ≠ i) ∧
    0 < n ∧
    out = EvRead i MAX_BUF n chunk :: tail ∧
    writes_of tail `prefix_of` ((λ j, (j, chunk)) <$> recipients) ∧
    (∀ c, r = Ok c → writes_of tail = (λ j, (j, chunk)) <$> recipients) ∧
    ((∀ j d, EvWrite j d (-1) ∉ tail) → ∃ c, r = Ok c) ∧
    (master s = {[srv_sockfd s; i]} →
     recipients = [] ∧ tail = [] ∧ ∃ c, r = Ok c).
Proof.
  intros Hinv Hi Hrd Hsrv Hread Hne Hstep chunk n.
  destruct (step_forward _ _ _ _ _ _ _ _ _ Hi Hrd Hsrv Hread Hne Hstep)
    as (r0 & tail & -> & Hfan & Hr).
  fold chunk in Hfan, Hr |- *.
  destruct (fanout_run_writes _ _ _ _ _ Hfan) as [Hpre Heq].
  exists (dests s i), tail. split_and!.
  - apply dests_sorted.
  - intros j. by apply elem_of_dests.
  - subst n chunk. destruct (take _ data); [done|]. cbn [length]. lia.
  - done.
  - done.
  - intros c ->. apply Heq.
    destruct Hr as [[Hr0 _]|[[_ Hr1]|[_ Hr1]]]; [done|discriminate..].
  - intros Hno. apply (fanout_run_no_failure _ _ _ _ _ Hfan) in Hno.
    destruct Hr as [[_ ->]|[[Hr0 _]|[Hr0 _]]]; [eauto|congruence..].
  - intros Hm. assert (dests s i = []) as Hd.
    { apply elem_of_nil_inv. intros j Hj.
      apply (elem_of_dests _ _ _ Hinv) in Hj as (Hj & ? & ?).
      rewrite Hm in Hj. set_solver. }
    rewrite Hd in Hfan |- *. inversion Hfan; subst.
    split_and!; [done..|].
    destruct Hr as [[_ ->]|[[Hr0 _]|[Hr0 _]]]; [eauto|discriminate..].
Qed.

End Dispatch.

(** ** Registration: who is written to *)

Section Registration.
Context {W : Type} `{!Kernel W}.

Lemma live_app m o1 o2 : live m (o1 ++ o2) = live (live m o1) o2.
Proof.
  revert m. induction o1 as [|e o1 IH]; intros m; [done|].
  destruct e; cbn; try apply IH. by destruct (_ =? _).
Qed.

Lemma writes_registered_app m o1 o2 :
  writes_registered m (o1 ++ o2) ↔
  writes_registered m o1 ∧ writes_registered (live m o1) o2.
Proof.
  revert m. induction o1 as [|e o1 IH]; intros m; [cbn; tauto|].
  destruct e; cbn; try apply IH.
  - by destruct (_ =? _).
  - rewrite IH. tauto.
Qed.

(* a descriptor registered after a log was registered before it or has been
   accepted in it *)
Lemma elem_of_live j m tr :
  j ∈ live m tr → j ∈ m ∨ ∃ sv, EvAccept sv j ∈ tr.
Proof.
  revert m. induction tr as [|e tr IH]; intros m; [by left|].
  assert (∀ m', (j ∈ live m' tr → j ∈ m' → j ∈ m) →
     j ∈ live m' tr → j ∈ m ∨ ∃ sv, EvAccept sv j ∈ e :: tr) as Hsame.
  { intros m' Hm' Hin. destruct (IH _ Hin) as [?|[sv ?]]; [left; auto|].
    right. exists sv. by right. }
  destruct e; cbn; try (apply Hsame; auto).
  - destruct (_ =? _); [apply Hsame; auto|]. intros Hin.
    destruct (IH _ Hin) as [[->%elem_of_singleton|?]%elem_of_union|[sv ?]].
    + right. eexists. by left.
    + by left.
    + right. exists sv. by right.
  - intros _. set_solver.
Qed.

Lemma write_registered m o1 j d ret o2 :
  writes_registered m (o1 ++ EvWrite j d ret :: o2) → j ∈ live m o1.
Proof. rewrite writes_registered_app. cbn. tauto. Qed.

Lemma fanout_run_registered (w' : W) data js r out m :
  fanout_run w' data js r out → Forall (λ j, j ∈ m) js →
  writes_registered m out ∧ live m out = m.
Proof.
  induction 1 as [|j js r out ret Hret Hf IH|j js Hsig|j js Hsig]; intros Hall.
  - done.
  - apply Forall_cons in Hall as [Hj Hall]. cbn. split_and!; [done|..];
      by apply IH.
  - apply Forall_cons in Hall as [Hj Hall]. by cbn.
  - apply Forall_cons in Hall as [Hj Hall]. by cbn.
Qed.

Lemma dests_registered s i : Forall (λ j, j ∈ master s) (dests s i).
Proof.
  apply Forall_forall. intros j [(? & _) _]%list_elem_of_filter. done.
Qed.

Lemma step_run_registered c r (w' : W) out :
  step_run c r w' out →
  writes_registered (master c.2) out ∧
  ∀ c', r = Ok c' → master c'.2 = live (master c.2) out.
Proof.
  intros Hs. inversion Hs; subst; cbn [fst snd master];
    try match goal with
    | Hf : fanout_run _ _ (dests ?s ?i) _ _ |- _ =>
        destruct (fanout_run_registered _ _ _ _ _ (master s) Hf
                    (dests_registered s i)) as [Hw Hl]
    end;
    (split; [|intros c' Hc'; try discriminate; injection Hc' as <-]);
    cbn [fst snd master writes_registered live];
    repeat match goal with
    | H : ?x ≠ -1 |- context [?x =? -1] =>
        rewrite (proj2 (Z.eqb_neq x (-1)) H)
    end; try done.
Qed.

Lemma startup_registered out :
  Forall (λ e, is_startup_event e = true) out →
  ∀ m, writes_registered m out ∧ live m out = m.
Proof.
  induction 1 as [|e out He Hall IH]; intros m; [done|].
  destruct e; try discriminate; cbn; apply IH.
Qed.

Lemma run_registered c r (w' : W) out :
  run c r w' out →
  writes_registered (master c.2) out ∧
  ∀ c', r = Ok c' → master c'.2 = live (master c.2) out.
Proof.
  induction 1 as [c w'|c c1 w1 out1 r w' out2 Hstep Hrun [IHw IHl]
                 |c st w' out Hstep|c w' out Hstep|c sig w' out Hstep].
  - split; [done|]. by intros c' [= <-].
  - destruct (step_run_registered _ _ _ _ Hstep) as [Hw Hl].
    specialize (Hl _ eq_refl). rewrite Hl in IHw, IHl.
    split; [by apply writes_registered_app|].
    intros c' Hc'. rewrite live_app. by apply IHl.
  - split; [by apply (step_run_registered _ _ _ _ Hstep)|done].
  - split; [by apply (step_run_registered _ _ _ _ Hstep)|done].
  - split; [by apply (step_run_registered _ _ _ _ Hstep)|done].
Qed.

(* after a descriptor has left the master set, a write to it comes after an
   accept that returned it *)
Lemma run_write_after_accept c r (w' : W) out j o1 d ret o2 :
  run c r w' out → j ∉ master c.2 →
  out = o1 ++ EvWrite j d ret :: o2 → ∃ sv, EvAccept sv j ∈ o1.
Proof.
  intros [Hw _]%run_registered Hj ->.
  apply write_registered, elem_of_live in Hw as [?|?]; done.
Qed.

Lemma fanout_run_no_close (w' : W) data js r out fd ret :
  fanout_run w' data js r out → EvClose fd ret ∉ out.
Proof.
  induction 1; [set_solver|..].
  - intros [?|?]%elem_of_cons; [done|auto].
  - unfold diag. intros Hin. by elem_cases Hin.
  - intros Hin. by elem_cases Hin.
Qed.

(* the loop closes only client descriptors *)
Lemma step_closes_client c r (w' : W) out fd ret :
  step_run c r w' out → EvClose fd ret ∈ out → fd ≠ srv_sockfd c.2.
Proof.
  intros Hs Hin. inversion Hs; subst; cbn [fst snd] in *; unfold diag in *;
    repeat match goal with
    | H : _ ∈ _ :: _ |- _ => apply elem_of_cons in H as [H|H]
    | H : _ ∈ [] |- _ => by apply elem_of_nil in H
    | H : EvClose _ _ = EvClose _ _ |- _ => injection H as -> ->
    | H : EvClose _ _ ∈ ?o, Hf : fanout_run _ _ _ _ ?o |- _ =>
        by eapply fanout_run_no_close in H
    end; try discriminate; done.
Qed.

Lemma run_closes_clients c r (w' : W) out fd ret :
  run c r w' out → loop_inv c.2 → EvClose fd ret ∈ out → fd ≠ srv_sockfd c.2.
Proof.
  induction 1 as [c w'|c c1 w1 out1 r w' out2 Hstep Hrun IH|c st w' out Hstep
                 |c w' out Hstep|c sig w' out Hstep]; intros Hinv Hin.
  - by apply elem_of_nil in Hin.
  - apply elem_of_app in Hin as [Hin|Hin].
    + by eapply step_closes_client.
    + destruct (step_run_inv _ _ _ _ Hstep Hinv) as (Hinv1 & _ & <-). auto.
  - by eapply step_closes_client.
  - by eapply step_closes_client.
  - by eapply step_closes_client.
Qed.

(* the turn of a zero-length read *)
Lemma step_close rd i s w w1 cret w2 :
  i ≤ fdmax s → FD_ISSET i rd = true → i ≠ srv_sockfd s →
  sys_read i MAX_BUF w = (Some [], w1) →
  sys_close i w1 = (cret, w2) →
  step (Dispatching rd i, s) w =
    (Ok (Dispatching rd (i + 1),
         {| srv_sockfd := srv_sockfd s; master := master s ∖ {[i]};
            fdmax := fdmax s; buf := buf s |}),
     w2, [EvRead i MAX_BUF 0 []; EvClose i cret]).
Proof.
  intros Hi Hrd Hsrv Hread Hclose. unfold step. cbn [fst snd].
  apply Z.leb_le in Hi. apply Z.eqb_neq in Hsrv. rewrite Hi, bind_run.
  unfold dispatch. rewrite Hrd, Hsrv, bind_run, read_run, Hread.
  cbn zeta. unfold read_reply. rewrite take_nil.
  cbn [fst snd length app drop].
  change (Z.of_nat 0) with 0. change (0 =? -1) with false.
  change (0 =? 0) with true. cbn iota.
  rewrite bind_run. unfold close, syscall. rewrite Hclose. reflexivity.
Qed.

(** C2.  A zero-length read from a client descriptor i is not an error: the
    turn closes i, removes i from the master set and nothing else, and the
    loop goes on to the next descriptor; every other descriptor stays
    registered as it was.  From then on, whatever the loop does, a write to
    i happens only after an accept() has returned i again. *)
Theorem C2_orderly_close rd i s w w1 cret w2 :
  i ≤ fdmax s → FD_ISSET i rd = true → i ≠ srv_sockfd s →
  sys_read i MAX_BUF w = (Some [], w1) →
  sys_close i w1 = (cret, w2) →
  let s' := {| srv_sockfd := srv_sockfd s; master := master s ∖ {[i]};
               fdmax := fdmax s; buf := buf s |} in
  step (Dispatching rd i, s) w =
    (Ok (Dispatching rd (i + 1), s'), w2,
     [EvRead i MAX_BUF 0 []; EvClose i cret]) ∧
  (i ∉ master s') ∧
  (∀ j, j ≠ i → (j ∈ master s' ↔ j ∈ master s)) ∧
  ∀ n ph w3 r w4 out,
    steps n (ph, s') w3 = (r, w4, out) →
    ∀ o1 d ret o2, out = o1 ++ EvWrite i d ret :: o2 →
    ∃ sv, EvAccept sv i ∈ o1.
Proof.
  intros Hi Hrd Hsrv Hread Hclose s'. split_and!.
  - by eapply step_close.
  - cbn. set_solver.
  - intros j Hj. cbn. set_solver.
  - intros n ph w3 r w4 out Hsteps o1 d ret o2 Hout.
    apply steps_run in Hsteps.
    eapply run_write_after_accept; [done| |done]. cbn. set_solver.
Qed.

(** C5.  In every run of raw(): the loop never closes the listening
    descriptor, and at every point reached the listening descriptor is in
    the master set; a descriptor that has been closed and not returned by
    accept() since is not in the master set at any point reached after the
    close, and a write to a closed descriptor happens only after an accept()
    has returned it again. *)
Theorem C5_listener_stays_clients_leave port buf0 n w r w' out :
  raw port buf0 n w = (r, w', out) →
  (∀ srv w1 o1 ret,
     init_srv port w = (Ok srv, w1, o1) → EvClose srv ret ∉ out) ∧
  (∀ c, r = Ok c → srv_sockfd c.2 ∈ master c.2) ∧
  (∀ c o1 j ret o2,
     r = Ok c → out = o1 ++ EvClose j ret :: o2 →
     (∀ sv, EvAccept sv j ∉ o2) → j ∉ master c.2) ∧
  (∀ o1 j ret o2 d ret' o3,
     out = o1 ++ EvClose j ret :: o2 ++ EvWrite j d ret' :: o3 →
     ∃ sv, EvAccept sv j ∈ o2).
Proof.
  intros Hraw.
  apply raw_cases in Hraw as (outs & outl & -> & Hstart & Hloop).
  pose proof (startup_registered outs Hstart) as Hs.
  assert (∃ m, writes_registered m (outs ++ outl) ∧
               ∀ c, r = Ok c →
                    master c.2 = live m (outs ++ outl) ∧
                    srv_sockfd c.2 ∈ master c.2)
    as (m & Hw & Hok).
  { destruct Hloop as [[-> Hno]|(srv & w1 & _ & Hsrv & Hrun)].
    - exists ∅. rewrite app_nil_r. split; [apply Hs|].
      intros c ->. by destruct (Hno c).
    - exists {[srv]}. destruct (run_registered _ _ _ _ Hrun) as [Hw Hl].
      split.
      + apply writes_registered_app. split; [apply Hs|].
        by rewrite (proj2 (Hs _)).
      + intros c ->. rewrite live_app, (proj2 (Hs _)).
        assert (loop_inv (initial_state srv buf0)) as Hinv
          by (apply initial_state_inv; lia).
        destruct (run_inv _ _ _ _ Hrun Hinv) as ([Hin _] & _ & Hsame).
        split; [by apply Hl|done]. }
  split_and!.
  - intros srv w1 o1 ret Hinit [Hin|Hin]%elem_of_app.
    + rewrite Forall_forall in Hstart. by apply Hstart in Hin.
    + destruct Hloop as [[-> Hno]|(srv' & w1' & Hinit' & Hsrv & Hrun)].
      { by apply elem_of_nil in Hin. }
      rewrite Hinit in Hinit'. injection Hinit' as <- <- <-.
      eapply run_closes_clients in Hin; [|done|apply initial_state_inv; lia].
      by apply Hin.
  - intros c Hr. by destruct (Hok c Hr) as (_ & ?).
  - intros c o1 j ret o2 Hr Hout Hno Hin.
    destruct (Hok c Hr) as (Hm & _).
    rewrite Hm, Hout, live_app in Hin. cbn [live] in Hin.
    apply elem_of_live in Hin as [Hin|[sv Hin]]; [set_solver|].
    by apply Hno in Hin.
  - intros o1 j ret o2 d ret' o3 Hout.
    rewrite Hout in Hw.
    replace (o1 ++ EvClose j ret :: o2 ++ EvWrite j d ret' :: o3)
      with ((o1 ++ EvClose j ret :: o2) ++ EvWrite j d ret' :: o3) in Hw
      by (by rewrite <- app_assoc).
    apply write_registered in Hw. rewrite live_app in Hw. cbn [live] in Hw.
    apply elem_of_live in Hw as [Hin|?]; [set_solver|done].
Qed.

End Registration.

(** ** Fatal errors *)

Section Fatal.
Context {W : Type} `{!Kernel W}.

Lemma quiet_ok_write j d ret : ret ≠ -1 → quiet (EvWrite j d ret).
Proof. intros Hx. split; [done|]. cbn. by apply Z.eqb_neq in Hx as ->. Qed.

Lemma fanout_run_fatal (w' : W) data js r out :
  fanout_run w' data js r out →
  match r with
  | Exit _ => ∃ o1 j, out = o1 ++ [EvWrite j data (-1); diag w' "write"] ∧
                      Forall quiet o1 ∧ raises_sigpipe (-1) w' = false
  | Killed sig => sig = SIGPIPE ∧
      ∃ o1 j, out = o1 ++ [EvWrite j data (-1)] ∧
              Forall quiet o1 ∧ raises_sigpipe (-1) w' = true
  | _ => Forall quiet out
  end.
Proof.
  induction 1 as [|j js r out ret Hret Hf IH|j js Hsig|j js Hsig].
  - constructor.
  - destruct r as [[]|st| |sig].
    + constructor; [by apply quiet_ok_write|done].
    + destruct IH as (o1 & j' & -> & Hq & Hsig).
      exists (EvWrite j data ret :: o1), j'.
      split_and!; [done| |done]. constructor; [by apply quiet_ok_write|done].
    + constructor; [by apply quiet_ok_write|done].
    + destruct IH as (-> & o1 & j' & -> & Hq & Hsig). split; [done|].
      exists (EvWrite j data ret :: o1), j'.
      split_and!; [done| |done]. constructor; [by apply quiet_ok_write|done].
  - by exists [], j.
  - split; [done|]. by exists [], j.
Qed.

(* the log of a step: quiet when the step returns; otherwise quiet up to the
   failed call, which is followed by its diagnostic when the process exits
   and by nothing when the process is terminated by SIGPIPE *)
Lemma step_run_fatal c r (w' : W) out :
  step_run c r w' out →
  match r with
  | Exit st => st = EXIT_FAILURE ∧
      ∃ o1 e call, out = o1 ++ [e; diag w' call] ∧
                   failed_call e = Some call ∧ Forall quiet o1 ∧
                   (call = "write" → raises_sigpipe (-1) w' = false)
  | Killed sig => sig = SIGPIPE ∧
      ∃ o1 j d, out = o1 ++ [EvWrite j d (-1)] ∧
                Forall quiet o1 ∧ raises_sigpipe (-1) w' = true
  | _ => Forall quiet out
  end.
Proof.
  assert (∀ x, x ≠ -1 → (x =? -1) = false) as Hneq
    by (intros x Hx; by apply Z.eqb_neq).
  intros Hs. inversion Hs; subst;
    try match goal with Hf : fanout_run _ _ _ _ _ |- _ =>
      apply fanout_run_fatal in Hf; rename Hf into Hfan end.
  - repeat constructor. cbn. by rewrite Hneq.
  - split; [done|]. by eexists [], _, _.
  - constructor.
  - constructor.
  - repeat constructor. cbn. by rewrite Hneq.
  - split; [done|]. by eexists [], _, _.
  - repeat constructor. cbn. by rewrite Hneq.
  - split; [done|]. by eexists [], _, _.
  - by repeat constructor.
  - constructor; [|done]. split; [done|]. cbn. rewrite Hneq; [done|lia].
  - split; [done|]. destruct Hfan as (o1 & j & -> & Hq & Hsig).
    eexists (_ :: o1), _, _. split_and!; [done|done| |done].
    constructor; [|done]. split; [done|]. cbn. rewrite Hneq; [done|lia].
  - destruct Hfan as (_ & o1 & j & -> & Hq & Hsig). split; [done|].
    eexists (_ :: o1), _, _. split_and!; [done| |done].
    constructor; [|done]. split; [done|]. cbn. rewrite Hneq; [done|lia].
Qed.

Lemma run_fatal c r (w' : W) out :
  run c r w' out →
  match r with
  | Exit st => st = EXIT_FAILURE ∧
      ∃ o1 e call, out = o1 ++ [e; diag w' call] ∧
                   failed_call e = Some call ∧ Forall quiet o1 ∧
                   (call = "write" → raises_sigpipe (-1) w' = false)
  | Killed sig => sig = SIGPIPE ∧
      ∃ o1 j d, out = o1 ++ [EvWrite j d (-1)] ∧
                Forall quiet o1 ∧ raises_sigpipe (-1) w' = true
  | _ => Forall quiet out
  end.
Proof.
  induction 1 as [c w'|c c1 w1 out1 r w' out2 Hstep Hrun IH|c st w' out Hstep
                 |c w' out Hstep|c sig w' out Hstep].
  - constructor.
  - apply step_run_fatal in Hstep. destruct r as [c2|st| |sig].
    + by apply Forall_app.
    + destruct IH as (-> & o1 & e & call & -> & Hf & Hq & Hsig).
      split; [done|].
      exists (out1 ++ o1), e, call. rewrite app_assoc.
      split_and!; [done..| |done]. by apply Forall_app.
    + by apply Forall_app.
    + destruct IH as (-> & o1 & j & d & -> & Hq & Hsig). split; [done|].
      exists (out1 ++ o1), j, d. rewrite app_assoc.
      split_and!; [done| |done]. by apply Forall_app.
  - by apply step_run_fatal in Hstep.
  - by apply step_run_fatal in Hstep.
  - by apply step_run_fatal in Hstep.
Qed.

(* where a failed call can sit in a log that is quiet up to its last two
   events, or up to its last event *)
Lemma failed_call_position (o1 o2 p : list event) e e0 d call :
  p ++ [e0; d] = o1 ++ e :: o2 →
  Forall quiet p → failed_call e = Some call → failed_call d = None →
  o1 = p ∧ e = e0 ∧ o2 = [d].
Proof.
  revert o1. induction p as [|x p IH]; intros o1 Heq Hq He Hd.
  - destruct o1 as [|y o1]; cbn in Heq.
    + by injection Heq as <- <-.
    + injection Heq as <- Heq. destruct o1 as [|z o1]; cbn in Heq.
      * injection Heq as <- <-. congruence.
      * injection Heq as _ Heq. by destruct o1.
  - apply Forall_cons in Hq as [[_ Hx] Hq]. destruct o1 as [|y o1].
    + injection Heq as <- _. congruence.
    + injection Heq as <- Heq.
      destruct (IH _ Heq Hq He Hd) as (-> & -> & ->). done.
Qed.

Lemma failed_call_last (o1 o2 p : list event) e e0 call :
  p ++ [e0] = o1 ++ e :: o2 →
  Forall quiet p → failed_call e = Some call →
  o1 = p ∧ e = e0 ∧ o2 = [].
Proof.
  revert o1. induction p as [|x p IH]; intros o1 Heq Hq He.
  - destruct o1 as [|y o1]; cbn in Heq.
    + by injection Heq as <- <-.
    + injection Heq as _ Heq. by destruct o1.
  - apply Forall_cons in Hq as [[_ Hx] Hq]. destruct o1 as [|y o1].
    + injection Heq as <- _. congruence.
    + injection Heq as <- Heq.
      destruct (IH _ Heq Hq He) as (-> & -> & ->). done.
Qed.

(* What a failed call does to the process, in every run of the loop.  A
   select(), accept(), read() or write() that returns -1 is the last call of
   the run and nothing before it is a diagnostic or a failed call.  Either
   the program sees the -1, prints the one diagnostic that names the call and
   exits with EXIT_FAILURE; or the call is a write() that raised SIGPIPE (it
   failed with EPIPE, and SIGPIPE is not ignored), and the process is
   terminated by the signal inside the call: nothing is printed and there is
   no exit status. *)
Lemma failed_call_ends_process n c w r w' out :
  steps n c w = (r, w', out) →
  EXIT_FAILURE ≠ 0 ∧
  ∀ o1 e o2 call,
    out = o1 ++ e :: o2 → failed_call e = Some call →
    Forall (λ e', is_stderr e' = false ∧ failed_call e' = None) o1 ∧
    is_stderr e = false ∧
    ((r = Exit EXIT_FAILURE ∧
      o2 = [EvStderr ("ERROR on " +:+ call +:+ ": " +:+
                      strerror (errno w') +:+ newline)] ∧
      (call = "write" → raises_sigpipe (-1) w' = false)) ∨
     (r = Killed SIGPIPE ∧ o2 = [] ∧ call = "write" ∧
      raises_sigpipe (-1) w' = true)).
Proof.
  intros Hsteps. split; [done|]. intros o1 e o2 call Hout He.
  apply steps_run, run_fatal in Hsteps.
  assert (¬ Forall quiet out) as Hnq.
  { rewrite Hout, Forall_app, Forall_cons. intros (_ & [_ Hq] & _).
    congruence. }
  destruct r as [c'|st| |sig]; [done| |done|].
  - destruct Hsteps as (-> & p & e0 & call0 & Hp & Hf & Hq & Hsig).
    rewrite Hp in Hout.
    destruct (failed_call_position _ _ _ _ _ _ _ Hout Hq He eq_refl)
      as (-> & -> & ->).
    assert (call0 = call) as -> by congruence.
    split_and!; [done|by destruct e0|]. by left.
  - destruct Hsteps as (-> & p & j & d & Hp & Hq & Hsig).
    rewrite Hp in Hout.
    destruct (failed_call_last _ _ _ _ _ _ Hout Hq He) as (-> & -> & ->).
    split_and!; [done..|]. right. split_and!; [done..| |done].
    cbn in He. congruence.
Qed.

End Fatal.

(** ** Fragments: what a receiver gets from a sender *)

Section Fragments.
Context {W : Type} `{!Kernel W}.

Lemma forwarded_from_app cur s r o1 o2 :
  forwarded_from cur s r (o1 ++ o2) =
  forwarded_from cur s r o1 ++ forwarded_from (last_read cur o1) s r o2.
Proof.
  revert cur. induction o1 as [|e o1 IH]; intros cur; [done|].
  destruct e; cbn; try apply IH. case_decide; [|apply IH].
  by rewrite IH.
Qed.

Lemma chunks_read_app s o1 o2 :
  chunks_read s (o1 ++ o2) = chunks_read s o1 ++ chunks_read s o2.
Proof.
  induction o1 as [|e o1 IH]; [done|].
  destruct e; cbn; try apply IH. case_decide; [|apply IH]. by rewrite IH.
Qed.

Lemma live_keeps r m tr :
  r ∈ m → (∀ ret, EvClose r ret ∉ tr) → r ∈ live m tr.
Proof.
  revert m. induction tr as [|e tr IH]; intros m Hr Hno; [done|].
  assert (∀ ret, EvClose r ret ∉ tr) as Hno'.
  { intros ret Hin. apply (Hno ret). by right. }
  destruct e; cbn; try (by apply IH).
  - destruct (_ =? _); apply IH; [done..|set_solver|done].
  - apply IH; [|done]. apply elem_of_difference. split; [done|].
    intros Heq%elem_of_singleton. subst. eapply Hno. by left.
Qed.

(* the fragments of a completed fan-out of the chunk read from i *)
Lemma fanout_run_forwarded (w' : W) data js out i s r :
  fanout_run w' data js (Ok tt) out → NoDup js →
  forwarded_from (Some i) s r out =
    (if decide (i = s ∧ r ∈ js) then [data] else []) ∧
  chunks_read s out = [].
Proof.
  intros Hf. remember (Ok tt) as res eqn:Hres.
  induction Hf as [|j js res out ret Hret Hf IH|j js Hsig|j js Hsig]; intros Hnd.
  - split; [|done]. cbn. case_decide as Hd; [|done].
    destruct Hd as [_ Hd]. by apply elem_of_nil in Hd.
  - apply NoDup_cons in Hnd as [Hj Hnd].
    destruct (IH Hres Hnd) as [IHf IHc]. split; [|done].
    cbn [forwarded_from]. rewrite IHf.
    destruct (decide (j = r ∧ Some i = Some s)) as [[-> [= ->]]|Hn].
    + rewrite decide_False by tauto. rewrite decide_True; [done|].
      split; [done|]. by left.
    + destruct (decide (i = s ∧ r ∈ js)) as [[-> Hin]|Hn'].
      * rewrite decide_True; [done|]. split; [done|]. by right.
      * rewrite decide_False; [done|].
        intros [-> [->|Hin]%elem_of_cons]; tauto.
  - discriminate.
  - discriminate.
Qed.

Lemma fanout_run_reads (w' : W) data js res out fd count ret d :
  fanout_run w' data js res out → EvRead fd count ret d ∉ out.
Proof.
  induction 1; [set_solver|..].
  - intros [?|?]%elem_of_cons; [done|auto].
  - unfold diag. intros Hin. by elem_cases Hin.
  - intros Hin. by elem_cases Hin.
Qed.

(* every read asks for MAX_BUF bytes and stores at most that many *)
Lemma step_run_reads c res (w' : W) out fd count ret d :
  step_run c res w' out → EvRead fd count ret d ∈ out →
  count = MAX_BUF ∧ Z.of_nat (length d) ≤ MAX_BUF ∧
  (ret = -1 ∨ ret = Z.of_nat (length d)).
Proof.
  intros Hs Hin. inversion Hs; subst; unfold diag in *;
    repeat match goal with
    | H : _ ∈ _ :: _ |- _ => apply elem_of_cons in H as [H|H]
    | H : _ ∈ [] |- _ => by apply elem_of_nil in H
    | H : EvRead _ _ _ _ = EvRead _ _ _ _ |- _ => injection H as -> -> -> ->
    | H : EvRead _ _ _ _ ∈ ?o, Hf : fanout_run _ _ _ _ ?o |- _ =>
        by eapply fanout_run_reads in H
    end; try discriminate; cbn [length]; unfold MAX_BUF in *;
    split_and!; auto; lia.
Qed.

Lemma run_reads c res (w' : W) out fd count ret d :
  run c res w' out → EvRead fd count ret d ∈ out →
  count = MAX_BUF ∧ Z.of_nat (length d) ≤ MAX_BUF ∧
  (ret = -1 ∨ ret = Z.of_nat (length d)).
Proof.
  induction 1 as [c w'|c c1 w1 out1 r w' out2 Hstep Hrun IH|c st w' out Hstep
                 |c w' out Hstep|c sig w' out Hstep]; intros Hin.
  - by apply elem_of_nil in Hin.
  - apply elem_of_app in Hin as [Hin|Hin]; [|auto].
    by eapply step_run_reads.
  - by eapply step_run_reads.
  - by eapply step_run_reads.
  - by eapply step_run_reads.
Qed.

Lemma chunks_read_bound s out :
  (∀ fd count ret d, EvRead fd count ret d ∈ out →
     count = MAX_BUF ∧ Z.of_nat (length d) ≤ MAX_BUF ∧
     (ret = -1 ∨ ret = Z.of_nat (length d))) →
  Forall (λ d, (0 < length d ≤ 255)%nat) (chunks_read s out).
Proof.
  induction out as [|e out IH]; intros Hall; [constructor|].
  assert (Forall (λ d, (0 < length d ≤ 255)%nat) (chunks_read s out)) as IH'.
  { apply IH. intros fd count ret d Hin. apply (Hall fd count ret d).
    by right. }
  destruct e as [| | | | | | | | | |fd count n data| |]; cbn; try done.
  case_decide as Hd; [|done].
  constructor; [|done]. destruct Hd as [-> Hpos].
  destruct (Hall s count n data) as (_ & Hlen & Hret); [by left|].
  unfold MAX_BUF in Hlen. lia.
Qed.

Lemma concat_length_bound (l : list (list byte)) :
  Forall (λ d, (0 < length d ≤ 255)%nat) l →
  (length (concat l) ≤ 255 * length l)%nat.
Proof.
  induction 1 as [|d l Hd Hl IH]; [done|].
  cbn [concat]. rewrite length_app. cbn [length]. lia.
Qed.

Lemma step_run_forwarded c c' (w' : W) out cur s r :
  step_run c (Ok c') w' out → loop_inv c.2 →
  r ∈ master c.2 → r ≠ srv_sockfd c.2 → r ≠ s →
  forwarded_from cur s r out = chunks_read s out.
Proof.
  intros Hs Hinv Hr Hsrv Hrs. inversion Hs; subst; cbn [fst snd] in *;
    try done.
  - cbn. by rewrite decide_False by lia.
  - match goal with Hf : fanout_run _ _ _ _ _ |- _ =>
      eapply (fanout_run_forwarded _ _ _ _ i s r) in Hf as [Hfw Hch];
        [|apply NoDup_filter, NoDup_seqZ]
    end.
    cbn [forwarded_from chunks_read]. rewrite Hfw, Hch.
    destruct (decide (i = s)) as [->|Hne].
    + rewrite !decide_True; [done| |].
      * split; [done|]. destruct data; [done|]. cbn [length]. lia.
      * split; [done|]. by apply elem_of_dests.
    + rewrite !decide_False; [done|tauto..].
Qed.

Lemma step_run_keeps c c' (w' : W) out r :
  step_run c (Ok c') w' out →
  r ∈ master c.2 → (∀ ret, EvClose r ret ∉ out) → r ∈ master c'.2.
Proof.
  intros Hs Hr Hno.
  destruct (step_run_registered _ _ _ _ Hs) as [_ Hl].
  rewrite (Hl _ eq_refl). by apply live_keeps.
Qed.

Lemma run_forwarded c c' (w' : W) out cur s r :
  run c (Ok c') w' out → loop_inv c.2 →
  r ∈ master c.2 → r ≠ srv_sockfd c.2 → r ≠ s →
  (∀ ret, EvClose r ret ∉ out) →
  forwarded_from cur s r out = chunks_read s out.
Proof.
  intros Hrun. remember (Ok c') as res eqn:Hres. revert cur.
  induction Hrun as [c w'|c c1 w1 out1 res w' out2 Hstep Hrun IH| | |];
    intros cur Hinv Hr Hsrv Hrs Hno; try discriminate; [done|].
  assert (∀ ret, EvClose r ret ∉ out1) as Hno1.
  { intros ret Hin. apply (Hno ret), elem_of_app. by left. }
  assert (∀ ret, EvClose r ret ∉ out2) as Hno2.
  { intros ret Hin. apply (Hno ret), elem_of_app. by right. }
  destruct (step_run_inv _ _ _ _ Hstep Hinv) as (Hinv1 & _ & Hsame).
  rewrite forwarded_from_app, chunks_read_app.
  rewrite (step_run_forwarded _ _ _ _ cur s r Hstep) by done.
  f_equal. apply IH; [done|done| |by rewrite Hsame|done|done].
  by eapply step_run_keeps.
Qed.

(** C3.  Every read of the loop asks for MAX_BUF = 255 bytes and stores at
    most that many, so one turn forwards at most 255 bytes.  Fragments are
    forwarded as they are read, one fragment per read: for a sender s and a
    receiver r that stays registered during the run, the fragments written
    to r out of the reads from s are exactly the non-empty chunks read from
    s, in order; their concatenation is the payload read from s, and a
    payload longer than 255 bytes reaches r in at least two fragments. *)
Theorem C3_fragments_in_order n c w res w' out :
  steps n c w = (res, w', out) →
  MAX_BUF = 255 ∧
  (∀ fd count ret d,
     EvRead fd count ret d ∈ out →
     count = MAX_BUF ∧ Z.of_nat (length d) ≤ MAX_BUF ∧
     (ret = -1 ∨ ret = Z.of_nat (length d))) ∧
  ∀ c' s r,
    res = Ok c' → loop_inv c.2 →
    r ∈ master c.2 → r ≠ srv_sockfd c.2 → r ≠ s →
    (∀ ret, EvClose r ret ∉ out) →
    forwarded s r out = chunks_read s out ∧
    Forall (λ d, (0 < length d ≤ 255)%nat) (forwarded s r out) ∧
    concat (forwarded s r out) = concat (chunks_read s out) ∧
    ((255 < length (concat (chunks_read s out)))%nat →
     (2 ≤ length (forwarded s r out))%nat).
Proof.
  intros Hsteps. apply steps_run in Hsteps. split; [done|].
  assert (∀ fd count ret d,
     EvRead fd count ret d ∈ out →
     count = MAX_BUF ∧ Z.of_nat (length d) ≤ MAX_BUF ∧
     (ret = -1 ∨ ret = Z.of_nat (length d))) as Hreads.
  { intros fd count ret d Hin. by eapply run_reads. }
  split; [done|]. intros c' s r -> Hinv Hr Hsrv Hrs Hno.
  assert (forwarded s r out = chunks_read s out) as Heq.
  { unfold forwarded. by eapply run_forwarded. }
  pose proof (chunks_read_bound s out Hreads) as Hb.
  rewrite Heq. split_and!; [done..|].
  intros Hlen. apply concat_length_bound in Hb. lia.
Qed.

End Fragments.

(** ** The buffer: old content is never sent *)

Section Buffer.
Context {W : Type} `{!Kernel W}.

Lemma fanout_same_prefix js s1 s2 i n w :
  srv_sockfd s1 = srv_sockfd s2 → master s1 = master s2 →
  take (Z.to_nat n) (buf s1) = take (Z.to_nat n) (buf s2) →
  fanout js s1 i n w = fanout js s2 i n w.
Proof.
  intros Hsrv Hm Hb. revert w. induction js as [|j js IH]; intros w; [done|].
  destruct (decide (is_dest s1 i j)) as [Hd|Hd].
  - assert (is_dest s2 i j) as Hd2 by (unfold is_dest in *; congruence).
    rewrite !fanout_cons_dest by done. cbn zeta. rewrite Hb.
    destruct (sys_write j _ w) as [ret w1]. destruct (ret =? -1); [done|].
    by rewrite IH.
  - assert (¬ is_dest s2 i j) as Hd2 by (unfold is_dest in *; congruence).
    rewrite !fanout_cons_skip by done. apply IH.
Qed.

Lemma step_same_but_buf c1 c2 w :
  same_but_buf c1 c2 →
  same_outcome_but_buf (step c1 w).1.1 (step c2 w).1.1 ∧
  (step c1 w).1.2 = (step c2 w).1.2 ∧
  (step c1 w).2 = (step c2 w).2.
Proof.
  destruct c1 as [ph1 [srv1 m1 fm1 b1]], c2 as [ph2 [srv2 m2 fm2 b2]].
  intros (Hph & Hsrv & Hm & Hfm). cbn in Hph, Hsrv, Hm, Hfm. subst.
  destruct ph2 as [|rd i]; unfold step; cbn [fst snd fdmax master].
  - rewrite !bind_run. unfold select, syscall.
    destruct (sys_select _ _ w) as [[ret ready] w1]. cbn [fst snd].
    destruct (ret =? -1).
    + change (error "ERROR on select")
        with (error (A:=config) ("ERROR on " +:+ "select")).
      by rewrite error_run.
    + by cbn.
  - destruct (i <=? fm2); [|by cbn]. rewrite !bind_run.
    unfold dispatch; cbn [srv_sockfd master fdmax buf].
    destruct (FD_ISSET i rd); [|by cbn].
    destruct (i =? srv2).
    + rewrite !bind_run, !init_cli_run.
      destruct (sys_accept srv2 w) as [cli w1].
      destruct (cli =? -1); [done|]. rewrite !bind_run. unfold FD_SET.
      case_bool_decide; by cbn.
    + rewrite !bind_run, !read_run.
      destruct (sys_read i MAX_BUF w) as [rr w1]. cbn zeta.
      destruct (read_reply_cases rr) as [->|[->|(data & Hne & Hlen & ->)]];
        cbn [fst snd].
      * change (-1 =? -1) with true. cbn iota.
        change (error "ERROR on read")
          with (error (A:=loop_state) ("ERROR on " +:+ "read")).
        by rewrite !error_run.
      * change (0 =? -1) with false. change (0 =? 0) with true. cbn iota.
        rewrite !bind_run. unfold close, syscall.
        destruct (sys_close i w1) as [ret w2]. by cbn.
      * assert ((Z.of_nat (length data) =? -1) = false) as ->
          by (apply Z.eqb_neq; lia).
        assert ((Z.of_nat (length data) =? 0) = false) as ->.
        { apply Z.eqb_neq. destruct data; [done|]. cbn [length]. lia. }
        rewrite !bind_run.
        rewrite (fanout_same_prefix _
          {| srv_sockfd := srv2; master := m2; fdmax := fm2;
             buf := data ++ drop (length data) b1 |}
          {| srv_sockfd := srv2; master := m2; fdmax := fm2;
             buf := data ++ drop (length data) b2 |}); [|done|done|].
        2:{ cbn [buf]. by rewrite Nat2Z.id, !take_app_length. }
        destruct (fanout _ _ _ _ w1) as [[[[]|st| |sig] w2] out1]; by cbn.
Qed.

Lemma same_but_buf_refl c : same_but_buf c c.
Proof. by repeat split. Qed.

Lemma steps_same_but_buf n c1 c2 w :
  same_but_buf c1 c2 →
  same_outcome_but_buf (steps n c1 w).1.1 (steps n c2 w).1.1 ∧
  (steps n c1 w).1.2 = (steps n c2 w).1.2 ∧
  (steps n c1 w).2 = (steps n c2 w).2.
Proof.
  revert c1 c2 w. induction n as [|n IH]; intros c1 c2 w Hsame; [done|].
  cbn [steps]. rewrite !bind_run.
  destruct (step_same_but_buf c1 c2 w Hsame) as (Hr & Hw & Ho).
  destruct (step c1 w) as [[r1 w1] o1], (step c2 w) as [[r2 w2] o2].
  cbn [fst snd] in Hr, Hw, Ho. subst w2 o2.
  destruct r1 as [d1|st1| |sig1], r2 as [d2|st2| |sig2]; cbn in Hr;
    try done.
  destruct (IH d1 d2 w1 Hr) as (Hr' & Hw' & Ho').
  destruct (steps n d1 w1) as [[r3 w3] o3], (steps n d2 w1) as [[r4 w4] o4].
  cbn [fst snd] in *. by subst.
Qed.

Lemma writes_fresh_app cur o1 o2 :
  writes_fresh cur (o1 ++ o2) ↔
  writes_fresh cur o1 ∧ writes_fresh (last_chunk cur o1) o2.
Proof.
  revert cur. induction o1 as [|e o1 IH]; intros cur; [cbn; tauto|].
  destruct e; cbn; try apply IH. rewrite IH. tauto.
Qed.

Lemma fanout_run_fresh (w' : W) data js r out :
  fanout_run w' data js r out → writes_fresh data out.
Proof. induction 1; cbn; auto. Qed.

Lemma step_run_fresh c r (w' : W) out cur :
  step_run c r w' out → writes_fresh cur out.
Proof.
  intros Hs. inversion Hs; subst; cbn; try done;
    by eapply fanout_run_fresh.
Qed.

Lemma run_fresh c r (w' : W) out cur :
  run c r w' out → writes_fresh cur out.
Proof.
  intros Hrun. revert cur.
  induction Hrun as [c w'|c c1 w1 out1 r w' out2 Hstep Hrun IH|c st w' out Hstep
                    |c w' out Hstep|c sig w' out Hstep]; intros cur.
  - done.
  - apply writes_fresh_app. split; [by eapply step_run_fresh|apply IH].
  - by eapply step_run_fresh.
  - by eapply step_run_fresh.
  - by eapply step_run_fresh.
Qed.

(** C10.  The buffer is one array reused by every read, but what it held
    before a read is never sent: every write hands over exactly the bytes
    stored by the most recent read, and two runs that differ only in the
    content of the buffer at the start make the same calls with the same
    arguments and results, end in the same kernel state and in the same
    outcome up to the content of the buffer; so do two runs of raw() that
    differ only in the uninitialised content of buf. *)
Theorem C10_old_buffer_never_sent n c1 c2 w :
  same_but_buf c1 c2 →
  (steps n c1 w).2 = (steps n c2 w).2 ∧
  (steps n c1 w).1.2 = (steps n c2 w).1.2 ∧
  same_outcome_but_buf (steps n c1 w).1.1 (steps n c2 w).1.1 ∧
  (∀ cur, writes_fresh cur (steps n c1 w).2) ∧
  (∀ port b1 b2, (raw port b1 n w).2 = (raw port b2 n w).2).
Proof.
  intros Hsame.
  destruct (steps_same_but_buf n c1 c2 w Hsame) as (Hr & Hw & Ho).
  split_and!; [done..| |].
  - intros cur. destruct (steps n c1 w) as [[r1 w1] o1] eqn:Hsteps.
    apply steps_run in Hsteps. by eapply run_fresh.
  - intros port b1 b2. unfold raw, raw_init. rewrite !bind_run.
    destruct (init_srv port w) as [[[srv|st| |sig] w1] out1]; [|done..].
    unfold FD_SET. case_bool_decide; [|done].
    rewrite !bind_run. unfold mret, M_ret, retM. cbn [app].
    set (d1 := (Waiting, _)). set (d2 := (Waiting, _)).
    destruct (steps_same_but_buf n d1 d2 w1) as (_ & _ & Ho'); [done|].
    destruct (steps n d1 w1) as [[r3 w3] o3], (steps n d2 w1) as [[r4 w4] o4].
    cbn [fst snd] in *. by subst.
Qed.

End Buffer.

(** ** Start-up: init_srv and init_cli *)

Section Startup.
Context {W : Type} `{!Kernel W}.

Lemma app_cons_eq_cons {A} (o1 o2 l : list A) x y :
  o1 ++ x :: o2 = y :: l →
  (o1 = [] ∧ x = y ∧ o2 = l) ∨ ∃ o1', o1 = y :: o1' ∧ o1' ++ x :: o2 = l.
Proof.
  destruct o1 as [|z o1]; cbn; intros [= -> Heq]; [by left|right; eauto].
Qed.

Lemma app_cons_eq_app {A} (o1 o2 l1 l2 : list A) x :
  o1 ++ x :: o2 = l1 ++ l2 → x ∉ l2 →
  ∃ o2', l1 = o1 ++ x :: o2' ∧ o2 = o2' ++ l2.
Proof.
  revert l1. induction o1 as [|y o1 IH]; intros l1 Heq Hx.
  - destruct l1 as [|z l1]; cbn in Heq.
    + destruct Hx. subst l2. by left.
    + injection Heq as -> ->. by exists l1.
  - destruct l1 as [|z l1]; cbn in Heq.
    + destruct Hx. subst l2. right. apply elem_of_app. right. by left.
    + injection Heq as -> Heq. destruct (IH _ Heq Hx) as (o2' & -> & ->).
      by exists o2'.
Qed.





Lemma candidates_run_events (w' : W) res r out :
  candidates_run w' res r out →
  Forall (λ e, is_candidate_event e = true) out.
Proof. induction 1; repeat constructor; auto. Qed.




Lemma listen_run_outcome (w' : W) port_str res0 r out :
  listen_run w' port_str res0 r out →
  (∃ fd, r = Ok fd) ∨ r = Exit EXIT_FAILURE.
Proof. destruct 1; eauto. Qed.













Lemma all_fit_spec n p :
  all_fit n p = true → ∀ q, p ≤ q < p + Z.of_nat n → fits_port_str q.
Proof.
  revert p. induction n as [|n IH]; intros p Hall q Hq; [lia|].
  cbn [all_fit] in Hall. apply andb_prop in Hall as [Hp Hall].
  destruct (decide (q = p)) as [->|Hne].
  - by apply bool_decide_eq_true in Hp.
  - apply (IH (p + 1)); [done|lia].
Qed.

(* the ports whose text fits port_str: up to five digits, or a sign and up
   to four *)
Lemma fits_port_str_range port : -9999 ≤ port ≤ 99999 → fits_port_str port.
Proof.
  intros Hport.
  assert (all_fit (Z.to_nat 109999) (-9999) = true) as Hall
    by (vm_compute; reflexivity).
  pose proof (all_fit_spec _ _ Hall port) as Hfit.
  rewrite Z2Nat.id in Hfit by done. apply Hfit. lia.
Qed.

(* The lenient path of init_srv.  For a port outside 1..65535 whose decimal
   text fits port_str (-9999..0 and 65536..99999), init_srv prints
   "Invalid port" on stderr and goes on: the rest of its run is the run of the
   code from getaddrinfo() on, the same code a valid port runs, starting in
   the same kernel state, so its first call is getaddrinfo() for the text of
   the port. *)
Lemma invalid_port_goes_on port w :
  invalid_port port → -9999 ≤ port ≤ 99999 →
  init_srv port w =
    ((init_srv_listen (decimal port) w).1.1,
     (init_srv_listen (decimal port) w).1.2,
     EvStderr ("Invalid port" +:+ newline) ::
       (init_srv_listen (decimal port) w).2) ∧
  (∃ err tail,
     (init_srv port w).2 =
       EvStderr ("Invalid port" +:+ newline) ::
       EvGetaddrinfo None (decimal port) init_srv_hints err :: tail) ∧
  ∀ q, 1 ≤ q ≤ 65535 → init_srv q w = init_srv_listen (decimal q) w.
Proof.
  intros Hinv Hrange.
  assert (∀ q, -9999 ≤ q ≤ 99999 →
    init_srv q w =
      ((init_srv_listen (decimal q) w).1.1,
       (init_srv_listen (decimal q) w).1.2,
       invalid_port_log q ++ (init_srv_listen (decimal q) w).2)) as Hrun.
  { intros q Hq. apply fits_port_str_range in Hq.
    unfold init_srv, invalid_port_log. rewrite bind_run.
    assert (sprintf_d (W:=W) 6 q = mret (decimal q)) as Hs.
    { unfold sprintf_d. fold (fits_port_str q).
      by rewrite bool_decide_eq_true_2. }
    destruct ((q <? 1) || (q >? 65535)).
    - unfold fprintf_stderr, emit. cbn beta iota zeta.
      rewrite bind_run, Hs. unfold mret, M_ret, retM. cbn beta iota zeta.
      by destruct (init_srv_listen (decimal q) w) as [[? ?] ?].
    - change ((mret tt : M W unit) w) with (Ok tt, w, @nil event).
      cbn beta iota zeta.
      rewrite bind_run, Hs. unfold mret, M_ret, retM. cbn beta iota zeta.
      by destruct (init_srv_listen (decimal q) w) as [[? ?] ?]. }
  assert (invalid_port_log port = [EvStderr ("Invalid port" +:+ newline)])
    as Hlog.
  { unfold invalid_port_log.
    assert ((port <? 1) || (port >? 65535) = true) as ->; [|done].
    destruct Hinv; apply orb_true_iff; [left|right]; lia. }
  split_and!.
  - by rewrite Hrun, Hlog.
  - rewrite Hrun, Hlog by done. cbn [snd app].
    destruct (init_srv_listen (decimal port) w) as [[r w'] out] eqn:Hl.
    apply listen_cases in Hl. cbn [snd].
    destruct Hl; eexists _, _; reflexivity.
  - intros q Hq. rewrite Hrun by lia. unfold invalid_port_log.
    assert ((q <? 1) || (q >? 65535) = false) as ->.
    { apply orb_false_iff. lia. }
    by destruct (init_srv_listen (decimal q) w) as [[? ?] ?].
Qed.

(** C8 (as amended).  init_cli calls accept() once; when accept() returns a
    descriptor, init_cli returns it; when accept() returns -1, init_cli
    prints the diagnostic for accept and exits with EXIT_FAILURE, whatever
    the value of errno, so a transient or retryable failure ends the process
    like any other. *)
Theorem C8_accept_once_fatal_on_failure srv w cli w1 :
  sys_accept srv w = (cli, w1) →
  (cli ≠ -1 → init_cli srv w = (Ok cli, w1, [EvAccept srv cli])) ∧
  (cli = -1 →
   init_cli srv w =
     (Exit EXIT_FAILURE, w1,
      [EvAccept srv (-1);
       EvStderr ("ERROR on accept: " +:+ strerror (errno w1) +:+ newline)]) ∧
   EXIT_FAILURE ≠ 0).
Proof.
  intros Hacc. rewrite init_cli_run, Hacc. split.
  - intros Hcli. by apply Z.eqb_neq in Hcli as ->.
  - intros ->. by cbn.
Qed.

End Startup.

(** ** The order of service inside a pass *)

Section Passes.
Context {W : Type} `{!Kernel W}.

Lemma app_eq_app_cons {A} (l1 l2 o1 o2 : list A) x :
  l1 ++ l2 = o1 ++ x :: o2 →
  (∃ o2', l1 = o1 ++ x :: o2' ∧ o2 = o2' ++ l2) ∨
  (∃ o1', o1 = l1 ++ o1' ∧ l2 = o1' ++ x :: o2).
Proof.
  revert o1. induction l1 as [|y l1 IH]; intros o1 Heq.
  - right. by exists o1.
  - destruct o1 as [|z o1]; cbn in Heq.
    + injection Heq as -> <-. left. by exists l1.
    + injection Heq as -> Heq. destruct (IH _ Heq) as
        [(o2' & -> & ->)|(o1' & -> & ->)].
      * left. by exists o2'.
      * right. by exists o1'.
Qed.

(* events that neither open a pass nor serve a descriptor *)
Lemma pass_ordered_inert lo ready l rest :
  Forall (λ e, served e = None ∧ is_select e = false) l →
  pass_ordered lo ready (l ++ rest) ↔ pass_ordered lo ready rest.
Proof.
  induction 1 as [|e l [He1 He2] Hl IH]; [done|].
  destruct e; try discriminate; cbn; apply IH.
Qed.

Lemma fanout_run_inert (w' : W) data js r out :
  fanout_run w' data js r out →
  Forall (λ e, served e = None ∧ is_select e = false) out.
Proof. induction 1; repeat constructor; auto. Qed.

Lemma run_pass_ordered c r (w' : W) out lo ready :
  run c r w' out →
  match c.1 with
  | Waiting => True
  | Dispatching rd i => rd = ready ∧ lo ≤ i
  end →
  pass_ordered lo ready out.
Proof.
  intros Hrun. revert lo ready.
  assert (∀ c r (w' : W) out rest lo ready,
    step_run c r w' out →
    match c.1 with
    | Waiting => True
    | Dispatching rd i => rd = ready ∧ lo ≤ i
    end →
    match r with
    | Ok c' => ∀ lo' ready',
        match c'.1 with
        | Waiting => True
        | Dispatching rd i => rd = ready' ∧ lo' ≤ i
        end → pass_ordered lo' ready' rest
    | _ => rest = []
    end →
    pass_ordered lo ready (out ++ rest)) as Hstep.
  { clear. intros c r w' out rest lo ready Hs Hc Hrest.
    inversion Hs; subst; cbn [fst snd] in *;
      try match goal with Hf : fanout_run _ _ _ _ _ |- _ =>
        apply fanout_run_inert in Hf end;
      cbn [app pass_ordered];
      try match goal with
          | Hc : _ = _ ∧ _ ≤ _ |- _ => destruct Hc as [Hrd Hlo]; subst ready
          end;
      repeat match goal with
      | |- _ ≤ _ ∧ _ => split; [lia|]
      | |- _ ∈ _ ∧ _ => split; [done|]
      | |- pass_ordered _ _ (_ ++ _) => apply pass_ordered_inert; [done|]
      end;
      try (subst rest; done);
      apply Hrest; cbn; try done; split; [done|lia]. }
  induction Hrun as [c w'|c c1 w1 out1 r w' out2 Hs Hrun IH|c st w' out Hs
                    |c w' out Hs|c sig w' out Hs]; intros lo ready Hc.
  - done.
  - eapply Hstep; [done..|]. intros lo' ready' Hc'. by apply IH.
  - rewrite <- (app_nil_r out). by eapply Hstep.
  - rewrite <- (app_nil_r out). by eapply Hstep.
  - rewrite <- (app_nil_r out). by eapply Hstep.
Qed.

(* where a served descriptor sits in a log that is ordered by passes *)
Lemma pass_ordered_position lo ready o1 e fd o2 :
  pass_ordered lo ready (o1 ++ e :: o2) → served e = Some fd →
  (Forall (λ e', is_select e' = false) o1 ∧ lo ≤ fd ∧ fd ∈ ready ∧
   ∀ e' fd', e' ∈ o1 → served e' = Some fd' → fd' < fd) ∨
  (∃ pre nfds rdset ret rd mid,
     o1 = pre ++ EvSelect nfds rdset ret rd :: mid ∧
     Forall (λ e', is_select e' = false) mid ∧ 0 ≤ fd ∧ fd ∈ rd ∧
     ∀ e' fd', e' ∈ mid → served e' = Some fd' → fd' < fd).
Proof.
  intros Hp He. revert lo ready Hp.
  induction o1 as [|x o1 IH]; intros lo ready Hp.
  - left. cbn in Hp. destruct e; try discriminate; injection He as ->;
      destruct Hp as (? & ? & _); split_and!; try done;
      by intros e' fd' ?%elem_of_nil.
  - assert (∀ lo' ready',
      pass_ordered lo' ready' (o1 ++ e :: o2) →
      is_select x = false → (∀ fd0, served x = Some fd0 → fd0 < lo') →
      lo ≤ lo' → ready' = ready →
      (Forall (λ e', is_select e' = false) (x :: o1) ∧ lo ≤ fd ∧ fd ∈ ready ∧
       ∀ e' fd', e' ∈ x :: o1 → served e' = Some fd' → fd' < fd) ∨
      (∃ pre nfds rdset ret rd mid,
         x :: o1 = pre ++ EvSelect nfds rdset ret rd :: mid ∧
         Forall (λ e', is_select e' = false) mid ∧ 0 ≤ fd ∧ fd ∈ rd ∧
         ∀ e' fd', e' ∈ mid → served e' = Some fd' → fd' < fd)) as Hkeep.
    { intros lo' ready' Hp' Hx Hsx Hlo ->.
      destruct (IH _ _ Hp') as
        [(Hns & Hle & Hin & Hsm)|(pre & nfds & rdset & ret & rd & mid & -> & Hr)].
      - left. split_and!; [by constructor|lia|done|].
        intros e' fd' [->|Hin']%elem_of_cons Hs'; [|by eapply Hsm].
        apply Hsx in Hs'. lia.
      - right. by exists (x :: pre), nfds, rdset, ret, rd, mid. }
    destruct x; cbn [app pass_ordered] in Hp;
      try (apply (Hkeep lo ready); [done|done|by intros ? [=]|lia|done]).
    + (* select *)
      destruct (IH _ _ Hp) as
        [(Hns & Hle & Hin & Hsm)|(pre & nfds' & rdset & ret' & rd & mid & -> & Hr)].
      * right. by exists [], nfds, readfds, ret, ready0, o1.
      * right. by eexists (_ :: pre), nfds', rdset, ret', rd, mid.
    + (* accept *)
      destruct Hp as (Hlo & Hin & Hp).
      apply (Hkeep (fd0 + 1) ready); [done|done| |lia|done].
      intros ? [= <-]. lia.
    + (* read *)
      destruct Hp as (Hlo & Hin & Hp).
      apply (Hkeep (fd0 + 1) ready); [done|done| |lia|done].
      intros ? [= <-]. lia.
Qed.

Lemma step_run_served c r (w' : W) out :
  step_run c r w' out →
  (∀ fd cli, EvAccept fd cli ∈ out → fd = srv_sockfd c.2) ∧
  (∀ fd cnt n d, EvRead fd cnt n d ∈ out → fd ≠ srv_sockfd c.2).
Proof.
  intros Hs. split.
  - intros fd cli Hin. inversion Hs; subst; cbn [fst snd] in *;
      unfold diag in *;
      try match goal with Hf : fanout_run _ _ _ _ _ |- _ =>
        apply fanout_run_inert in Hf; rewrite Forall_forall in Hf end;
      repeat match goal with
      | H : _ ∈ _ :: _ |- _ => apply elem_of_cons in H as [H|H]
      | H : _ ∈ [] |- _ => by apply elem_of_nil in H
      | H : EvAccept _ _ = EvAccept _ _ |- _ => injection H as -> ->
      | H : EvAccept _ _ ∈ ?o, Hf : ∀ x, x ∈ ?o → _ |- _ =>
          by destruct (Hf _ H) as [[=] _]
      end; try discriminate; done.
  - intros fd cnt n d Hin. inversion Hs; subst; cbn [fst snd] in *;
      unfold diag in *;
      try match goal with Hf : fanout_run _ _ _ _ _ |- _ =>
        apply fanout_run_inert in Hf; rewrite Forall_forall in Hf end;
      repeat match goal with
      | H : _ ∈ _ :: _ |- _ => apply elem_of_cons in H as [H|H]
      | H : _ ∈ [] |- _ => by apply elem_of_nil in H
      | H : EvRead _ _ _ _ = EvRead _ _ _ _ |- _ => injection H as -> -> -> ->
      | H : EvRead _ _ _ _ ∈ ?o, Hf : ∀ x, x ∈ ?o → _ |- _ =>
          by destruct (Hf _ H) as [[=] _]
      end; try discriminate; done.
Qed.

Lemma run_served c r (w' : W) out :
  run c r w' out → loop_inv c.2 →
  (∀ fd cli, EvAccept fd cli ∈ out → fd = srv_sockfd c.2) ∧
  (∀ fd cnt n d, EvRead fd cnt n d ∈ out → fd ≠ srv_sockfd c.2).
Proof.
  induction 1 as [c w'|c c1 w1 out1 r w' out2 Hs Hrun IH|c st w' out Hs
                 |c w' out Hs|c sig w' out Hs]; intros Hinv.
  - split; [intros fd cli Hin|intros fd cnt n d Hin];
      by apply elem_of_nil in Hin.
  - destruct (step_run_inv _ _ _ _ Hs Hinv) as (Hinv1 & _ & Hsame).
    destruct (IH Hinv1) as [IHa IHr]. rewrite Hsame in IHa, IHr.
    destruct (step_run_served _ _ _ _ Hs) as [Ha Hr].
    split.
    + intros fd cli [Hin|Hin]%elem_of_app; eauto.
    + intros fd cnt n d [Hin|Hin]%elem_of_app; eauto.
  - by apply step_run_served in Hs.
  - by apply step_run_served in Hs.
  - by apply step_run_served in Hs.
Qed.

(** X1.  In every run of raw(), a descriptor is served (read from, or
    accepted on) only inside a pass opened by a select() that reported it
    ready, and the descriptors served earlier in the same pass are strictly
    smaller: a pass serves the ready descriptors in ascending order, each at
    most once.  accept() is only called on the listening descriptor and
    read() never is, so a pass accepts at most one connection. *)
Theorem pass_serves_ready_ascending port buf0 n w r w' out :
  raw port buf0 n w = (r, w', out) →
  (∀ o1 e fd o2,
     out = o1 ++ e :: o2 → served e = Some fd →
     ∃ pre nfds rdset ret ready mid,
       o1 = pre ++ EvSelect nfds rdset ret ready :: mid ∧
       Forall (λ e', is_select e' = false) mid ∧ 0 ≤ fd ∧ fd ∈ ready ∧
       ∀ e' fd', e' ∈ mid → served e' = Some fd' → fd' < fd) ∧
  (∀ srv w1 o0,
     init_srv port w = (Ok srv, w1, o0) →
     (∀ fd cli, EvAccept fd cli ∈ out → fd = srv) ∧
     (∀ fd cnt k d, EvRead fd cnt k d ∈ out → fd ≠ srv)).
Proof.
  intros Hraw.
  apply raw_cases in Hraw as (outs & outl & -> & Hstart & Hloop).
  assert (Forall (λ e, served e = None ∧ is_select e = false) outs) as Hin.
  { eapply Forall_impl; [exact Hstart|]. intros e He. by destruct e. }
  split.
  - assert (pass_ordered 0 ∅ (outs ++ outl)) as Hp.
    { apply pass_ordered_inert; [done|].
      destruct Hloop as [[-> _]|(srv & w1 & _ & _ & Hrun)]; [done|].
      by eapply run_pass_ordered. }
    intros o1 e fd o2 Heq He. rewrite Heq in Hp.
    destruct (pass_ordered_position _ _ _ _ _ _ Hp He)
      as [(_ & _ & Hempty & _)|Hpos]; [|done].
    by apply not_elem_of_empty in Hempty.
  - intros srv w1 o0 Hinit.
    destruct Hloop as [[-> _]|(srv' & w1' & Hinit' & Hsrv & Hrun)].
    + rewrite app_nil_r. rewrite Forall_forall in Hin.
      split; [intros fd cli Hi|intros fd cnt k d Hi];
        by destruct (Hin _ Hi) as [[=] _].
    + rewrite Hinit in Hinit'. injection Hinit' as <- <- <-.
      destruct (run_served _ _ _ _ Hrun) as [Ha Hr].
      { apply initial_state_inv. lia. }
      rewrite Forall_forall in Hin.
      split.
      * intros fd cli [Hi|Hi]%elem_of_app; [|by eapply Ha].
        by destruct (Hin _ Hi) as [[=] _].
      * intros fd cnt k d [Hi|Hi]%elem_of_app; [|by eapply Hr].
        by destruct (Hin _ Hi) as [[=] _].
Qed.

End Passes.

(** ** Who is watched, and what a newcomer receives *)

Section Watching.
Context {W : Type} `{!Kernel W}.

Lemma elem_of_middle {A} (o1 o2 : list A) x : x ∈ o1 ++ x :: o2.
Proof. apply elem_of_app. right. by left. Qed.

Lemma step_run_select_position c r (w' : W) out o1 nfds rd ret ready o2 :
  step_run c r w' out →
  out = o1 ++ EvSelect nfds rd ret ready :: o2 →
  o1 = [] ∧ rd = master c.2 ∧ nfds = fdmax c.2 + 1.
Proof.
  intros Hs Heq.
  assert (EvSelect nfds rd ret ready ∈ out) as Hin
    by (rewrite Heq; apply elem_of_middle).
  revert Heq Hin.
  inversion Hs; subst; intros Heq Hin; cbn [fst snd] in *; unfold diag in *;
    try (elem_cases Hin; by eapply fanout_run_no_select in Hin).
  - symmetry in Heq.
    apply app_cons_eq_cons in Heq as [(-> & [= -> -> -> ->] & _)|(o & -> & Heq)];
      [done|by destruct o].
  - symmetry in Heq.
    apply app_cons_eq_cons in Heq as [(-> & [= -> -> -> ->] & _)|(o & -> & Heq)];
      [done|].
    apply app_cons_eq_cons in Heq as [(_ & [=] & _)|(o' & -> & Heq)].
    by destruct o'.
Qed.

(* select() is called on the set of the registered descriptors *)
Lemma run_select_watches c r (w' : W) out o1 nfds rd ret ready o2 :
  run c r w' out →
  out = o1 ++ EvSelect nfds rd ret ready :: o2 →
  rd = live (master c.2) o1.
Proof.
  intros Hrun. revert o1.
  induction Hrun as [c w'|c c1 w1 out1 r w' out2 Hs Hrun IH|c st w' out Hs
                    |c w' out Hs|c sig w' out Hs]; intros o1 Heq.
  - by destruct o1.
  - apply app_eq_app_cons in Heq as [(o2' & Heq & _)|(o1' & -> & Heq)].
    + by destruct (step_run_select_position _ _ _ _ _ _ _ _ _ _ Hs Heq)
        as (-> & -> & _).
    + rewrite live_app. rewrite (IH _ Heq).
      destruct (step_run_registered _ _ _ _ Hs) as [_ Hl].
      by rewrite (Hl _ eq_refl).
  - by destruct (step_run_select_position _ _ _ _ _ _ _ _ _ _ Hs Heq)
      as (-> & -> & _).
  - by destruct (step_run_select_position _ _ _ _ _ _ _ _ _ _ Hs Heq)
      as (-> & -> & _).
  - by destruct (step_run_select_position _ _ _ _ _ _ _ _ _ _ Hs Heq)
      as (-> & -> & _).
Qed.

(** X2.  Every select() of raw() watches exactly the descriptors registered
    at that point: the listening descriptor, which is always among them, and
    every descriptor that accept() has returned and that has not been closed
    since.  No live connection is left out of a wait and no closed one is
    waited for. *)
Theorem select_watches_registered port buf0 n w r w' out srv w1 o0 :
  raw port buf0 n w = (r, w', out) →
  init_srv port w = (Ok srv, w1, o0) →
  ∀ o1 nfds rd ret ready o2,
    out = o1 ++ EvSelect nfds rd ret ready :: o2 →
    rd = live {[srv]} o1 ∧ srv ∈ rd ∧
    (∀ x, x ∈ rd → x = srv ∨ ∃ sv, EvAccept sv x ∈ o1) ∧
    (∀ x cret o3 o4,
       o1 = o3 ++ EvClose x cret :: o4 → (∀ sv, EvAccept sv x ∉ o4) →
       x ∉ rd).
Proof.
  intros Hraw Hinit o1 nfds rd ret ready o2 Heq.
  apply raw_cases in Hraw as (outs & outl & -> & Hstart & Hloop).
  assert (EvSelect nfds rd ret ready ∉ outs) as Hns.
  { intros Hin. rewrite Forall_forall in Hstart. by apply Hstart in Hin. }
  apply app_eq_app_cons in Heq as [(o2' & Heq & _)|(o1' & -> & Heq)].
  { destruct Hns. rewrite Heq. apply elem_of_middle. }
  destruct Hloop as [[-> _]|(srv' & w1' & Hinit' & Hsrv & Hrun)].
  { by destruct o1'. }
  rewrite Hinit in Hinit'. injection Hinit' as <- <- <-.
  pose proof (run_select_watches _ _ _ _ _ _ _ _ _ _ Hrun Heq) as Hrd.
  cbn in Hrd.
  assert (rd = live {[srv]} (o0 ++ o1')) as Hlive.
  { rewrite live_app. by rewrite (proj2 (startup_registered _ Hstart _)). }
  split_and!.
  - done.
  - rewrite Hrd. apply live_keeps; [set_solver|].
    intros cret Hin.
    assert (EvClose srv cret ∈ outl) as Hin'
      by (rewrite Heq; apply elem_of_app; by left).
    eapply run_closes_clients in Hin'; [|done|apply initial_state_inv; lia].
    by apply Hin'.
  - intros x Hx. rewrite Hlive in Hx.
    apply elem_of_live in Hx as [->%elem_of_singleton|?]; auto.
  - intros x cret o3 o4 Ho1 Hno Hx. rewrite Hlive, Ho1, live_app in Hx.
    cbn [live] in Hx.
    apply elem_of_live in Hx as [Hx|[sv Hx]]; [set_solver|by apply Hno in Hx].
Qed.

Lemma fanout_run_position (w' : W) data js r out ws j d ret rest :
  fanout_run w' data js r out →
  out = ws ++ EvWrite j d ret :: rest →
  d = data ∧ j ∈ js ∧ Forall (λ e, is_write e = true) ws.
Proof.
  intros Hf. revert ws.
  induction Hf as [|j0 js r out ret0 Hret Hf IH|j0 js Hsig|j0 js Hsig];
    intros ws Heq; symmetry in Heq.
  - by destruct ws.
  - apply app_cons_eq_cons in Heq as [(-> & [= -> -> ->] & _)|(ws' & -> & Heq)].
    + split_and!; [done|by left|constructor].
    + symmetry in Heq. destruct (IH _ Heq) as (-> & Hj & Hws).
      split_and!; [done|by right|by constructor].
  - apply app_cons_eq_cons in Heq as [(-> & [= -> -> ->] & _)|(ws' & -> & Heq)].
    + split_and!; [done|by left|constructor].
    + apply app_cons_eq_cons in Heq as [(_ & [=] & _)|(ws'' & -> & Heq)].
      by destruct ws''.
  - apply app_cons_eq_cons in Heq as [(-> & [= -> -> ->] & _)|(ws' & -> & Heq)].
    + split_and!; [done|by left|constructor].
    + by destruct ws'.
Qed.

Lemma step_run_write_position c r (w' : W) out o1 j d ret o2 :
  step_run c r w' out →
  out = o1 ++ EvWrite j d ret :: o2 →
  ∃ i cnt k ws,
    o1 = EvRead i cnt k d :: ws ∧ Forall (λ e, is_write e = true) ws ∧
    i ≠ j ∧ j ≠ srv_sockfd c.2 ∧ j ∈ master c.2.
Proof.
  intros Hs Heq.
  assert (EvWrite j d ret ∈ out) as Hin
    by (rewrite Heq; apply elem_of_middle).
  revert Heq Hin.
  inversion Hs; subst; intros Heq Hin; cbn [fst snd] in *; unfold diag in *;
    try (by elem_cases Hin); symmetry in Heq.
  - apply app_cons_eq_cons in Heq as [(_ & [=] & _)|(ws & -> & Heq)].
    symmetry in Heq.
    match goal with Hf : fanout_run _ _ _ _ _ |- _ =>
      destruct (fanout_run_position _ _ _ _ _ _ _ _ _ _ Hf Heq)
        as (-> & Hj & Hws) end.
    apply list_elem_of_filter in Hj as [(Hm & Hsrv & Hi) _].
    eexists _, _, _, ws. split_and!; [done|done|congruence|done|done].
  - apply app_cons_eq_cons in Heq as [(_ & [=] & _)|(ws & -> & Heq)].
    symmetry in Heq.
    match goal with Hf : fanout_run _ _ _ _ _ |- _ =>
      destruct (fanout_run_position _ _ _ _ _ _ _ _ _ _ Hf Heq)
        as (-> & Hj & Hws) end.
    apply list_elem_of_filter in Hj as [(Hm & Hsrv & Hi) _].
    eexists _, _, _, ws. split_and!; [done|done|congruence|done|done].
  - apply app_cons_eq_cons in Heq as [(_ & [=] & _)|(ws & -> & Heq)].
    symmetry in Heq.
    match goal with Hf : fanout_run _ _ _ _ _ |- _ =>
      destruct (fanout_run_position _ _ _ _ _ _ _ _ _ _ Hf Heq)
        as (-> & Hj & Hws) end.
    apply list_elem_of_filter in Hj as [(Hm & Hsrv & Hi) _].
    eexists _, _, _, ws. split_and!; [done|done|congruence|done|done].
Qed.

Lemma run_write_position c r (w' : W) out o1 j d ret o2 :
  run c r w' out → loop_inv c.2 →
  out = o1 ++ EvWrite j d ret :: o2 →
  ∃ pre i cnt k ws,
    o1 = pre ++ EvRead i cnt k d :: ws ∧
    Forall (λ e, is_write e = true) ws ∧
    i ≠ j ∧ j ≠ srv_sockfd c.2 ∧ j ∈ live (master c.2) pre.
Proof.
  intros Hrun. revert o1.
  induction Hrun as [c w'|c c1 w1 out1 r w' out2 Hs Hrun IH|c st w' out Hs
                    |c w' out Hs|c sig w' out Hs]; intros o1 Hinv Heq.
  - by destruct o1.
  - apply app_eq_app_cons in Heq as [(o2' & Heq & _)|(o1' & -> & Heq)].
    + destruct (step_run_write_position _ _ _ _ _ _ _ _ _ Hs Heq)
        as (i & cnt & k & ws & -> & Hws & Hi & Hsrv & Hm).
      by exists [], i, cnt, k, ws.
    + destruct (step_run_inv _ _ _ _ Hs Hinv) as (Hinv1 & _ & Hsame).
      destruct (IH _ Hinv1 Heq)
        as (pre & i & cnt & k & ws & -> & Hws & Hi & Hsrv & Hm).
      exists (out1 ++ pre), i, cnt, k, ws.
      split_and!; [by rewrite app_assoc|done|done|congruence|].
      rewrite live_app.
      destruct (step_run_registered _ _ _ _ Hs) as [_ Hl].
      by rewrite <- (Hl _ eq_refl).
  - destruct (step_run_write_position _ _ _ _ _ _ _ _ _ Hs Heq)
      as (i & cnt & k & ws & -> & Hws & Hi & Hsrv & Hm).
    by exists [], i, cnt, k, ws.
  - destruct (step_run_write_position _ _ _ _ _ _ _ _ _ Hs Heq)
      as (i & cnt & k & ws & -> & Hws & Hi & Hsrv & Hm).
    by exists [], i, cnt, k, ws.
  - destruct (step_run_write_position _ _ _ _ _ _ _ _ _ Hs Heq)
      as (i & cnt & k & ws & -> & Hws & Hi & Hsrv & Hm).
    by exists [], i, cnt, k, ws.
Qed.

(** X3.  In every run of raw(), a write to a descriptor j carries a chunk
    read from another descriptor after accept() had returned j: the write
    comes right after that read, with only writes of the same fan-out in
    between, and the accept comes before the read.  A client is never sent
    bytes that were read before it connected, nor its own bytes. *)
Theorem no_replay_to_newcomer port buf0 n w r w' out :
  raw port buf0 n w = (r, w', out) →
  ∀ o1 j d ret o2,
    out = o1 ++ EvWrite j d ret :: o2 →
    ∃ pre i cnt k ws sv,
      o1 = pre ++ EvRead i cnt k d :: ws ∧
      Forall (λ e, is_write e = true) ws ∧
      i ≠ j ∧ EvAccept sv j ∈ pre.
Proof.
  intros Hraw o1 j d ret o2 Heq.
  apply raw_cases in Hraw as (outs & outl & -> & Hstart & Hloop).
  assert (EvWrite j d ret ∉ outs) as Hns.
  { intros Hin. rewrite Forall_forall in Hstart. by apply Hstart in Hin. }
  apply app_eq_app_cons in Heq as [(o2' & Heq & _)|(o1' & -> & Heq)].
  { destruct Hns. rewrite Heq. apply elem_of_middle. }
  destruct Hloop as [[-> _]|(srv & w1 & _ & Hsrv & Hrun)].
  { by destruct o1'. }
  assert (loop_inv (initial_state srv buf0)) as Hinv
    by (apply initial_state_inv; lia).
  destruct (run_write_position _ _ _ _ _ _ _ _ _ Hrun Hinv Heq)
    as (pre & i & cnt & k & ws & -> & Hws & Hi & Hj & Hm).
  cbn in Hj, Hm.
  apply elem_of_live in Hm as [->%elem_of_singleton|[sv Hacc]]; [done|].
  exists (outs ++ pre), i, cnt, k, ws, sv.
  split_and!; [by rewrite app_assoc|done|done|].
  apply elem_of_app. by right.
Qed.

End Watching.

(** ** How start-up and the loop can end *)

Section Endings.
Context {W : Type} `{!Kernel W}.

Lemma candidates_run_exit (w' : W) res st out :
  candidates_run w' res (Exit st) out →
  st = EXIT_FAILURE ∧ ∃ o, out = o ++ [diag w' "setsockopt"].
Proof.
  intros Hc. remember (Exit st) as r eqn:Hr.
  induction Hc as [|ai rest r out Hc IH|ai rest fd Hfd
                  |ai rest fd e r out Hfd He Hc IH
                  |ai rest fd e b Hfd He Hb]; try discriminate.
  - destruct (IH Hr) as (-> & o & ->). split; [done|].
    by exists (EvSocket ai (-1) :: o).
  - injection Hr as <-. split; [done|]. by eexists [_; _].
  - destruct (IH Hr) as (-> & o & ->). split; [done|].
    by exists (EvSocket ai fd :: EvSetsockopt fd SOL_SOCKET SO_REUSEADDR 1 e
               :: EvBind fd ai (-1) :: o).
Qed.

(* a failed setsockopt() ends the candidate loop at once *)
Lemma candidates_run_setsockopt (w' : W) res r out o1 fd lvl opt v o2 :
  candidates_run w' res r out →
  out = o1 ++ EvSetsockopt fd lvl opt v (-1) :: o2 →
  r = Exit EXIT_FAILURE ∧ o2 = [diag w' "setsockopt"].
Proof.
  intros Hc. revert o1.
  induction Hc as [|ai rest r out Hc IH|ai rest fd' Hfd
                  |ai rest fd' e r out Hfd He Hc IH
                  |ai rest fd' e b Hfd He Hb]; intros o1 Heq; symmetry in Heq.
  - by destruct o1.
  - apply app_cons_eq_cons in Heq as [(_ & [=] & _)|(o1' & -> & Heq)].
    symmetry in Heq. eauto.
  - apply app_cons_eq_cons in Heq as [(_ & [=] & _)|(o1' & -> & Heq)].
    apply app_cons_eq_cons in Heq as [(-> & _ & <-)|(o1'' & -> & Heq)];
      [done|].
    apply app_cons_eq_cons in Heq as [(_ & [=] & _)|(o1' & -> & Heq)].
    by destruct o1'.
  - apply app_cons_eq_cons in Heq as [(_ & [=] & _)|(o1' & -> & Heq)].
    apply app_cons_eq_cons in Heq as [(_ & Hx & _)|(o1'' & -> & Heq)];
      [by inversion Hx; subst|].
    apply app_cons_eq_cons in Heq as [(_ & [=] & _)|(o1' & -> & Heq)].
    symmetry in Heq. eauto.
  - apply app_cons_eq_cons in Heq as [(_ & [=] & _)|(o1' & -> & Heq)].
    apply app_cons_eq_cons in Heq as [(_ & Hx & _)|(o1'' & -> & Heq)];
      [by inversion Hx; subst|].
    apply app_cons_eq_cons in Heq as [(_ & [=] & _)|(o1' & -> & Heq)].
    by destruct o1'.
Qed.

(* what the log of init_srv from getaddrinfo() on shows about its ending *)
Lemma listen_run_ending (w' : W) port_str res0 r out :
  listen_run w' port_str res0 r out →
  (∀ st, r = Exit st → st = EXIT_FAILURE ∧ ∃ o text, out = o ++ [EvStderr text]) ∧
  (∀ o1 fd lvl opt v o2,
     out = o1 ++ EvSetsockopt fd lvl opt v (-1) :: o2 →
     r = Exit EXIT_FAILURE ∧ o2 = [diag w' "setsockopt"]) ∧
  (∀ o1 o2, out = o1 ++ EvSigaction (-1) :: o2 →
     r = Exit EXIT_FAILURE ∧ o2 = [diag w' "sigaction"]) ∧
  (∀ fd, r = Ok fd →
     ∃ o l sg, out = o ++ [EvFreeaddrinfo; EvListen fd MAX_CONNS l;
                           EvSigaction sg] ∧
               l ≠ -1 ∧ sg ≠ -1).
Proof.
  intros Hl.
  assert (∀ rc outc tail,
    candidates_run w' res0 rc outc →
    out = EvGetaddrinfo None port_str init_srv_hints 0 :: outc ++ tail →
    (∀ fd lvl opt v, EvSetsockopt fd lvl opt v (-1) ∉ tail) →
    (rc = Exit EXIT_FAILURE → tail = [] ∧ r = Exit EXIT_FAILURE) →
    ∀ o1 fd lvl opt v o2,
      out = o1 ++ EvSetsockopt fd lvl opt v (-1) :: o2 →
      r = Exit EXIT_FAILURE ∧ o2 = [diag w' "setsockopt"]) as Hset.
  { intros rc outc tail Hc -> Htail Hrc o1 fd lvl opt v o2 Heq.
    symmetry in Heq.
    apply app_cons_eq_cons in Heq as [(_ & [=] & _)|(o1' & -> & Heq)].
    apply app_cons_eq_app in Heq as (o2' & Houtc & ->); [|apply Htail].
    destruct (candidates_run_setsockopt _ _ _ _ _ _ _ _ _ _ Hc Houtc)
      as [-> ->].
    destruct (Hrc eq_refl) as [-> ->]. done. }
  assert (∀ outc tail,
    Forall (λ e, is_candidate_event e = true) outc →
    out = EvGetaddrinfo None port_str init_srv_hints 0 :: outc ++ tail →
    ∀ o1 o2, out = o1 ++ EvSigaction (-1) :: o2 →
    ∃ t1, tail = t1 ++ EvSigaction (-1) :: o2) as Hsig.
  { intros outc tail Hev -> o1 o2 Heq. symmetry in Heq.
    apply app_cons_eq_cons in Heq as [(_ & [=] & _)|(o1' & -> & Heq)].
    symmetry in Heq.
    apply app_eq_app_cons in Heq as [(o2' & Heq & _)|(t1 & -> & Heq)].
    - rewrite Forall_forall in Hev.
      assert (EvSigaction (-1) ∈ outc) as Hin
        by (rewrite Heq; apply elem_of_middle).
      by apply Hev in Hin.
    - by exists t1. }
  destruct Hl as [err Herr|outc Hc|outc Hc|outc fd Hc|outc fd l Hc Hl
                 |outc fd l sg Hc Hl Hsg];
    try pose proof (candidates_run_events _ _ _ _ Hc) as Hev.
  - split_and!.
    + intros st [= <-]. split; [done|]. by eexists [_], _.
    + intros o1 fd lvl opt v o2 Heq. symmetry in Heq.
      apply app_cons_eq_cons in Heq as [(_ & [=] & _)|(o1' & -> & Heq)].
      apply app_cons_eq_cons in Heq as [(_ & [=] & _)|(o1'' & -> & Heq)].
      by destruct o1''.
    + intros o1 o2 Heq. symmetry in Heq.
      apply app_cons_eq_cons in Heq as [(_ & [=] & _)|(o1' & -> & Heq)].
      apply app_cons_eq_cons in Heq as [(_ & [=] & _)|(o1'' & -> & Heq)].
      by destruct o1''.
    + done.
  - split_and!.
    + intros st [= <-]. split; [done|].
      destruct (candidates_run_exit _ _ _ _ Hc) as (_ & o & ->).
      by eexists (_ :: o), _.
    + apply (Hset _ outc [] Hc); [by rewrite app_nil_r| |done].
      intros ???? Hin. by apply elem_of_nil in Hin.
    + intros o1 o2 Heq.
      destruct (Hsig outc [] Hev (eq_sym (f_equal _ (app_nil_r outc))) _ _ Heq)
        as [t1 Ht]. by destruct t1.
    + done.
  - split_and!.
    + intros st [= <-]. split; [done|]. eexists (_ :: outc), _. done.
    + apply (Hset _ outc _ Hc eq_refl); [|done].
      intros ???? Hin. by elem_cases Hin.
    + intros o1 o2 Heq. destruct (Hsig outc _ Hev eq_refl _ _ Heq) as [t1 Ht].
      destruct t1 as [|? [|? ?]]; discriminate.
    + done.
  - split_and!.
    + intros st [= <-]. split; [done|].
      eexists (_ :: outc ++ [_; _]), _. cbn. by rewrite <- app_assoc.
    + apply (Hset _ outc _ Hc eq_refl); [|done].
      unfold diag. intros ???? Hin. by elem_cases Hin.
    + intros o1 o2 Heq. destruct (Hsig outc _ Hev eq_refl _ _ Heq) as [t1 Ht].
      unfold diag in Ht.
      destruct t1 as [|? [|? [|? [|? ?]]]]; discriminate.
    + done.
  - split_and!.
    + intros st [= <-]. split; [done|].
      eexists (_ :: outc ++ [_; _; _]), _. cbn. by rewrite <- app_assoc.
    + apply (Hset _ outc _ Hc eq_refl); [|done].
      unfold diag. intros ???? Hin. by elem_cases Hin.
    + intros o1 o2 Heq. destruct (Hsig outc _ Hev eq_refl _ _ Heq) as [t1 Ht].
      unfold diag in Ht.
      destruct t1 as [|? [|? [|? [|? [|? ?]]]]]; try discriminate.
      by injection Ht as _ _ <-.
    + done.
  - split_and!.
    + done.
    + apply (Hset _ outc _ Hc eq_refl); [|done].
      intros ???? Hin. by elem_cases Hin.
    + intros o1 o2 Heq. destruct (Hsig outc _ Hev eq_refl _ _ Heq) as [t1 Ht].
      destruct t1 as [|? [|? [|? [|? ?]]]]; try discriminate.
      by injection Ht as _ _ ->.
    + intros fd' [= <-]. eexists (_ :: outc), l, sg. done.
Qed.

(* an exit of init_srv has status EXIT_FAILURE and follows a diagnostic *)
Lemma init_srv_exit port w st (w' : W) out :
  init_srv port w = (Exit st, w', out) →
  st = EXIT_FAILURE ∧ ∃ o text, out = o ++ [EvStderr text].
Proof.
  intros Hinit. apply init_srv_cases in Hinit as
    [(_ & out' & Hl & ->) | (_ & [=] & _)].
  destruct (listen_run_ending _ _ _ _ _ Hl) as (Hexit & _).
  destruct (Hexit st eq_refl) as (-> & o & text & ->).
  split; [done|]. exists (invalid_port_log port ++ o), text.
  by rewrite app_assoc.
Qed.

(** X4.  How init_srv can fail, beyond the cases of resolution, binding
    and listen: whenever it exits, the status is EXIT_FAILURE and the last
    thing it did was to print a diagnostic; a setsockopt() that fails is
    fatal at once, so the candidates after it are never tried, and so is a
    failing sigaction(); when init_srv returns a descriptor, the SIGCHLD
    handler has been installed as its last action.  init_srv never closes a
    descriptor: the socket of a candidate that did not bind stays open. *)
Theorem init_srv_endings port w r w' out :
  init_srv port w = (r, w', out) →
  (∀ st, r = Exit st →
         st = EXIT_FAILURE ∧ ∃ o text, out = o ++ [EvStderr text]) ∧
  (∀ o1 fd lvl opt v o2,
     out = o1 ++ EvSetsockopt fd lvl opt v (-1) :: o2 →
     r = Exit EXIT_FAILURE ∧
     o2 = [EvStderr ("ERROR on setsockopt: " +:+ strerror (errno w') +:+
                     newline)]) ∧
  (∀ o1 o2,
     out = o1 ++ EvSigaction (-1) :: o2 →
     r = Exit EXIT_FAILURE ∧
     o2 = [EvStderr ("ERROR on sigaction: " +:+ strerror (errno w') +:+
                     newline)]) ∧
  (∀ fd, r = Ok fd →
     ∃ o l sg, out = o ++ [EvFreeaddrinfo; EvListen fd MAX_CONNS l;
                           EvSigaction sg] ∧
               l ≠ -1 ∧ sg ≠ -1) ∧
  (∀ fd ret, EvClose fd ret ∉ out).
Proof.
  intros Hinit.
  pose proof (init_srv_startup _ _ _ _ _ Hinit) as Hstart.
  assert (∀ fd ret, EvClose fd ret ∉ out) as Hclose.
  { intros fd ret Hin. rewrite Forall_forall in Hstart.
    by apply Hstart in Hin. }
  apply init_srv_cases in Hinit as
    [(Hfit & out' & Hl & ->) | (Hfit & -> & _ & ->)].
  - destruct (listen_run_ending _ _ _ _ _ Hl) as (Hexit & Hset & Hsig & Hok).
    assert (∀ e, e ∈ invalid_port_log port → ∃ text, e = EvStderr text) as Hlog.
    { unfold invalid_port_log. destruct (_ || _); intros e Hin;
        [|by apply elem_of_nil in Hin].
      apply elem_of_cons in Hin as [->|Hin%elem_of_nil]; [eauto|done]. }
    split_and!; [| | | |done].
    + intros st Hst. destruct (Hexit st Hst) as (-> & o & text & ->).
      split; [done|]. exists (invalid_port_log port ++ o), text.
      by rewrite app_assoc.
    + intros o1 fd lvl opt v o2 Heq.
      apply app_eq_app_cons in Heq as [(o2' & Heq & _)|(o1' & -> & Heq)].
      * destruct (Hlog (EvSetsockopt fd lvl opt v (-1))) as [text [=]].
        rewrite Heq. apply elem_of_middle.
      * by apply Hset in Heq.
    + intros o1 o2 Heq.
      apply app_eq_app_cons in Heq as [(o2' & Heq & _)|(o1' & -> & Heq)].
      * destruct (Hlog (EvSigaction (-1))) as [text [=]].
        rewrite Heq. apply elem_of_middle.
      * by apply Hsig in Heq.
    + intros fd Hfd. destruct (Hok fd Hfd) as (o & l & sg & -> & ? & ?).
      exists (invalid_port_log port ++ o), l, sg. by rewrite app_assoc.
  - assert (∀ e, e ∈ invalid_port_log port → ∃ text, e = EvStderr text) as Hlog.
    { unfold invalid_port_log. destruct (_ || _); intros e Hin;
        [|by apply elem_of_nil in Hin].
      apply elem_of_cons in Hin as [->|Hin%elem_of_nil]; [eauto|done]. }
    split_and!; [done| | |done|done].
    + intros o1 fd lvl opt v o2 Heq.
      destruct (Hlog (EvSetsockopt fd lvl opt v (-1))) as [text [=]].
      rewrite Heq. apply elem_of_middle.
    + intros o1 o2 Heq.
      destruct (Hlog (EvSigaction (-1))) as [text [=]].
      rewrite Heq. apply elem_of_middle.
Qed.

Lemma run_undefined_cause c (w' : W) out :
  run c Undefined w' out → loop_inv c.2 →
  ∃ o cli, out = o ++ [EvAccept (srv_sockfd c.2) cli] ∧
           cli ≠ -1 ∧ ¬ (0 ≤ cli < FD_SETSIZE).
Proof.
  intros Hrun. remember Undefined as r eqn:Hr.
  induction Hrun as [c w'|c c1 w1 out1 r w' out2 Hs Hrun IH|c st w' out Hs
                    |c w' out Hs|c sig w' out Hs]; intros Hinv; try discriminate.
  - destruct (step_run_inv _ _ _ _ Hs Hinv) as (Hinv1 & _ & Hsame).
    destruct (IH Hr Hinv1) as (o & cli & -> & Hcli & Hrange).
    exists (out1 ++ o), cli. rewrite <- Hsame.
    split_and!; [by rewrite app_assoc|done..].
  - inversion Hs; subst. by exists [], cli.
Qed.

(** X5.  How raw() can end.  It never ends with success: when the process
    exits, the status is EXIT_FAILURE and the last event is a diagnostic on
    stderr.  Its behaviour becomes undefined in three cases only: the text of
    the port does not fit port_str, the listening descriptor lies outside
    [0, FD_SETSIZE), or accept() has just returned a descriptor outside
    [0, FD_SETSIZE), which FD_SET would write beyond the fd_set. *)
Theorem raw_endings port buf0 n w r w' out :
  raw port buf0 n w = (r, w', out) →
  (∀ st, r = Exit st →
         st = EXIT_FAILURE ∧ st ≠ 0 ∧ ∃ o text, out = o ++ [EvStderr text]) ∧
  (r = Undefined →
   ¬ fits_port_str port ∨
   (∃ srv w1, init_srv port w = (Ok srv, w1, out) ∧
              ¬ (0 ≤ srv < FD_SETSIZE)) ∨
   (∃ srv w1 o0 o cli,
      init_srv port w = (Ok srv, w1, o0) ∧
      out = o ++ [EvAccept srv cli] ∧
      cli ≠ -1 ∧ ¬ (0 ≤ cli < FD_SETSIZE))).
Proof.
  unfold raw, raw_init. rewrite !bind_run.
  destruct (init_srv port w) as [[r1 w1] out1] eqn:Hinit.
  destruct r1 as [srv|st| |sig]; [| | |by intros [= <- <- <-]].
  - unfold FD_SET. case_bool_decide as Hrange.
    + rewrite bind_run. unfold mret, M_ret, retM. cbn.
      destruct (steps n _ w1) as [[r2 w2] out2] eqn:Hsteps.
      rewrite app_nil_r. intros [= <- <- <-].
      apply steps_run in Hsteps. unfold FD_ZERO in Hsteps.
      rewrite (right_id_L ∅ (∪)) in Hsteps. split.
      * intros st ->. apply run_fatal in Hsteps
          as (-> & o & e & call & -> & _).
        split_and!; [done..|].
        exists (out1 ++ o ++ [e]),
          ("ERROR on " +:+ call +:+ ": " +:+ strerror (errno w2) +:+ newline).
        unfold diag. by rewrite <- !app_assoc.
      * intros ->. right. right.
        apply run_undefined_cause in Hsteps
          as (o & cli & -> & Hcli & Hbad).
        2:{ apply (initial_state_inv srv buf0). lia. }
        exists srv, w1, out1, (out1 ++ o), cli.
        split_and!; [done| |done..]. by rewrite app_assoc.
    + cbn. intros [= <- <- <-]. split; [done|]. intros _. right. left.
      exists srv, w1. by rewrite app_nil_r.
  - intros [= <- <- <-]. split; [|done]. intros st' [= <-].
    by destruct (init_srv_exit _ _ _ _ _ Hinit) as (-> & Hlast).
  - intros [= <- <- <-]. split; [done|]. intros _. left.
    by apply init_srv_cases in Hinit as [(_ & ? & Hl & _)|(? & _)];
      [apply listen_run_outcome in Hl as [[? [=]]|[=]]|].
Qed.

End Endings.

(** ** The text of the port *)

Section Ports.
Context {W : Type} `{!Kernel W}.

Lemma of_uint_acc_bound d acc :
  Z.pos (Pos.of_uint_acc d acc) <
  (Z.pos acc + 1) * 10 ^ Z.of_nat (Decimal.nb_digits d).
Proof.
  revert acc. induction d as [|d IH|d IH|d IH|d IH|d IH|d IH|d IH|d IH|d IH
                             |d IH]; intros acc;
    cbn [Pos.of_uint_acc Decimal.nb_digits]; [cbn; lia|..];
    rewrite Nat2Z.inj_succ, Z.pow_succ_r by lia;
    assert (0 < 10 ^ Z.of_nat (Decimal.nb_digits d)) by (apply Z.pow_pos_nonneg; lia);
    match goal with |- Z.pos (Pos.of_uint_acc _ ?k) < _ => specialize (IH k) end;
    set (P := 10 ^ Z.of_nat (Decimal.nb_digits d)) in *;
    set (X := Pos.of_uint_acc _ _) in *.
    all: rewrite ?Pos2Z.inj_add, ?Pos2Z.inj_mul in IH; nia.
Qed.

Lemma of_uint_bound d :
  Z.of_N (Pos.of_uint d) < 10 ^ Z.of_nat (Decimal.nb_digits d).
Proof.
  induction d as [|d IH|d IH|d IH|d IH|d IH|d IH|d IH|d IH|d IH|d IH];
    cbn [Pos.of_uint Decimal.nb_digits]; [cbn; lia|..];
    rewrite Nat2Z.inj_succ, Z.pow_succ_r by lia;
    assert (0 < 10 ^ Z.of_nat (Decimal.nb_digits d)) by (apply Z.pow_pos_nonneg; lia);
    [lia|cbn [Z.of_N]; match goal with
                       | |- Z.pos (Pos.of_uint_acc _ ?k) < _ =>
                           pose proof (of_uint_acc_bound d k)
                       end;
         set (P := 10 ^ Z.of_nat (Decimal.nb_digits d)) in *;
         set (X := Pos.of_uint_acc _ _) in *; nia..].
Qed.

Lemma to_uint_digits p :
  Z.pos p < 10 ^ Z.of_nat (Decimal.nb_digits (Pos.to_uint p)).
Proof.
  pose proof (of_uint_bound (Pos.to_uint p)) as Hb.
  by rewrite DecimalPos.Unsigned.of_to in Hb.
Qed.
Lemma string_of_uint_length d :
  String.length (NilEmpty.string_of_uint d) = Decimal.nb_digits d.
Proof. induction d; cbn; congruence. Qed.
Lemma string_of_uint_nonnil d :
  d ≠ Decimal.Nil → NilZero.string_of_uint d = NilEmpty.string_of_uint d.
Proof. by destruct d. Qed.

Lemma decimal_length port :
  String.length (decimal port) =
    match port with
    | 0 => 1%nat
    | Z.pos p => Decimal.nb_digits (Pos.to_uint p)
    | Z.neg p => S (Decimal.nb_digits (Pos.to_uint p))
    end.
Proof.
  unfold decimal. destruct port as [|p|p]; [done|..];
    cbn [Z.to_int NilZero.string_of_int];
    rewrite string_of_uint_nonnil by apply DecimalPos.Unsigned.to_uint_nonnil;
    cbn [String.length]; by rewrite string_of_uint_length.
Qed.

Lemma decimal_round_trip port :
  Z.of_int <$> NilZero.int_of_string (decimal port) = Some port.
Proof.
  unfold decimal. rewrite NilZero.isi.
  - cbn. by rewrite DecimalZ.of_to.
  - destruct port as [|p|p]; cbn; try done.
    intros [= Hp]. by apply DecimalPos.Unsigned.to_uint_nonnil in Hp.
  - destruct port as [|p|p]; cbn; try done.
    intros [= Hp]. by apply DecimalPos.Unsigned.to_uint_nonnil in Hp.
Qed.

(** X6.  Which ports init_srv can handle.  The decimal text of the port fits
    the six bytes of port_str exactly for -9999 <= port <= 99999, so the
    behaviour of init_srv is undefined exactly for the ports outside that
    interval (all of them invalid ports).  For the others the diagnostic
    "Invalid port" comes first exactly when the port is outside 1..65535,
    the next event is the getaddrinfo() call, and the service name it
    receives reads back as the port, so that distinct ports resolve distinct
    names. *)
Theorem init_srv_port_text port w r w' out :
  init_srv port w = (r, w', out) →
  (fits_port_str port ↔ -9999 ≤ port ≤ 99999) ∧
  (r = Undefined ↔ ¬ (-9999 ≤ port ≤ 99999)) ∧
  (-9999 ≤ port ≤ 99999 →
   ∃ err tail,
     out = (if bool_decide (1 ≤ port ≤ 65535) then []
            else [EvStderr ("Invalid port" +:+ newline)]) ++
           EvGetaddrinfo None (decimal port) init_srv_hints err :: tail ∧
     Z.of_int <$> NilZero.int_of_string (decimal port) = Some port ∧
     ∀ q, decimal q = decimal port → q = port).
Proof.
  intros Hinit.
  assert (fits_port_str port ↔ -9999 ≤ port ≤ 99999) as Hfits.
  { split; [|apply fits_port_str_range].
    unfold fits_port_str. rewrite decimal_length.
    destruct port as [|p|p]; [lia|..]; intros Hlen;
      pose proof (to_uint_digits p) as Hp;
      set (k := Decimal.nb_digits (Pos.to_uint p)) in *.
    - assert (10 ^ Z.of_nat k ≤ 10 ^ 5) by (apply Z.pow_le_mono_r; lia).
      change (10 ^ 5) with 100000 in *. lia.
    - assert (10 ^ Z.of_nat k ≤ 10 ^ 4) by (apply Z.pow_le_mono_r; lia).
      change (10 ^ 4) with 10000 in *. lia. }
  split; [done|].
  apply init_srv_cases in Hinit as
    [(Hfit & out' & Hl & ->) | (Hfit & -> & _ & ->)].
  - split.
    + split; [|intros Hn; destruct Hn; by apply Hfits].
      intros ->. by apply listen_run_outcome in Hl as [[? [=]]|[=]].
    + intros Hrange.
      assert (∃ err tail,
        out' = EvGetaddrinfo None (decimal port) init_srv_hints err :: tail)
        as (err & tail & ->) by (destruct Hl; eauto).
      exists err, tail. split_and!.
      * f_equal. unfold invalid_port_log.
        case_bool_decide as Hv.
        -- destruct (Z.ltb_spec port 1), (Z.gtb_spec port 65535); try lia. done.
        -- destruct (Z.ltb_spec port 1), (Z.gtb_spec port 65535); try done. lia.
      * apply decimal_round_trip.
      * intros q Hq. pose proof (decimal_round_trip q) as Hrt.
        rewrite Hq, decimal_round_trip in Hrt. by injection Hrt.
  - split; [by rewrite <- Hfits|]. intros Hr. by apply Hfits in Hr.
Qed.

End Ports.

(** ** Progress of a pass, and the size of buf *)

Section Progress.
Context {W : Type} `{!Kernel W}.

Lemma steps_S n c w :
  steps (S n) c w =
    match step c w with
    | (Ok c1, w1, out1) =>
        let '(r, w2, out2) := steps n c1 w1 in (r, w2, out1 ++ out2)
    | (Exit st, w1, out1) => (Exit st, w1, out1)
    | (Undefined, w1, out1) => (Undefined, w1, out1)
    | (Killed sig, w1, out1) => (Killed sig, w1, out1)
    end.
Proof. cbn [steps]. apply bind_run. Qed.

(* a turn of the for loop moves on to i + 1 and calls no select() *)
Lemma step_run_turn rd i s r (w' : W) out :
  step_run (Dispatching rd i, s) r w' out →
  Forall (λ e, is_select e = false) out ∧
  (i ≤ fdmax s → ∀ c', r = Ok c' → c'.1 = Dispatching rd (i + 1)) ∧
  (fdmax s < i → r = Ok (Waiting, s) ∧ out = []).
Proof.
  intros Hs. inversion Hs; subst; cbn [fst snd];
    (split_and!; [|try (intros; lia); by intros _ c' [= <-]
                  |try (intros; lia); done]);
    repeat first [apply Forall_nil_2 | apply Forall_cons_2; [done|]];
    match goal with
    | Hf : fanout_run _ _ _ _ _ |- _ =>
        apply fanout_run_inert in Hf;
        by eapply Forall_impl; [exact Hf|intros ? [_ ?]]
    end.
Qed.

(** X7.  The for loop of raw() always comes to an end.  From any turn i of
    a pass, with fdmax inside the fd_set, at most FD_SETSIZE - i further
    turns are made, although an accept() may raise fdmax while the pass is
    under way: then either the process has ended, or the loop has been left
    and select() is the next call; no select() is made before that. *)
Theorem pass_ends rd i s w :
  0 ≤ fdmax s < FD_SETSIZE →
  ∃ n r w' out,
    (n ≤ Z.to_nat (FD_SETSIZE - i) + 1)%nat ∧
    steps n (Dispatching rd i, s) w = (r, w', out) ∧
    Forall (λ e, is_select e = false) out ∧
    ∀ c, r = Ok c → c.1 = Waiting ∧ fdmax s ≤ fdmax c.2 < FD_SETSIZE.
Proof.
  remember (Z.to_nat (FD_SETSIZE - i)) as m eqn:Hm.
  revert i s w Hm. induction m as [|m IH]; intros i s w Hm Hb.
  - exists 1%nat, (Ok (Waiting, s)), w, []. split_and!; [lia| |done|].
    + rewrite steps_S. unfold step. cbn [fst snd].
      destruct (Z.leb_spec i (fdmax s)); [lia|done].
    + intros c [= <-]. cbn. split; [done|lia].
  - destruct (step (Dispatching rd i, s) w) as [[r1 w1] out1] eqn:Hstep.
    pose proof (step_cases _ _ _ _ _ Hstep) as Hrun.
    destruct (step_run_turn _ _ _ _ _ _ Hrun) as (Hsel & Hnext & Hend).
    destruct (decide (i ≤ fdmax s)) as [Hi|Hi].
    + destruct r1 as [[ph1 s1]|st| |sig].
      * specialize (Hnext Hi _ eq_refl). cbn in Hnext. subst ph1.
        pose proof (step_run_fdmax_bound _ _ _ _ Hrun Hb) as Hb1.
        assert (fdmax s ≤ fdmax s1) as Hmono.
        { clear -Hrun. inversion Hrun; subst; cbn [fdmax]; try lia.
          destruct (Z.gtb_spec cli (fdmax s)); lia. }
        cbn [snd] in Hb1.
        destruct (IH (i + 1) s1 w1) as (n & r & w' & out & Hn & Hsteps &
                                         Hsel' & Hok); [lia|done|].
        exists (S n), r, w', (out1 ++ out). split_and!; [lia| | |].
        -- by rewrite steps_S, Hstep, Hsteps.
        -- by apply Forall_app.
        -- intros c Hc. destruct (Hok c Hc). split; [done|lia].
      * exists 1%nat, (Exit st), w1, out1.
        split_and!; [lia|by rewrite steps_S, Hstep|done..].
      * exists 1%nat, Undefined, w1, out1.
        split_and!; [lia|by rewrite steps_S, Hstep|done..].
      * exists 1%nat, (Killed sig), w1, out1.
        split_and!; [lia|by rewrite steps_S, Hstep|done..].
    + destruct Hend as [-> ->]; [lia|].
      exists 1%nat, (Ok (Waiting, s)), w1, [].
      split_and!; [lia|by rewrite steps_S, Hstep|done|].
      intros c [= <-]. cbn. split; [done|lia].
Qed.

(** X8.  A pass over descriptors that are not ready does nothing: when no
    descriptor from i to fdmax is in read_fds, the rest of the pass makes
    no system call, leaves master, fdmax and buf as they are, and hands
    control back to select(). *)
Theorem idle_pass rd i s w :
  i ≤ fdmax s + 1 →
  (∀ x, i ≤ x ≤ fdmax s → x ∉ rd) →
  steps (Z.to_nat (fdmax s + 1 - i) + 1) (Dispatching rd i, s) w =
    (Ok (Waiting, s), w, []).
Proof.
  remember (Z.to_nat (fdmax s + 1 - i)) as m eqn:Hm.
  revert i Hm. induction m as [|m IH]; intros i Hm Hi Hrd.
  - cbn [Nat.add]. rewrite steps_S. unfold step. cbn [fst snd].
    destruct (Z.leb_spec i (fdmax s)); [lia|done].
  - change (S m + 1)%nat with (S (m + 1)). rewrite steps_S.
    unfold step at 1. cbn [fst snd].
    destruct (Z.leb_spec i (fdmax s)); [|lia].
    rewrite bind_run. unfold dispatch, FD_ISSET.
    rewrite bool_decide_eq_false_2 by (apply Hrd; lia).
    unfold mret, M_ret, retM. cbn beta iota zeta.
    rewrite IH; [done|lia|lia|]. intros x Hx. apply Hrd. lia.
Qed.

Lemma step_run_buf_length c c' (w' : W) out :
  step_run c (Ok c') w' out →
  length (buf c.2) = Z.to_nat MAX_BUF → length (buf c'.2) = Z.to_nat MAX_BUF.
Proof.
  intros Hs. inversion Hs; subst; cbn [fst snd buf]; try done.
  intros Hlen. rewrite length_app, length_drop. lia.
Qed.

Lemma fanout_run_write_data (w' : W) data js r out j d ret :
  fanout_run w' data js r out → EvWrite j d ret ∈ out → d = data.
Proof.
  induction 1 as [|j0 js r out ret0 Hret Hf IH|j0 js Hsig|j0 js Hsig]; intros Hin.
  - by apply elem_of_nil in Hin.
  - apply elem_of_cons in Hin as [[= _ -> _]|Hin]; [done|by apply IH].
  - unfold diag in Hin. apply elem_of_cons in Hin as [[= _ -> _]|Hin];
      [done|]. by elem_cases Hin.
  - unfold diag in Hin. apply elem_of_cons in Hin as [[= _ -> _]|Hin];
      [done|]. by elem_cases Hin.
Qed.

Lemma step_run_write_length c r (w' : W) out j d ret :
  step_run c r w' out → EvWrite j d ret ∈ out →
  d ≠ [] ∧ Z.of_nat (length d) ≤ MAX_BUF.
Proof.
  intros Hs Hin. inversion Hs; subst; unfold diag in Hin;
    try (by elem_cases Hin);
    (apply elem_of_cons in Hin as [[=]|Hin]);
    match goal with
    | Hf : fanout_run _ _ _ _ _ |- _ =>
        by rewrite (fanout_run_write_data _ _ _ _ _ _ _ _ Hf Hin)
    end.
Qed.

Lemma run_buf_length c r (w' : W) out :
  run c r w' out →
  length (buf c.2) = Z.to_nat MAX_BUF →
  (∀ c', r = Ok c' → length (buf c'.2) = Z.to_nat MAX_BUF) ∧
  (∀ j d ret, EvWrite j d ret ∈ out →
     d ≠ [] ∧ Z.of_nat (length d) ≤ MAX_BUF).
Proof.
  induction 1 as [c w'|c c1 w1 out1 r w' out2 Hs Hrun IH|c st w' out Hs
                 |c w' out Hs|c sig w' out Hs]; intros Hlen.
  - split; [by intros c' [= <-]|]. intros j d ret Hin.
    by apply elem_of_nil in Hin.
  - destruct (IH (step_run_buf_length _ _ _ _ Hs Hlen)) as [IH1 IH2].
    split; [done|]. intros j d ret [Hin|Hin]%elem_of_app.
    + by eapply step_run_write_length.
    + by eapply IH2.
  - split; [done|]. intros j d ret Hin. by eapply step_run_write_length.
  - split; [done|]. intros j d ret Hin. by eapply step_run_write_length.
  - split; [done|]. intros j d ret Hin. by eapply step_run_write_length.
Qed.

(** X9.  buf keeps its size: when raw() starts with a buf of MAX_BUF bytes,
    buf has MAX_BUF bytes at every point the loop reaches, whatever was
    read; and every write() hands over at least one byte and at most
    MAX_BUF bytes, so it never reads past the end of buf and never issues an
    empty write. *)
Theorem buf_keeps_size port buf0 n w r w' out :
  raw port buf0 n w = (r, w', out) →
  length buf0 = Z.to_nat MAX_BUF →
  (∀ c, r = Ok c → length (buf c.2) = Z.to_nat MAX_BUF) ∧
  (∀ j d ret, EvWrite j d ret ∈ out →
     d ≠ [] ∧ (length d ≤ length buf0)%nat).
Proof.
  intros Hraw Hlen.
  apply raw_cases in Hraw as (out1 & out2 & -> & Hstart &
    [[-> Hr]|(srv & w1 & _ & _ & Hrun)]).
  - split; [intros c ->; by destruct (Hr c)|].
    intros j d ret Hin. rewrite app_nil_r in Hin.
    rewrite Forall_forall in Hstart. by apply Hstart in Hin.
  - apply run_buf_length in Hrun as [Hbuf Hwr]; [|done].
    split; [done|]. intros j d ret [Hin|Hin]%elem_of_app.
    + rewrite Forall_forall in Hstart. by apply Hstart in Hin.
    + destruct (Hwr _ _ _ Hin). split; [done|lia].
Qed.

Lemma fanout_run_loop_calls (w' : W) data js r out :
  fanout_run w' data js r out → Forall (λ e, is_setup_call e = false) out.
Proof. induction 1; repeat constructor; auto. Qed.

Lemma step_run_loop_calls c r (w' : W) out :
  step_run c r w' out → Forall (λ e, is_setup_call e = false) out.
Proof.
  intros Hs. inversion Hs; subst;
    repeat first [apply Forall_nil_2 | apply Forall_cons_2; [done|]];
    by eapply fanout_run_loop_calls.
Qed.

Lemma run_loop_calls c r (w' : W) out :
  run c r w' out → Forall (λ e, is_setup_call e = false) out.
Proof.
  induction 1; [constructor|apply Forall_app; split; [|done]|..];
    by eapply step_run_loop_calls.
Qed.

(** X10.  The listening socket is set up once, before the loop.  Any
    select(), accept(), read(), write() or close() of a run of raw() comes
    after a listen() and a sigaction() that both succeeded, no loop call
    comes before them, and from the sigaction() on no call of the set-up
    (getaddrinfo, socket, setsockopt, bind, freeaddrinfo, listen, sigaction)
    is made again. *)
Theorem setup_precedes_loop port buf0 n w r w' out :
  raw port buf0 n w = (r, w', out) →
  ∀ o1 e o2, out = o1 ++ e :: o2 → is_loop_call e = true →
    ∃ pre fd l sg mid,
      o1 = pre ++ EvListen fd MAX_CONNS l :: EvSigaction sg :: mid ∧
      l ≠ -1 ∧ sg ≠ -1 ∧
      Forall (λ e', is_loop_call e' = false) pre ∧
      Forall (λ e', is_setup_call e' = false) (mid ++ e :: o2).
Proof.
  intros Hraw o1 e o2 Heq He.
  apply raw_cases in Hraw as (out1 & out2 & -> & Hstart &
    [[-> Hr]|(srv & w1 & Hinit & _ & Hrun)]).
  - rewrite app_nil_r in Heq. subst out1. rewrite Forall_forall in Hstart.
    specialize (Hstart e (elem_of_middle _ _ _)). by destruct e.
  - apply app_eq_app_cons in Heq as [(o2' & -> & _)|(o1' & -> & Heq)].
    { rewrite Forall_forall in Hstart.
      specialize (Hstart e (elem_of_middle _ _ _)). by destruct e. }
    apply run_loop_calls in Hrun. rewrite Heq in Hrun.
    apply init_srv_cases in Hinit as
      [(_ & out' & Hl & ->) | (_ & [=] & _)].
    destruct (listen_run_ending _ _ _ _ _ Hl) as (_ & _ & _ & Hok).
    destruct (Hok srv eq_refl) as (o & l & sg & -> & Hlisten & Hsig).
    exists (invalid_port_log port ++ o ++ [EvFreeaddrinfo]), srv, l, sg, o1'.
    split_and!; [by rewrite <- !app_assoc|done..| |done].
    rewrite app_assoc in Hstart. apply Forall_app in Hstart as [Hstart _].
    rewrite app_assoc, Forall_app. split.
    + eapply Forall_impl; [exact Hstart|]. by intros [].
    + by repeat constructor.
Qed.

End Progress.

(** ** Worked runs on the scripted kernel *)

Import Script.

Lemma three_clients_inv : loop_inv three_clients.
Proof.
  split; cbn.
  - set_solver.
  - intros x Hx. set_unfold. lia.
Defined.

(* the scenario of three clients: "hello" from 4 reaches 5 and 6, "hi" from
   5 reaches 4 and 6, and after 6 has closed "ping" from 4 reaches 5 only *)
Example relay_scenario :
  writes_of (raw 6601 zeros 60 (boot relay_script)).2 =
    [(5, hello); (6, hello); (4, hi); (6, hi); (5, ping)].
Proof. vm_compute. reflexivity. Qed.

Lemma C1_witness :
  ∃ recipients tail,
    StronglySorted Z.lt recipients ∧
    (∀ j, j ∈ recipients ↔ j ∈ master three_clients ∧ j ≠ 3 ∧ j ≠ 4) ∧
    0 < 5 ∧
    (step (Dispatching {[4]} 4, three_clients)
          (boot [RData hello; RInt 5; RInt 5])).2 =
      EvRead 4 MAX_BUF 5 hello :: tail ∧
    writes_of tail `prefix_of` ((λ j, (j, hello)) <$> recipients) ∧
    (∀ c, (step (Dispatching {[4]} 4, three_clients)
                (boot [RData hello; RInt 5; RInt 5])).1.1 = Ok c →
          writes_of tail = (λ j, (j, hello)) <$> recipients) ∧
    ((∀ j d, EvWrite j d (-1) ∉ tail) →
     ∃ c, (step (Dispatching {[4]} 4, three_clients)
                (boot [RData hello; RInt 5; RInt 5])).1.1 = Ok c) ∧
    (master three_clients = {[3; 4]} →
     recipients = [] ∧ tail = [] ∧
     ∃ c, (step (Dispatching {[4]} 4, three_clients)
                (boot [RData hello; RInt 5; RInt 5])).1.1 = Ok c).
Proof.
  eapply (C1_broadcast_to_others {[4]} 4 three_clients
            (boot [RData hello; RInt 5; RInt 5]) hello (boot [RInt 5; RInt 5])).
  - exact three_clients_inv.
  - vm_compute. discriminate.
  - reflexivity.
  - discriminate.
  - reflexivity.
  - discriminate.
  - vm_compute. reflexivity.
Defined.

Lemma C2_witness :
  step (Dispatching {[6]} 6, three_clients) (boot [RData []; RInt 0]) =
    (Ok (Dispatching {[6]} 7,
         {| srv_sockfd := 3; master := {[3; 4; 5; 6]} ∖ {[6]}; fdmax := 6;
            buf := zeros |}),
     boot [], [EvRead 6 MAX_BUF 0 []; EvClose 6 0]) ∧
  (6 ∉ {[3; 4; 5; 6]} ∖ ({[6]} : fd_set)) ∧
  (∀ j, j ≠ 6 →
        (j ∈ {[3; 4; 5; 6]} ∖ ({[6]} : fd_set) ↔ j ∈ master three_clients)) ∧
  ∀ n ph w3 r w4 out,
    steps n (ph, {| srv_sockfd := 3; master := {[3; 4; 5; 6]} ∖ {[6]};
                    fdmax := 6; buf := zeros |}) w3 = (r, w4, out) →
    ∀ o1 d ret o2, out = o1 ++ EvWrite 6 d ret :: o2 →
    ∃ sv, EvAccept sv 6 ∈ o1.
Proof.
  apply (C2_orderly_close {[6]} 6 three_clients (boot [RData []; RInt 0])
           (boot [RInt 0]) 0 (boot [])).
  - vm_compute. discriminate.
  - reflexivity.
  - discriminate.
  - reflexivity.
  - reflexivity.
Defined.

Lemma C3_witness :
  MAX_BUF = 255 ∧
  forwarded 4 5 (steps 18 (Waiting, three_clients) (boot long_script)).2 =
    [replicate 255 x41; replicate 45 x41] ∧
  chunks_read 4 (steps 18 (Waiting, three_clients) (boot long_script)).2 =
    [replicate 255 x41; replicate 45 x41] ∧
  (2 ≤ length
         (forwarded 4 5
            (steps 18 (Waiting, three_clients) (boot long_script)).2))%nat.
Proof.
  assert (steps 18 (Waiting, three_clients) (boot long_script) =
          ((steps 18 (Waiting, three_clients) (boot long_script)).1.1,
           (steps 18 (Waiting, three_clients) (boot long_script)).1.2,
           (steps 18 (Waiting, three_clients) (boot long_script)).2)) as Hrun
    by (vm_compute; reflexivity).
  destruct (C3_fragments_in_order _ _ _ _ _ _ Hrun) as (Hmax & _ & Hfrag).
  assert ((steps 18 (Waiting, three_clients) (boot long_script)).1.1 =
          Ok (Waiting, {| srv_sockfd := 3; master := {[3; 4; 5; 6]};
                          fdmax := 6;
                          buf := replicate 45 x41 ++ replicate 210 x41 |}))
    as Hok by (vm_compute; reflexivity).
  destruct (Hfrag _ 4 5 Hok three_clients_inv) as (Heq & _ & _ & Htwo).
  - vm_compute. set_solver.
  - discriminate.
  - discriminate.
  - intros ret Hin. vm_compute in Hin. by elem_cases Hin.
  - split_and!; [exact Hmax| | |].
    + rewrite Heq. vm_compute. reflexivity.
    + vm_compute. reflexivity.
    + apply Htwo. vm_compute. lia.
Defined.

(** C4.  A failed select(), read() or write() is meant to end the process
    with one diagnostic that names the call and a non-zero exit status.  For
    a write() to a client whose peer has gone it does not: the write fails
    with EPIPE and raises SIGPIPE, whose disposition rawd.c never changes, so
    the process is terminated by the signal inside the call.  In the run
    below client 4 sends "hello", the write to 5 succeeds and the write to 6
    fails with EPIPE: the write is the last event of the log, no diagnostic is
    printed, and the process ends by SIGPIPE, not by an exit with a
    status. *)
Theorem C4_write_failure_sigpipe :
  sigpipe_ignored (W:=world) = false ∧
  sys_write 6 hello (boot [RFail EPIPE]) = (-1, (EPIPE, [])) ∧
  failed_call (EvWrite 6 hello (-1)) = Some "write" ∧
  (steps 9 (Waiting, three_clients) (boot broken_pipe_script)).2 =
    [EvSelect 7 {[3; 4; 5; 6]} 1 {[4]}; EvRead 4 MAX_BUF 5 hello;
     EvWrite 5 hello 5; EvWrite 6 hello (-1)] ∧
  (steps 9 (Waiting, three_clients) (boot broken_pipe_script)).1.1 =
    Killed SIGPIPE ∧
  (∀ text,
     EvStderr text ∉
       (steps 9 (Waiting, three_clients) (boot broken_pipe_script)).2) ∧
  (∀ st,
     (steps 9 (Waiting, three_clients) (boot broken_pipe_script)).1.1 ≠
       Exit st).
Proof.
  split_and!.
  - reflexivity.
  - reflexivity.
  - reflexivity.
  - vm_compute. reflexivity.
  - vm_compute. reflexivity.
  - intros text Hin. vm_compute in Hin. by elem_cases Hin.
  - intros st Heq. vm_compute in Heq. discriminate Heq.
Qed.

(* the same run seen through failed_call_ends_process: the failed write falls
   under its second case *)
Example broken_pipe_run :
  ∀ o1 e o2 call,
    (steps 9 (Waiting, three_clients) (boot broken_pipe_script)).2 =
      o1 ++ e :: o2 →
    failed_call e = Some call →
    o2 = [] ∧ call = "write" ∧
    raises_sigpipe (-1) ((EPIPE, []) : world) = true.
Proof.
  intros o1 e o2 call Hout He.
  assert (steps 9 (Waiting, three_clients) (boot broken_pipe_script) =
          (Killed SIGPIPE, (EPIPE, []),
           (steps 9 (Waiting, three_clients) (boot broken_pipe_script)).2))
    as Hrun by (vm_compute; reflexivity).
  destruct (failed_call_ends_process _ _ _ _ _ _ Hrun) as [_ Hfail].
  destruct (Hfail _ _ _ _ Hout He) as (_ & _ & [([=] & _)|(_ & ? & ? & ?)]).
  done.
Qed.

Lemma C5_witness :
  (∃ c, (raw 6601 zeros 60 (boot relay_script)).1.1 = Ok c ∧
        srv_sockfd c.2 ∈ master c.2 ∧ 6 ∉ master c.2) ∧
  (∀ ret, EvClose 3 ret ∉ (raw 6601 zeros 60 (boot relay_script)).2) ∧
  (∀ o1 j ret o2 d ret' o3,
     (raw 6601 zeros 60 (boot relay_script)).2 =
       o1 ++ EvClose j ret :: o2 ++ EvWrite j d ret' :: o3 →
     ∃ sv, EvAccept sv j ∈ o2).
Proof.
  assert (raw 6601 zeros 60 (boot relay_script) =
          ((raw 6601 zeros 60 (boot relay_script)).1.1,
           (raw 6601 zeros 60 (boot relay_script)).1.2,
           (raw 6601 zeros 60 (boot relay_script)).2)) as Hrun
    by (vm_compute; reflexivity).
  destruct (C5_listener_stays_clients_leave _ _ _ _ _ _ _ Hrun)
    as (Hsrv & Hin & Hgone & Hwrite).
  split_and!.
  - set (c := (Waiting,
               {| srv_sockfd := 3; master := {[3; 4; 5; 6]} ∖ {[6]};
                  fdmax := 6; buf := ping ++ drop 4 (hi ++ drop 2
                                       (hello ++ drop 5 zeros)) |})).
    assert ((raw 6601 zeros 60 (boot relay_script)).1.1 = Ok c) as Hok
      by (vm_compute; reflexivity).
    exists c. split_and!; [exact Hok|exact (Hin c Hok)|].
    apply (Hgone c
             (take 23 (raw 6601 zeros 60 (boot relay_script)).2) 6 0
             (drop 24 (raw 6601 zeros 60 (boot relay_script)).2) Hok).
    + vm_compute. reflexivity.
    + intros sv Hacc. vm_compute in Hacc. by elem_cases Hacc.
  - intros ret. eapply Hsrv. vm_compute. reflexivity.
  - exact Hwrite.
Defined.


Example invalid_port_70000 :
  init_srv 70000 (boot startup) =
    ((init_srv_listen (decimal 70000) (boot startup)).1.1,
     (init_srv_listen (decimal 70000) (boot startup)).1.2,
     EvStderr ("Invalid port" +:+ newline) ::
       (init_srv_listen (decimal 70000) (boot startup)).2) ∧
  (init_srv 70000 (boot startup)).1.1 = Ok 3.
Proof.
  split; [|by vm_compute].
  apply (invalid_port_goes_on 70000 (boot startup)).
  - right. reflexivity.
  - split; discriminate.
Qed.

(** C7.  A port outside 1..65535 is reported on stderr and start-up is meant
    to go on to address resolution as for a valid port.  At port 100000 it
    does not: the port is invalid, its text "100000" with the terminating NUL
    needs seven bytes and does not fit the six bytes of port_str, so the
    sprintf() that follows the report writes past the array; the run is
    undefined from there and no getaddrinfo() call is made. *)
Theorem C7_port_str_overflow :
  invalid_port 100000 ∧
  ¬ fits_port_str 100000 ∧
  init_srv 100000 (boot startup) =
    (Undefined, boot startup, [EvStderr ("Invalid port" +:+ newline)]) ∧
  ∀ node service hints err,
    EvGetaddrinfo node service hints err ∉ (init_srv 100000 (boot startup)).2.
Proof.
  split_and!.
  - right. reflexivity.
  - by vm_compute.
  - vm_compute. reflexivity.
  - intros node service hints err Hin. vm_compute in Hin. by elem_cases Hin.
Qed.

Lemma C8_witness :
  (4 ≠ -1 → init_cli 3 (boot [RInt 4]) = (Ok 4, boot [], [EvAccept 3 4])) ∧
  (4 = -1 →
   init_cli 3 (boot [RInt 4]) =
     (Exit EXIT_FAILURE, boot [],
      [EvAccept 3 (-1);
       EvStderr ("ERROR on accept: " +:+ strerror (errno (boot [])) +:+
                 newline)]) ∧
   EXIT_FAILURE ≠ 0).
Proof.
  apply (C8_accept_once_fatal_on_failure 3 (boot [RInt 4]) 4 (boot [])).
  reflexivity.
Defined.

(* accept() fails with ECONNABORTED, a retryable error, and init_cli ends
   the process *)
Lemma C8_counterexample :
  sys_accept 3 (boot [RFail ECONNABORTED]) = (-1, (ECONNABORTED, [])) ∧
  retryable_errno (errno (ECONNABORTED, [])) = true ∧
  init_cli 3 (boot [RFail ECONNABORTED]) =
    (Exit EXIT_FAILURE, (ECONNABORTED, []),
     [EvAccept 3 (-1); diag (ECONNABORTED, []) "accept"]).
Proof. split_and!; vm_compute; reflexivity. Qed.

Lemma C9_witness :
  (∀ nfds readfds ret ready,
     EvSelect nfds readfds ret ready ∈
       (raw 6601 zeros 60 (boot relay_script)).2 →
     ∀ x, x ∈ readfds → 0 ≤ x < nfds) ∧
  ∃ c, (raw 6601 zeros 60 (boot relay_script)).1.1 = Ok c ∧
       srv_sockfd c.2 ∈ master c.2 ∧
       (∀ x, x ∈ master c.2 → 0 ≤ x ≤ fdmax c.2) ∧
       fdmax c.2 = 6.
Proof.
  assert (raw 6601 zeros 60 (boot relay_script) =
          ((raw 6601 zeros 60 (boot relay_script)).1.1,
           (raw 6601 zeros 60 (boot relay_script)).1.2,
           (raw 6601 zeros 60 (boot relay_script)).2)) as Hrun
    by (vm_compute; reflexivity).
  destruct (C9_master_within_fdmax _ _ _ _ _ _ _ Hrun) as (Hsel & Hinv).
  split; [exact Hsel|].
  set (c := (Waiting,
             {| srv_sockfd := 3; master := {[3; 4; 5; 6]} ∖ {[6]};
                fdmax := 6; buf := ping ++ drop 4 (hi ++ drop 2
                                     (hello ++ drop 5 zeros)) |})).
  assert ((raw 6601 zeros 60 (boot relay_script)).1.1 = Ok c) as Hok
    by (vm_compute; reflexivity).
  destruct (Hinv c Hok) as (Hsrv & Hbound & _).
  exists c. split_and!; [exact Hok|exact Hsrv|exact Hbound|reflexivity].
Defined.

Lemma C10_witness :
  (steps 9 (Waiting, three_clients)
         (boot [RReady 1 {[4]}; RData hello; RInt 5; RInt 5])).2 =
  (steps 9 (Waiting, three_clients_dirty)
         (boot [RReady 1 {[4]}; RData hello; RInt 5; RInt 5])).2 ∧
  writes_of
    (steps 9 (Waiting, three_clients_dirty)
           (boot [RReady 1 {[4]}; RData hello; RInt 5; RInt 5])).2 =
    [(5, hello); (6, hello)].
Proof.
  destruct (C10_old_buffer_never_sent 9 (Waiting, three_clients)
              (Waiting, three_clients_dirty)
              (boot [RReady 1 {[4]}; RData hello; RInt 5; RInt 5]))
    as (Hlog & _).
  - repeat split.
  - split; [exact Hlog|]. vm_compute. reflexivity.
Defined.

(* the order of service in the scenario of three clients *)
Lemma pass_serves_ready_ascending_witness :
  (∀ o1 e fd o2,
     (raw 6601 zeros 60 (boot relay_script)).2 = o1 ++ e :: o2 →
     served e = Some fd →
     ∃ pre nfds rdset ret ready mid,
       o1 = pre ++ EvSelect nfds rdset ret ready :: mid ∧
       Forall (λ e', is_select e' = false) mid ∧ 0 ≤ fd ∧ fd ∈ ready ∧
       ∀ e' fd', e' ∈ mid → served e' = Some fd' → fd' < fd) ∧
  (∀ srv w1 o0,
     init_srv 6601 (boot relay_script) = (Ok srv, w1, o0) →
     (∀ fd cli, EvAccept fd cli ∈ (raw 6601 zeros 60 (boot relay_script)).2 →
                fd = srv) ∧
     (∀ fd cnt k d,
        EvRead fd cnt k d ∈ (raw 6601 zeros 60 (boot relay_script)).2 →
        fd ≠ srv)).
Proof.
  apply (pass_serves_ready_ascending 6601 zeros 60 (boot relay_script)
           (raw 6601 zeros 60 (boot relay_script)).1.1
           (raw 6601 zeros 60 (boot relay_script)).1.2).
  vm_compute. reflexivity.
Defined.

Lemma select_watches_registered_witness :
  init_srv 6601 (boot relay_script) =
    (Ok 3, (init_srv 6601 (boot relay_script)).1.2,
     (init_srv 6601 (boot relay_script)).2) ∧
  ∀ o1 nfds rd ret ready o2,
    (raw 6601 zeros 60 (boot relay_script)).2 =
      o1 ++ EvSelect nfds rd ret ready :: o2 →
    rd = live {[3]} o1 ∧ 3 ∈ rd ∧
    (∀ x, x ∈ rd → x = 3 ∨ ∃ sv, EvAccept sv x ∈ o1) ∧
    (∀ x cret o3 o4, o1 = o3 ++ EvClose x cret :: o4 →
       (∀ sv, EvAccept sv x ∉ o4) → x ∉ rd).
Proof.
  split; [vm_compute; reflexivity|].
  apply (select_watches_registered 6601 zeros 60 (boot relay_script)
           (raw 6601 zeros 60 (boot relay_script)).1.1
           (raw 6601 zeros 60 (boot relay_script)).1.2
           (raw 6601 zeros 60 (boot relay_script)).2 3
           (init_srv 6601 (boot relay_script)).1.2
           (init_srv 6601 (boot relay_script)).2).
  - vm_compute. reflexivity.
  - vm_compute. reflexivity.
Defined.

Lemma no_replay_to_newcomer_witness :
  writes_of (raw 6601 zeros 60 (boot relay_script)).2 =
    [(5, hello); (6, hello); (4, hi); (6, hi); (5, ping)] ∧
  ∀ o1 j d ret o2,
    (raw 6601 zeros 60 (boot relay_script)).2 = o1 ++ EvWrite j d ret :: o2 →
    ∃ pre i cnt k ws sv,
      o1 = pre ++ EvRead i cnt k d :: ws ∧
      Forall (λ e, is_write e = true) ws ∧ i ≠ j ∧ EvAccept sv j ∈ pre.
Proof.
  split; [vm_compute; reflexivity|].
  apply (no_replay_to_newcomer 6601 zeros 60 (boot relay_script)
           (raw 6601 zeros 60 (boot relay_script)).1.1
           (raw 6601 zeros 60 (boot relay_script)).1.2).
  vm_compute. reflexivity.
Defined.

(* start-up where the first candidate does not bind: descriptor 3 is left
   open *)
Lemma init_srv_endings_witness :
  (∀ st, (init_srv 6601 (boot second_candidate_script)).1.1 = Exit st →
         st = EXIT_FAILURE ∧
         ∃ o text, (init_srv 6601 (boot second_candidate_script)).2 =
                   o ++ [EvStderr text]) ∧
  (∀ o1 fd lvl opt v o2,
     (init_srv 6601 (boot second_candidate_script)).2 =
       o1 ++ EvSetsockopt fd lvl opt v (-1) :: o2 →
     (init_srv 6601 (boot second_candidate_script)).1.1 = Exit EXIT_FAILURE ∧
     o2 = [EvStderr ("ERROR on setsockopt: " +:+
                     strerror (errno ((EADDRINUSE, []) : world)) +:+ newline)]) ∧
  (∀ o1 o2,
     (init_srv 6601 (boot second_candidate_script)).2 =
       o1 ++ EvSigaction (-1) :: o2 →
     (init_srv 6601 (boot second_candidate_script)).1.1 = Exit EXIT_FAILURE ∧
     o2 = [EvStderr ("ERROR on sigaction: " +:+
                     strerror (errno ((EADDRINUSE, []) : world)) +:+ newline)]) ∧
  (∀ fd, (init_srv 6601 (boot second_candidate_script)).1.1 = Ok fd →
     ∃ o l sg, (init_srv 6601 (boot second_candidate_script)).2 =
                 o ++ [EvFreeaddrinfo; EvListen fd MAX_CONNS l;
                       EvSigaction sg] ∧
               l ≠ -1 ∧ sg ≠ -1) ∧
  (∀ fd ret, EvClose fd ret ∉ (init_srv 6601 (boot second_candidate_script)).2).
Proof.
  apply (init_srv_endings 6601 (boot second_candidate_script)).
  vm_compute. reflexivity.
Defined.

(* select() fails right after start-up *)
Lemma raw_endings_witness :
  (∀ st, (raw 6601 zeros 5 (boot (startup ++ [RFail 4]))).1.1 = Exit st →
         st = EXIT_FAILURE ∧ st ≠ 0 ∧
         ∃ o text, (raw 6601 zeros 5 (boot (startup ++ [RFail 4]))).2 =
                   o ++ [EvStderr text]) ∧
  ((raw 6601 zeros 5 (boot (startup ++ [RFail 4]))).1.1 = Undefined →
   ¬ fits_port_str 6601 ∨
   (∃ srv w1,
      init_srv 6601 (boot (startup ++ [RFail 4])) =
        (Ok srv, w1, (raw 6601 zeros 5 (boot (startup ++ [RFail 4]))).2) ∧
      ¬ (0 ≤ srv < FD_SETSIZE)) ∨
   (∃ srv w1 o0 o cli,
      init_srv 6601 (boot (startup ++ [RFail 4])) = (Ok srv, w1, o0) ∧
      (raw 6601 zeros 5 (boot (startup ++ [RFail 4]))).2 =
        o ++ [EvAccept srv cli] ∧
      cli ≠ -1 ∧ ¬ (0 ≤ cli < FD_SETSIZE))).
Proof.
  apply (raw_endings 6601 zeros 5 (boot (startup ++ [RFail 4]))
           (raw 6601 zeros 5 (boot (startup ++ [RFail 4]))).1.1
           (raw 6601 zeros 5 (boot (startup ++ [RFail 4]))).1.2).
  vm_compute. reflexivity.
Defined.

(* port 70000: invalid, and its text fits port_str *)
Lemma init_srv_port_text_witness :
  (fits_port_str 70000 ↔ -9999 ≤ 70000 ≤ 99999) ∧
  ((init_srv 70000 (boot startup)).1.1 = Undefined ↔
   ¬ (-9999 ≤ 70000 ≤ 99999)) ∧
  (-9999 ≤ 70000 ≤ 99999 →
   ∃ err tail,
     (init_srv 70000 (boot startup)).2 =
       (if bool_decide (1 ≤ 70000 ≤ 65535) then []
        else [EvStderr ("Invalid port" +:+ newline)]) ++
       EvGetaddrinfo None (decimal 70000) init_srv_hints err :: tail ∧
     Z.of_int <$> NilZero.int_of_string (decimal 70000) = Some 70000 ∧
     ∀ q, decimal q = decimal 70000 → q = 70000).
Proof.
  apply (init_srv_port_text 70000 (boot startup)
           (init_srv 70000 (boot startup)).1.1
           (init_srv 70000 (boot startup)).1.2).
  vm_compute. reflexivity.
Defined.

(* the pass in which client 4 sends "hello" *)
Lemma pass_ends_witness :
  ∃ n r w' out,
    (n ≤ Z.to_nat (FD_SETSIZE - 0) + 1)%nat ∧
    steps n (Dispatching {[4]} 0, three_clients)
          (boot [RData hello; RInt 5; RInt 5]) = (r, w', out) ∧
    Forall (λ e, is_select e = false) out ∧
    ∀ c, r = Ok c →
         c.1 = Waiting ∧ fdmax three_clients ≤ fdmax c.2 < FD_SETSIZE.
Proof.
  apply (pass_ends {[4]} 0 three_clients (boot [RData hello; RInt 5; RInt 5])).
  vm_compute. split; [discriminate|reflexivity].
Defined.

Lemma idle_pass_witness :
  steps (Z.to_nat (fdmax three_clients + 1 - 0) + 1)
        (Dispatching ∅ 0, three_clients) (boot relay_script) =
    (Ok (Waiting, three_clients), boot relay_script, []).
Proof.
  apply (idle_pass ∅ 0 three_clients (boot relay_script)).
  - vm_compute. discriminate.
  - intros x _. apply not_elem_of_empty.
Defined.

Lemma buf_keeps_size_witness :
  (∀ c, (raw 6601 zeros 60 (boot relay_script)).1.1 = Ok c →
        length (buf c.2) = Z.to_nat MAX_BUF) ∧
  (∀ j d ret, EvWrite j d ret ∈ (raw 6601 zeros 60 (boot relay_script)).2 →
     d ≠ [] ∧ (length d ≤ length zeros)%nat).
Proof.
  apply (buf_keeps_size 6601 zeros 60 (boot relay_script)
           (raw 6601 zeros 60 (boot relay_script)).1.1
           (raw 6601 zeros 60 (boot relay_script)).1.2).
  - vm_compute. reflexivity.
  - vm_compute. reflexivity.
Defined.

Lemma setup_precedes_loop_witness :
  (init_srv 6601 (boot relay_script)).1.1 = Ok 3 ∧
  ∀ o1 e o2,
    (raw 6601 zeros 60 (boot relay_script)).2 = o1 ++ e :: o2 →
    is_loop_call e = true →
    ∃ pre fd l sg mid,
      o1 = pre ++ EvListen fd MAX_CONNS l :: EvSigaction sg :: mid ∧
      l ≠ -1 ∧ sg ≠ -1 ∧
      Forall (λ e', is_loop_call e' = false) pre ∧
      Forall (λ e', is_setup_call e' = false) (mid ++ e :: o2).
Proof.
  split; [vm_compute; reflexivity|].
  apply (setup_precedes_loop 6601 zeros 60 (boot relay_script)
           (raw 6601 zeros 60 (boot relay_script)).1.1
           (raw 6601 zeros 60 (boot relay_script)).1.2).
  vm_compute. reflexivity.
Defined.
